(** * ai-assistant: indexing pipeline and keyword retrieval

    A shallow embedding of the core of the repository:

    - [file_handler.py] / [document_processor.py]: [chunk_document],
      [get_file_type], [process_file], [is_supported_document];
    - [retrieval_system.py]: [KeywordRetriever] with its constructor, and
      [CombinedRetriever];
    - [app.py]: [_find_relevant_snippet], the snippet fallback of
      [search_files], and [handle_large_document];
    - [file_index.py]: [FileIndex] with [get_index_summary], and
      [FileIndexBuilder] with [index_directory] and [update_index];
    - [file_batch_processor.py]: [FileProcessingJob] and [BatchProcessor].

    Conventions.  Python [str] values are modelled as [string] restricted to
    ASCII text; Python [int] as [Z]; the arithmetic of the [float] scores is
    a parameter ([Arith]), of which the real numbers ([R]) are one
    instance: what is proved of the ranking holds for every arithmetic
    whose [<] is a strict weak order, what is proved of the values of the
    scores is proved in exact arithmetic; the progress fraction is a
    rational ([Q]); insertion-ordered [dict]s whose order is observable are
    association lists, the others are [gmap]s.  An exception is a value of [exn]; a
    function that mutates an object and may raise returns the object after
    the call together with the exception.

    What the code takes from its environment is a parameter of the model:
    [hashlib.md5] and [os.path.abspath] are functions [md5] and [abspath];
    the disk is a finite map from absolute paths to files; [os.walk], the
    exception met while the staging directory is created and cleared, the
    staging of files, [os.listdir], the content handlers and the order in
    which the thread pool finishes its jobs are fields of [Builder.env];
    [time.time()] is an argument.  Writing the index to its JSON file is
    left out, so the operations of [FileIndex] are described for the calls
    whose write succeeds; the wall-clock fields of jobs and summaries are
    left out too. *)

From Stdlib Require Import ZArith List String Ascii Lia Reals Lra Permutation QArith Sorted.
From stdpp Require Import gmap strings list sorting pretty.
Import ListNotations.

Open Scope Z_scope.

(** ** Exceptions and results *)

Inductive exn : Type :=
| IndexError
| FileNotFoundError
| PermissionError
| CallbackError.

Inductive result (A : Type) : Type :=
| Ok (a : A)
| Raise (e : exn).
Arguments Ok {A} a.
Arguments Raise {A} e.

#[global] Instance result_ret : MRet result := fun A a => Ok a.

#[global] Instance result_bind : MBind result := fun A B k r =>
  match r with
  | Ok a => k a
  | Raise e => Raise e
  end.

(** ** Python string primitives *)

Module Py.

Definition len (s : string) : Z := Z.of_nat (String.length s).

(** Clamping of a slice bound, as [slice.indices] does for step 1. *)
Definition clamp (n i : Z) : Z :=
  if i <? 0 then Z.max 0 (i + n) else Z.min i n.

(** [s[a:b]] *)
Definition slice (s : string) (a b : Z) : string :=
  let n := len s in
  let a' := clamp n a in
  let b' := clamp n b in
  substring (Z.to_nat a') (Z.to_nat (b' - a')) s.

(** [s[i]]; [IndexError] outside [-len s <= i < len s]. *)
Definition index (s : string) (i : Z) : result ascii :=
  let n := len s in
  if (i <? - n) || (n <=? i) then Raise IndexError
  else match String.get (Z.to_nat (if i <? 0 then i + n else i)) s with
       | Some c => Ok c
       | None => Raise IndexError
       end.

Definition newline : ascii := "010"%char.

End Py.

(** ** [chunk_document] ([file_handler.py], [document_processor.py]) *)

Module Chunker.

Definition break_chars : list ascii := ["."; Py.newline; "!"; "?"]%char.

(** The inner [for i in range(end, max(end - 100, start), -1)] loop:
    [steps] is the number of values the range still yields, [i] the next
    one.  Returns the new [end] when a break character is met. *)
Fixpoint find_break (text : string) (i : Z) (steps : nat) : result (option Z) :=
  match steps with
  | O => Ok None
  | S k =>
      c ← Py.index text i;
      if existsb (Ascii.eqb c) break_chars then Ok (Some (i + 1))
      else find_break text (i - 1) k
  end.

(** One pass through the body of the [while] loop. *)
Definition chunk_body (text : string) (chunk_size overlap : Z)
    (start : Z) (chunks : list string) : result (Z * list string) :=
  let end0 := Z.min (start + chunk_size) (Py.len text) in
  end1 ← (if end0 <? Py.len text then
            b ← find_break text end0
                  (Z.to_nat (end0 - Z.max (end0 - 100) start));
            Ok (match b with Some e => e | None => end0 end)
          else Ok end0);
  Ok (end1 - overlap, chunks ++ [Py.slice text start end1]).

(** The [while start < len(text)] loop, with fuel.  [None]: the loop is
    still running when the fuel is spent. *)
Fixpoint chunk_loop (fuel : nat) (text : string) (chunk_size overlap : Z)
    (start : Z) (chunks : list string) : option (result (list string)) :=
  match fuel with
  | O => None
  | S f =>
      if start <? Py.len text then
        match chunk_body text chunk_size overlap start chunks with
        | Ok (start', chunks') => chunk_loop f text chunk_size overlap start' chunks'
        | Raise e => Some (Raise e)
        end
      else Some (Ok chunks)
  end.

Definition chunk_document (fuel : nat) (text : string)
    (chunk_size overlap : Z) : option (result (list string)) :=
  chunk_loop fuel text chunk_size overlap 0 [].

Definition default_chunk_size : Z := 1000.
Definition default_overlap : Z := 200.

(** State of the loop after [n] passes through its body. *)
Fixpoint chunk_iter (n : nat) (text : string) (chunk_size overlap : Z)
    : result (Z * list string) :=
  match n with
  | O => Ok (0, [])
  | S k =>
      st ← chunk_iter k text chunk_size overlap;
      chunk_body text chunk_size overlap (fst st) (snd st)
  end.

End Chunker.

(** ** Snippet extraction ([app.py]) *)

Module Snippet.

Fixpoint str_map (f : ascii -> ascii) (s : string) : string :=
  match s with
  | EmptyString => EmptyString
  | String c s' => String (f c) (str_map f s')
  end.

(** [str.lower()] on ASCII text. *)
Definition lower_char (c : ascii) : ascii :=
  let n := nat_of_ascii c in
  if ((65 <=? n) && (n <=? 90))%nat then ascii_of_nat (n + 32) else c.

Definition lower : string -> string := str_map lower_char.

(** [s.replace('\n', ' ')] *)
Definition flatten_newlines : string -> string :=
  str_map (fun c => if Ascii.eqb c Py.newline then " "%char else c).

(** ASCII characters for which [str.isspace()] holds. *)
Definition is_space (c : ascii) : bool :=
  let n := nat_of_ascii c in
  (((9 <=? n) && (n <=? 13)) || ((28 <=? n) && (n <=? 32)))%nat.

Fixpoint lstrip (s : string) : string :=
  match s with
  | EmptyString => EmptyString
  | String c s' => if is_space c then lstrip s' else s
  end.

Fixpoint rstrip (s : string) : string :=
  match s with
  | EmptyString => EmptyString
  | String c s' =>
      match rstrip s' with
      | EmptyString => if is_space c then EmptyString else String c EmptyString
      | r => String c r
      end
  end.

(** [s.strip()] *)
Definition strip (s : string) : string := rstrip (lstrip s).

(** [s.split()]: maximal runs of non-space characters. *)
Fixpoint split_go (cur : string) (s : string) : list string :=
  match s with
  | EmptyString => if String.eqb cur "" then [] else [cur]
  | String c s' =>
      if is_space c
      then (if String.eqb cur "" then [] else [cur]) ++ split_go "" s'
      else split_go (cur ++ String c "") s'
  end.

Definition split : string -> list string := split_go "".

(** [s.find(sub, start)] for [start >= 0]; [-1] when absent. *)
Definition find (s sub : string) (start : Z) : Z :=
  match String.index (Z.to_nat start) sub s with
  | Some m => Z.of_nat m
  | None => -1
  end.

(** The [while pos != -1] loop collecting the occurrences of one term.
    Every pass moves [pos] to a strictly later occurrence, so
    [len(content) + 2] passes are enough. *)
Fixpoint find_all (fuel : nat) (content_lower term : string) (pos : Z)
    (term_positions : list (Z * Z)) : list (Z * Z) :=
  match fuel with
  | O => term_positions
  | S f =>
      if pos =? -1 then term_positions
      else find_all f content_lower term
             (find content_lower term (pos + 1))
             (term_positions ++ [(pos, Py.len term)])
  end.

Definition collect_positions (content_lower : string) (query_terms : list string)
    : list (Z * Z) :=
  fold_left
    (fun acc term =>
       find_all (String.length content_lower + 2) content_lower term
         (find content_lower term 0) acc)
    query_terms [].

(** Tuple comparison used by [list.sort()]. *)
Definition pair_leb (a b : Z * Z) : bool :=
  (fst a <? fst b) || ((fst a =? fst b) && (snd a <=? snd b)).

Fixpoint insert_sorted (x : Z * Z) (l : list (Z * Z)) : list (Z * Z) :=
  match l with
  | [] => [x]
  | y :: l' => if pair_leb x y then x :: l else y :: insert_sorted x l'
  end.

Definition sort_positions (l : list (Z * Z)) : list (Z * Z) :=
  fold_right insert_sorted [] l.

Fixpoint enumerate_from {A} (i : nat) (l : list A) : list (nat * A) :=
  match l with
  | [] => []
  | x :: l' => (i, x) :: enumerate_from (S i) l'
  end.

(** [terms_in_snippet] for the window [start, end) around hit number [i]. *)
Definition terms_in_window (term_positions : list (Z * Z)) (i : nat)
    (start end_ : Z) : Z :=
  fold_left
    (fun n '(j, (other_pos, _)) =>
       if negb (Nat.eqb i j) && (start <=? other_pos) && (other_pos <? end_)
       then n + 1 else n)
    (enumerate_from 0 term_positions) 1.

(** The scoring loop; the state is [(best_score, best_start)]. *)
Definition best_window (content : string) (term_positions : list (Z * Z))
    (context_size : Z) : Z * Z :=
  fold_left
    (fun '(best_score, best_start) '(i, (pos, length)) =>
       let start := Z.max 0 (pos - context_size) in
       let end_ := Z.min (Py.len content) (pos + length + context_size) in
       let terms_in_snippet := terms_in_window term_positions i start end_ in
       if terms_in_snippet >? best_score
       then (terms_in_snippet, start)
       else (best_score, best_start))
    (enumerate_from 0 term_positions) (0, 0).

Definition _find_relevant_snippet (content : string) (query_terms : list string)
    (context_size : Z) : string :=
  if String.eqb content "" || (match query_terms with [] => true | _ => false end)
  then ""
  else
    let content_lower := lower (flatten_newlines content) in
    let term_positions := collect_positions content_lower query_terms in
    match term_positions with
    | [] => ""
    | _ =>
        let term_positions := sort_positions term_positions in
        let best_start := snd (best_window content term_positions context_size) in
        let end_ := Z.min (Py.len content) (best_start + context_size * 2) in
        strip (flatten_newlines (Py.slice content best_start end_))
    end.

Definition default_context_size : Z := 50.

(** The text put after [Snippet:] by [search_files] for a [str] content. *)
Definition search_files_snippet (content query : string) : string :=
  let query_terms := split (lower query) in
  let best_snippet := _find_relevant_snippet content query_terms default_context_size in
  if negb (String.eqb best_snippet "") then best_snippet ++ "..."
  else
    let snippet := strip (flatten_newlines (Py.slice content 0 100)) in
    if Py.len content >? 100 then snippet ++ "..." else snippet.

(** [sub in s] *)
Definition contains (s sub : string) : bool :=
  match String.index 0 sub s with Some _ => true | None => false end.

Fixpoint repeat_string (s : string) (n : nat) : string :=
  match n with
  | O => ""
  | S k => s ++ repeat_string s k
  end.

(** A text in which "fox" starts 46 characters after the end of "jumps". *)
Definition far_fox : string :=
  (repeat_string "x" 50 ++ "jumps" ++ repeat_string "x" 46 ++ "fox"
     ++ repeat_string "y" 30)%string.

End Snippet.

(** ** Insertion-ordered dictionaries *)

Section AList.
Context {K V : Type} `{EqDecision K}.

(** [d.get(k)] *)
Fixpoint alist_get (k : K) (d : list (K * V)) : option V :=
  match d with
  | [] => None
  | (k', v) :: d' => if decide (k = k') then Some v else alist_get k d'
  end.

(** [d[k] = v]: an existing key keeps its place, a new key goes last. *)
Fixpoint alist_set (k : K) (v : V) (d : list (K * V)) : list (K * V) :=
  match d with
  | [] => [(k, v)]
  | (k', v') :: d' =>
      if decide (k = k') then (k, v) :: d' else (k', v') :: alist_set k v d'
  end.

(** [list(d.keys())] *)
Definition alist_keys (d : list (K * V)) : list K := fst <$> d.

End AList.

(** ** Floating-point arithmetic *)

(** The relevance scores are Python floats.  What the code uses of them is
    a parameter of the model.  [F] stands for the values a float can take,
    NaN apart, the two zeros being one value (they are equal in Python);
    [float_of_nat n] is the float of the [int] [n]: an [int] operand of a
    float operation is converted first, and [int / int] is the quotient of
    the two floats (the operands are lengths of lists, far below 2^53).
    [flog] is [math.log], [flt] is [<].  The operations are total here;
    where Python raises ([math.log] of 0, division by 0) or gives NaN they
    are left unspecified, for the code never gets there: a score is a sum
    of products of a count with the logarithm of a quotient N / df, where
    1 <= df <= N. *)
Class Arith (F : Type) : Type := {
  float_of_nat : nat -> F;
  fadd : F -> F -> F;
  fmul : F -> F -> F;
  fdiv : F -> F -> F;
  flog : F -> F;
  flt : F -> F -> Prop;
  flt_dec : forall x y : F, {flt x y} + {~ flt x y}
}.

(** What is assumed of the arithmetic: [<] is a strict weak order, as it is
    on the floats that are not NaN, and adding a float to [0] gives that
    float. *)
Record arith_laws {F : Type} (A : Arith F) : Prop := {
  flt_irrefl : forall x, ~ flt x x;
  flt_trans : forall x y z, flt x y -> flt y z -> flt x z;
  flt_cotrans : forall x y z, flt x z -> flt x y \/ flt y z;
  fadd_0_l : forall x, fadd (float_of_nat 0) x = x
}.

(** [x == y] on floats: neither is below the other. *)
Definition same_score {F : Type} {A : Arith F} (x y : F) : Prop :=
  ~ flt x y /\ ~ flt y x.

#[global] Instance same_score_dec {F : Type} {A : Arith F} (x y : F) :
  Decision (same_score x y).
Proof.
  unfold same_score.
  destruct (flt_dec x y); [right; tauto |].
  destruct (flt_dec y x); [right; tauto | left; tauto].
Defined.

(** The real numbers: the exact arithmetic that the floats round. *)
#[global] Instance real_arith : Arith R := {|
  float_of_nat := INR;
  fadd := Rplus;
  fmul := Rmult;
  fdiv := Rdiv;
  flog := ln;
  flt := Rlt;
  flt_dec := Rlt_dec
|}.

(** ** [KeywordRetriever] ([retrieval_system.py]) *)

Module Retriever.

(** The [content] field: a [str], a [dict]/[list] (carried with the text
    that [json.dumps] gives for it), or anything else. *)
Inductive content_t : Type :=
| CStr (s : string)
| CJson (dumped : string)
| COther.

Record document : Type := {
  doc_id : option Z;
  doc_filename : string;
  doc_content : content_t
}.

Record retriever : Type := {
  documents : list document;
  index : list (string * list (Z * nat))
}.

Definition empty : retriever := {| documents := []; index := [] |}.

(** [\w] on lower-cased ASCII text. *)
Definition is_word_char (c : ascii) : bool :=
  let n := nat_of_ascii c in
  (((48 <=? n) && (n <=? 57)) || ((97 <=? n) && (n <=? 122))
   || ((65 <=? n) && (n <=? 90)) || (n =? 95))%nat.

(** [re.findall(r'\w+', s)]: the maximal runs of word characters. *)
Fixpoint findall_words (cur : string) (s : string) : list string :=
  match s with
  | EmptyString => if String.eqb cur "" then [] else [cur]
  | String c s' =>
      if is_word_char c then findall_words (cur ++ String c "") s'
      else (if String.eqb cur "" then [] else [cur]) ++ findall_words "" s'
  end.

Definition _tokenize (text : string) : list string :=
  findall_words "" (Snippet.lower text).

Definition content_text (c : content_t) : string :=
  match c with
  | CStr s => s
  | CJson dumped => dumped
  | COther => ""
  end.

(** [self.index[token][doc_id] = self.index[token].get(doc_id, 0) + 1],
    creating [self.index[token]] first when the token is new. *)
Definition index_token (doc_id : Z) (idx : list (string * list (Z * nat)))
    (token : string) : list (string * list (Z * nat)) :=
  let idx1 := match alist_get token idx with
              | None => alist_set token [] idx
              | Some _ => idx
              end in
  let posting := default [] (alist_get token idx1) in
  alist_set token
    (alist_set doc_id (default 0%nat (alist_get doc_id posting) + 1)%nat posting)
    idx1.

Definition add_document (r : retriever) (d : document) : retriever * bool :=
  let id := default (Z.of_nat (List.length (documents r))) (doc_id d) in
  let d' := {| doc_id := Some id;
               doc_filename := doc_filename d;
               doc_content := doc_content d |} in
  let tokens := _tokenize (content_text (doc_content d)) in
  ({| documents := documents r ++ [d'];
      index := fold_left (index_token id) tokens (index r) |}, true).

(** A retriever made by [KeywordRetriever()] followed by [add_document]
    calls. *)
Definition build (ds : list document) : retriever :=
  fold_left (fun r d => fst (add_document r d)) ds empty.

(** [l[:k]] *)
Definition take_py {X} (k : Z) (l : list X) : list X :=
  if k <? 0 then firstn (Z.to_nat (Z.max 0 (Z.of_nat (List.length l) + k))) l
  else firstn (Z.to_nat k) l.

(** [{doc.get('id'): doc for doc in self.documents}.get(doc_id)]: the last
    document stored under the id. *)
Definition id_to_doc (r : retriever) (id : Z) : option document :=
  List.find (fun d => bool_decide (doc_id d = Some id)) (rev (documents r)).

Section Scores.
Context {F : Type} {A : Arith F}.

(** [score = 0] is the [int] 0; the first [+=] makes it a float. *)
Definition _calculate_score (r : retriever) (query_tokens : list string)
    (id : Z) : F :=
  fold_left
    (fun score token =>
       match alist_get token (index r) with
       | Some posting =>
           match alist_get id posting with
           | Some tf =>
               let idf := flog (fdiv (float_of_nat (List.length (documents r)))
                                     (float_of_nat (List.length posting))) in
               fadd score (fmul (float_of_nat tf) idf)
           | None => score
           end
       | None => score
       end)
    query_tokens (float_of_nat 0).

(** The body of the two nested [for] loops of [retrieve] for one posting. *)
Definition score_posting (r : retriever) (token : string)
    (scores : list (Z * F)) (entry : Z * nat) : list (Z * F) :=
  let id := fst entry in
  let scores1 := match alist_get id scores with
                 | None => alist_set id (float_of_nat 0) scores
                 | Some _ => scores
                 end in
  alist_set id
    (fadd (default (float_of_nat 0) (alist_get id scores1))
          (_calculate_score r [token] id))
    scores1.

Definition score_token (r : retriever) (scores : list (Z * F))
    (token : string) : list (Z * F) :=
  match alist_get token (index r) with
  | Some posting => fold_left (score_posting r token) posting scores
  | None => scores
  end.

Definition compute_scores (r : retriever) (query_tokens : list string)
    : list (Z * F) :=
  fold_left (score_token r) query_tokens [].

(** [sorted(l, key=key, reverse=True)]: descending, and elements with equal
    keys keep their order. *)
Fixpoint insert_desc {X} (key : X -> F) (x : X) (l : list X) : list X :=
  match l with
  | [] => [x]
  | y :: l' =>
      if flt_dec (key x) (key y) then y :: insert_desc key x l' else x :: l
  end.

Definition sorted_desc {X} (key : X -> F) (l : list X) : list X :=
  fold_right (insert_desc key) [] l.

Definition score_of (scores : list (Z * F)) (id : Z) : F :=
  default (float_of_nat 0) (alist_get id scores).

Definition result_ids (r : retriever) (query : string) (top_k : Z) : list Z :=
  let scores := compute_scores r (_tokenize query) in
  take_py top_k (sorted_desc (score_of scores) (alist_keys scores)).

(** Each result is the stored document with its [relevance_score]. *)
Definition retrieve (r : retriever) (query : string) (top_k : Z)
    : list (document * F) :=
  let scores := compute_scores r (_tokenize query) in
  flat_map
    (fun id =>
       match id_to_doc r id with
       | Some doc => [(doc, score_of scores id)]
       | None => []
       end)
    (result_ids r query top_k).

End Scores.

Definition default_top_k : Z := 3.

Definition mk_doc (id : Z) (content : string) : document :=
  {| doc_id := Some id; doc_filename := ""; doc_content := CStr content |}.

End Retriever.

(** ** Vocabulary of the retrieval claims *)

Module RetrieverSpec.
Import Retriever.

Definition doc_tokens (d : document) : list string :=
  _tokenize (content_text (doc_content d)).

Fixpoint count_token (t : string) (ts : list string) : nat :=
  match ts with
  | [] => 0
  | u :: ts' => (if decide (t = u) then 1 else 0) + count_token t ts'
  end.

(** termFrequency(token, doc) *)
Definition term_frequency (t : string) (d : document) : nat :=
  count_token t (doc_tokens d).

Definition contains_token (t : string) (d : document) : bool :=
  negb (Nat.eqb (term_frequency t d) 0).

(** documentsContainingToken *)
Definition document_frequency (t : string) (ds : list document) : nat :=
  List.length (List.filter (contains_token t) ds).

(** The posting list a token should have: the documents containing it, in
    insertion order, with their term frequencies. *)
Definition posting_spec (t : string) (ds : list document) : list (Z * nat) :=
  flat_map
    (fun d =>
       match doc_id d with
       | Some id => if contains_token t d then [(id, term_frequency t d)] else []
       | None => []
       end)
    ds.

(** tf × ln(N / df) for one token. *)
Definition tfidf {F : Type} {A : Arith F} (ds : list document) (t : string)
    (d : document) : F :=
  fmul (float_of_nat (term_frequency t d))
       (flog (fdiv (float_of_nat (List.length ds))
                   (float_of_nat (document_frequency t ds)))).

(** Σ over the query tokens matching [d] of tf × ln(N / df), added up in
    the order of the query tokens. *)
Definition tfidf_sum {F : Type} {A : Arith F} (ds : list document)
    (query_tokens : list string) (d : document) : F :=
  fold_left
    (fun acc t => if contains_token t d then fadd acc (tfidf ds t d) else acc)
    query_tokens (float_of_nat 0).

(** [a] occurs at an earlier position than [b]. *)
Definition before {A} (l : list A) (a b : A) : Prop :=
  exists l1 l2 l3, l = l1 ++ a :: l2 ++ b :: l3.

(** Append [x] unless already present. *)
Definition add_key (acc : list Z) (x : Z) : list Z :=
  if decide (x ∈ acc) then acc else acc ++ [x].

(** The order in which documents are first reached when the query tokens
    are scanned in order and, for each token, the documents containing it
    in insertion order. *)
Definition scan_order (ds : list document) (query_tokens : list string) : list Z :=
  fold_left add_key
    (flat_map (fun t => alist_keys (posting_spec t ds)) query_tokens) [].

(** The result built for a ranked id whose document is found. *)
Definition result_entry {F : Type} {A : Arith F} (r : retriever)
    (scores : list (Z * F)) (id : Z) : document * F :=
  (default (mk_doc 0 "") (id_to_doc r id), score_of scores id).

Definition wrap {A} (l : list A) : option (list A) :=
  match l with [] => None | _ => Some l end.

Definition ext (id : Z) (n : nat) : list (Z * nat) :=
  match n with O => [] | _ => [(id, n)] end.

(** Index invariant: stored documents carry pairwise distinct ids and every
    token owns exactly its posting list. *)
Record index_ok (r : retriever) : Prop := {
  ok_ids : Forall (fun d => is_Some (doc_id d)) (documents r);
  ok_nodup : NoDup (doc_id <$> documents r);
  ok_index : forall t, alist_get t (index r) = wrap (posting_spec t (documents r))
}.

(** What [retrieve] delivers: only stored documents holding a query token,
    each with its tf-idf sum as score; no result has a lower score than a
    later one; among equal scores the scan order decides, which for a
    one-token query is the insertion order; at most [top_k] results. *)
Definition retrieve_spec {F : Type} {A : Arith F} (r : retriever)
    (query : string) (top_k : Z) : Prop :=
  let res := retrieve r query top_k in
  let qts := _tokenize query in
  let ds := documents r in
  Forall (fun e => fst e ∈ ds
                   /\ (exists t, t ∈ qts /\ t ∈ doc_tokens (fst e))
                   /\ snd e = tfidf_sum ds qts (fst e)) res
  /\ StronglySorted (fun a b => ~ flt (snd a) (snd b)) res
  /\ (forall a b, before res a b -> same_score (snd a) (snd b) ->
        exists ia ib, doc_id (fst a) = Some ia /\ doc_id (fst b) = Some ib
                      /\ before (scan_order ds qts) ia ib)
  /\ (forall t, qts = [t] ->
        forall a b, before res a b -> same_score (snd a) (snd b) ->
                    before ds (fst a) (fst b))
  /\ Z.of_nat (List.length res) <= top_k.

(** Σ over the query tokens of tf alone. *)
Fixpoint tf_sum (query_tokens : list string) (d : document) : R :=
  match query_tokens with
  | [] => 0
  | t :: ts => INR (term_frequency t d) + tf_sum ts d
  end%R.

End RetrieverSpec.

(** ** Corpora used in the retrieval examples *)

Module RetrieverExamples.
Import Retriever.

Definition doc1 : document := mk_doc 1 "alpha beta".
Definition doc2 : document := mk_doc 2 "beta gamma".
Definition doc3 : document := mk_doc 3 "alpha alpha gamma".
Definition corpus3 : retriever := build [doc1; doc2; doc3].

Definition docB : document := mk_doc 1 "beta".
Definition docA : document := mk_doc 2 "alpha".
Definition corpus_tie : retriever := build [docB; docA].

Definition docAA : document := mk_doc 1 "alpha alpha".
Definition corpus_one : retriever := build [docAA].

(** The second document carries no id and is given [len(self.documents)],
    which is 1 and collides with the first. *)
Definition doc_no_id : document :=
  {| doc_id := None; doc_filename := ""; doc_content := CStr "beta" |}.
Definition corpus_clash : retriever := build [mk_doc 1 "alpha"; doc_no_id].

(** tf × log(3/2): what the query "alpha" gives a document of [corpus3]
    in which "alpha" occurs [tf] times. *)
Definition alpha_score {F : Type} {A : Arith F} (tf : nat) : F :=
  fmul (float_of_nat tf) (flog (fdiv (float_of_nat 3) (float_of_nat 2))).

(** 1 × log(2/1): what the query "alpha beta" gives either document of
    [corpus_tie]. *)
Definition tie_score {F : Type} {A : Arith F} : F :=
  fmul (float_of_nat 1) (flog (fdiv (float_of_nat 2) (float_of_nat 1))).

(** The claimed tie-break: of two results with equal scores the one
    inserted first comes first. *)
Definition ties_in_insertion_order {F : Type} {A : Arith F} (r : retriever)
    (res : list (document * F)) : Prop :=
  forall a b, RetrieverSpec.before res a b -> same_score (snd a) (snd b) ->
              RetrieverSpec.before (documents r) (fst a) (fst b).

(** The claimed single-document score: the pure term frequency. *)
Definition score_is_term_frequency (query : string)
    (res : list (document * R)) : Prop :=
  Forall (fun e => snd e = RetrieverSpec.tf_sum (_tokenize query) (fst e)) res.

End RetrieverExamples.

(** ** Paths ([os.path], POSIX flavour) *)

Module Path.

Definition slash : ascii := "/"%char.

Fixpoint take_while (f : ascii -> bool) (l : list ascii) : list ascii :=
  match l with
  | [] => []
  | c :: l' => if f c then c :: take_while f l' else []
  end.

Fixpoint drop_while (f : ascii -> bool) (l : list ascii) : list ascii :=
  match l with
  | [] => []
  | c :: l' => if f c then drop_while f l' else l
  end.

Definition is_slash (c : ascii) : bool := Ascii.eqb c slash.

(** [posixpath.split]: the head is cut after the last slash and loses its
    trailing slashes unless it consists of slashes only. *)
Definition split (p : string) : string * string :=
  let r := rev (list_ascii_of_string p) in
  let tail_r := take_while (fun c => negb (is_slash c)) r in
  let head_r := drop_while (fun c => negb (is_slash c)) r in
  let head_r' := match drop_while is_slash head_r with
                 | [] => head_r
                 | h => h
                 end in
  (string_of_list_ascii (rev head_r'), string_of_list_ascii (rev tail_r)).

Definition dirname (p : string) : string := fst (split p).
Definition basename (p : string) : string := snd (split p).

(** [p.split("/")] *)
Fixpoint split_on_slash (cur : string) (p : string) : list string :=
  match p with
  | EmptyString => [cur]
  | String c p' =>
      if is_slash c then cur :: split_on_slash "" p'
      else split_on_slash (cur ++ String c "") p'
  end.

(** [pathlib.PurePosixPath(p).name]: the last component of the path, empty
    components and ["."] components being dropped when the path is
    parsed. *)
Definition pure_name (p : string) : string :=
  default ""%string
    (last (List.filter (fun x => negb (String.eqb x "" || String.eqb x "."))
             (split_on_slash "" p))).

(** [os.path.join(a, b)] for a relative [b]. *)
Definition join (a b : string) : string :=
  if String.eqb a "" then b
  else match rev (list_ascii_of_string a) with
       | c :: _ => if is_slash c then (a ++ b)%string else (a ++ "/" ++ b)%string
       | [] => b
       end.

End Path.

(** ** The file system seen by the index *)

Module FS.

(** A regular file: its bytes, whether [open(path, "rb")] succeeds, and its
    modification time. *)
Record file : Type := {
  data : string;
  readable : bool;
  mtime : Z
}.

(** Absolute path to file; a snapshot of the disk. *)
Abbreviation t := (gmap string file).

(** [os.path.getsize] *)
Definition getsize (fs : t) (path : string) : result Z :=
  match fs !! path with
  | Some f => Ok (Py.len (data f))
  | None => Raise FileNotFoundError
  end.

(** [os.path.getmtime] *)
Definition getmtime (fs : t) (path : string) : result Z :=
  match fs !! path with
  | Some f => Ok (mtime f)
  | None => Raise FileNotFoundError
  end.

(** [open(path, "rb").read()] *)
Definition read_bytes (fs : t) (path : string) : result string :=
  match fs !! path with
  | Some f => if readable f then Ok (data f) else Raise PermissionError
  | None => Raise FileNotFoundError
  end.

End FS.

(** ** [FileIndex] ([file_index.py]) *)

Module FileIndex.

(** The two kinds of string stored under ["hash"]: an MD5 hex digest (32
    hexadecimal digits) or [str(mtime)] (the text of a float); the two
    never coincide. *)
Inductive file_hash : Type :=
| ContentHash (hexdigest : string)
| MtimeFallback (mtime : Z).

#[global] Instance file_hash_eq_dec : EqDecision file_hash.
Proof. solve_decision. Defined.

(** The extraction result handed to [add_file]. *)
Record file_info : Type := {
  fi_filename : string;
  fi_content : string;
  fi_type : option string;
  fi_metadata : option (list (string * string))
}.

Record file_record : Type := {
  rec_path : string;
  rec_filename : string;
  rec_hash : file_hash;
  rec_last_indexed : Z;
  rec_type : string;
  rec_size : Z;
  rec_metadata : list (string * string)
}.

Record directory_entry : Type := {
  dir_path : string;
  dir_files : list string
}.

Record index_t : Type := {
  version : Z;
  last_updated : Z;
  files : gmap string file_record;
  directories : gmap string directory_entry
}.

(** [time.time()] is passed to each operation as [now]. *)
Definition _create_empty_index (now : Z) : index_t :=
  {| version := 1; last_updated := now; files := ∅; directories := ∅ |}.

(** [_save_index]: stamps the index and writes it to its JSON file.  The
    write ([os.makedirs], [open], [json.dump]) is outside the model, which
    describes the calls whose write succeeds: a call whose write raises
    has changed the index in memory and then raises, and no result of the
    model stands for it. *)
Definition _save_index (now : Z) (idx : index_t) : index_t :=
  {| version := version idx; last_updated := now;
     files := files idx; directories := directories idx |}.

(** [list.remove(x)] for an [x] known to be present: drops the first
    occurrence. *)
Fixpoint list_remove_first (x : string) (l : list string) : list string :=
  match l with
  | [] => []
  | y :: l' => if decide (x = y) then l' else y :: list_remove_first x l'
  end.

(** The two steps of [add_file] on [self.index["directories"]]: create the
    entry of the directory when missing, then append the path to its file
    list unless already there. *)
Definition add_to_directory (directory abs_path : string)
    (dirs : gmap string directory_entry) : gmap string directory_entry :=
  let dirs1 :=
    match dirs !! directory with
    | None => <[directory := {| dir_path := directory; dir_files := [] |}]> dirs
    | Some _ => dirs
    end in
  match dirs1 !! directory with
  | Some e =>
      if decide (abs_path ∈ dir_files e) then dirs1
      else <[directory := {| dir_path := dir_path e;
                             dir_files := dir_files e ++ [abs_path] |}]> dirs1
  | None => dirs1
  end.

(** The hash [_get_file_hash] computes for an existing file. *)
Definition current_hash (md5 : string -> string) (f : FS.file) : file_hash :=
  if FS.readable f then ContentHash (md5 (FS.data f))
  else MtimeFallback (FS.mtime f).

Section WithEnvironment.
(** [hashlib.md5(data).hexdigest()] and [os.path.abspath]. *)
Variable md5 : string -> string.
Variable abspath : string -> string.

Definition _get_file_hash (fs : FS.t) (file_path : string) : result file_hash :=
  match FS.read_bytes fs file_path with
  | Ok file_data => Ok (ContentHash (md5 file_data))
  | Raise _ => t ← FS.getmtime fs file_path; Ok (MtimeFallback t)
  end.

(** The index after the call, and the exception if one was raised. *)
Definition add_file (fs : FS.t) (now : Z) (file_path : string)
    (info : file_info) (idx : index_t) : index_t * option exn :=
  let abs_path := abspath file_path in
  match _get_file_hash fs abs_path with
  | Raise e => (idx, Some e)
  | Ok file_hash =>
      let directory := Path.dirname abs_path in
      let dirs2 := add_to_directory directory abs_path (directories idx) in
      let idx1 := {| version := version idx; last_updated := last_updated idx;
                     files := files idx; directories := dirs2 |} in
      match FS.getsize fs abs_path with
      | Raise e => (idx1, Some e)
      | Ok size =>
          let record :=
            {| rec_path := abs_path;
               rec_filename := Path.basename abs_path;
               rec_hash := file_hash;
               rec_last_indexed := now;
               rec_type := default "unknown"%string (fi_type info);
               rec_size := size;
               rec_metadata := default [] (fi_metadata info) |} in
          (_save_index now
             {| version := version idx; last_updated := last_updated idx;
                files := <[abs_path := record]> (files idx);
                directories := dirs2 |},
           None)
      end
  end.

Definition remove_file (now : Z) (file_path : string) (idx : index_t) : index_t :=
  let abs_path := abspath file_path in
  let files' := match files idx !! abs_path with
                | Some _ => delete abs_path (files idx)
                | None => files idx
                end in
  let directory := Path.dirname abs_path in
  let dirs' :=
    match directories idx !! directory with
    | Some e =>
        if decide (abs_path ∈ dir_files e)
        then <[directory := {| dir_path := dir_path e;
                               dir_files := list_remove_first abs_path (dir_files e) |}]>
               (directories idx)
        else directories idx
    | None => directories idx
    end in
  _save_index now
    {| version := version idx; last_updated := last_updated idx;
       files := files'; directories := dirs' |}.

Definition get_file_info (file_path : string) (idx : index_t) : option file_record :=
  files idx !! abspath file_path.

Definition file_needs_update (fs : FS.t) (file_path : string) (idx : index_t)
    : result bool :=
  let abs_path := abspath file_path in
  match files idx !! abs_path with
  | None => Ok true
  | Some record =>
      file_hash ← _get_file_hash fs abs_path;
      Ok (bool_decide (file_hash ≠ rec_hash record))
  end.

Definition get_files_in_directory (directory : string) (idx : index_t)
    : list file_record :=
  match directories idx !! abspath directory with
  | None => []
  | Some e => omap (fun file_path => files idx !! file_path) (dir_files e)
  end.

Definition clear_index (now : Z) (idx : index_t) : index_t :=
  _save_index now (_create_empty_index now).

(** The states of the index: empty at first, then changed by the three
    mutating operations whenever they complete. *)
Inductive reachable : index_t -> Prop :=
| reach_empty now : reachable (_create_empty_index now)
| reach_add fs now file_path info idx idx' :
    reachable idx ->
    add_file fs now file_path info idx = (idx', None) ->
    reachable idx'
| reach_remove now file_path idx :
    reachable idx -> reachable (remove_file now file_path idx)
| reach_clear now idx :
    reachable idx -> reachable (clear_index now idx).

End WithEnvironment.

(** Every path listed under a directory has a record. *)
Definition dirs_backed (idx : index_t) : Prop :=
  forall d e p, directories idx !! d = Some e -> p ∈ dir_files e ->
                is_Some (files idx !! p).

(** A path is listed only under its own directory, and only once. *)
Definition dirs_proper (idx : index_t) : Prop :=
  forall d e, directories idx !! d = Some e ->
              NoDup (dir_files e) /\ forall p, p ∈ dir_files e -> Path.dirname p = d.

Definition listed (idx : index_t) (p : string) : Prop :=
  exists d e, directories idx !! d = Some e /\ p ∈ dir_files e.


End FileIndex.

(** ** A small disk and index used in the examples *)

Module FileIndexExamples.
Import FileIndex.

(** Stand-ins for the environment: paths that are already absolute and
    normalised, and a digest that is only ever compared for equality. *)
Definition abspath_id (p : string) : string := p.
Definition digest_id (bytes : string) : string := bytes.

Definition file_a : FS.file :=
  {| FS.data := "hello"; FS.readable := true; FS.mtime := 100 |}.

Definition fs_a : FS.t := {[ "/docs/a.txt"%string := file_a ]}.

Definition info_a : file_info :=
  {| fi_filename := "a.txt"; fi_content := "hello";
     fi_type := Some "text"%string; fi_metadata := None |}.

(** The index after [add_file("/docs/a.txt", ...)] on an empty index. *)
Definition idx_a : index_t :=
  fst (add_file digest_id abspath_id fs_a 1 "/docs/a.txt" info_a
         (_create_empty_index 0)).


End FileIndexExamples.

(** ** [FileProcessingJob] and [BatchProcessor] ([file_batch_processor.py]) *)

Module Batch.
Import FileIndex.

Inductive status : Type := Pending | Processing | Completed | Failed.

#[global] Instance status_eq_dec : EqDecision status.
Proof. solve_decision. Defined.

(** Start and end times are wall-clock readings and are left out. *)
Record job : Type := {
  job_filename : string;
  job_file_type : string;
  job_status : status;
  job_error : option string;
  job_result : option file_info
}.

Definition new_job (filename file_type : string) : job :=
  {| job_filename := filename; job_file_type := file_type;
     job_status := Pending; job_error := None; job_result := None |}.

Definition start (j : job) : job :=
  {| job_filename := job_filename j; job_file_type := job_file_type j;
     job_status := Processing; job_error := job_error j;
     job_result := job_result j |}.

Definition complete (j : job) (r : file_info) : job :=
  {| job_filename := job_filename j; job_file_type := job_file_type j;
     job_status := Completed; job_error := job_error j;
     job_result := Some r |}.

Definition fail (j : job) (error : string) : job :=
  {| job_filename := job_filename j; job_file_type := job_file_type j;
     job_status := Failed; job_error := Some error;
     job_result := job_result j |}.

(** The dictionary handed to the callback: a copy of the fields. *)
Definition to_dict (j : job) : job := j.

(** The Content Extractor as seen by the batch processor.  The readers of
    [TextFileHandler] can raise; the two extractors of [DocumentHandler]
    turn their errors into text; [get_document_metadata] can raise. *)
Record extractor : Type := {
  read_text : string -> result string;
  read_json : string -> result string;
  read_csv : string -> result string;
  pdf_available : bool;
  docx_available : bool;
  extract_text_from_pdf : string -> string;
  extract_text_from_docx : string -> string;
  get_document_metadata : string -> result (list (string * string))
}.

(** [Path(filename).suffix.lower()]: the name from its last dot on, when
    that dot is neither the first nor the last character of the name. *)
Definition suffix (filename : string) : string :=
  let name := Path.pure_name filename in
  let r := rev (list_ascii_of_string name) in
  let ext_r := Path.take_while (fun c => negb (Ascii.eqb c "."%char)) r in
  match Path.drop_while (fun c => negb (Ascii.eqb c "."%char)) r with
  | _dot :: stem_r =>
      match stem_r, ext_r with
      | _ :: _, _ :: _ =>
          Snippet.lower (string_of_list_ascii (rev (ext_r ++ ["."%char])))
      | _, _ => ""
      end
  | [] => ""
  end%string.

Definition get_file_type (filename : string) : string :=
  let extension := suffix filename in
  if String.eqb extension ".txt" then "text"
  else if String.eqb extension ".json" then "json"
  else if String.eqb extension ".csv" then "csv"
  else if String.eqb extension ".pdf" then "pdf"
  else if String.eqb extension ".docx" then "docx"
  else "unknown".

Definition mk_result (filename content type : string) : file_info :=
  {| fi_filename := filename; fi_content := content;
     fi_type := Some type; fi_metadata := None |}.

Definition with_metadata (r : file_info) (m : list (string * string)) : file_info :=
  {| fi_filename := fi_filename r; fi_content := fi_content r;
     fi_type := fi_type r; fi_metadata := Some m |}.

(** The [if]/[elif] chain of [_process_file]: the result, [None] for the
    final [else], or the exception of a reader. *)
Definition extract (ex : extractor) (filename file_type : string)
    : result (option file_info) :=
  if String.eqb file_type "text" then
    content ← read_text ex filename;
    Ok (Some (mk_result filename content "text"))
  else if String.eqb file_type "json" then
    content ← read_json ex filename;
    Ok (Some (mk_result filename content "json"))
  else if String.eqb file_type "csv" then
    content ← read_csv ex filename;
    Ok (Some (mk_result filename content "csv"))
  else if String.eqb file_type "pdf" && pdf_available ex then
    Ok (Some (mk_result filename (extract_text_from_pdf ex filename) "pdf"))
  else if String.eqb file_type "docx" && docx_available ex then
    Ok (Some (mk_result filename (extract_text_from_docx ex filename) "docx"))
  else Ok None.

Definition _process_file (ex : extractor) (j0 : job) : job :=
  let j := start j0 in
  let filename := job_filename j in
  let file_type := job_file_type j in
  match extract ex filename file_type with
  | Raise _ => fail j "Error processing file"
  | Ok None => fail j ("Unsupported file type: " ++ file_type)
  | Ok (Some r) =>
      if String.eqb file_type "pdf" || String.eqb file_type "docx" then
        match get_document_metadata ex filename with
        | Ok metadata => complete j (with_metadata r metadata)
        | Raise _ => fail j "Error processing file"
        end
      else complete j r
  end.

Definition count_status (s : status) (jobs : list job) : nat :=
  List.length (List.filter (fun j => bool_decide (job_status j = s)) jobs).

Record progress_t : Type := {
  total : Z;
  completed : Z;
  failed : Z;
  processing : Z;
  pending : Z;
  progress : Q
}.

Definition get_progress (jobs : list job) : progress_t :=
  let total := Z.of_nat (List.length jobs) in
  let completed := Z.of_nat (count_status Completed jobs) in
  let failed := Z.of_nat (count_status Failed jobs) in
  {| total := total;
     completed := completed;
     failed := failed;
     processing := Z.of_nat (count_status Processing jobs);
     pending := Z.of_nat (count_status Pending jobs);
     progress := if total >? 0
                 then (inject_Z (completed + failed) / inject_Z total)%Q
                 else 1%Q |}.

Definition terminal (j : job) : Prop :=
  job_status j = Completed \/ job_status j = Failed.

Section Callback.
(** The state the callback works on. *)
Context {S : Type}.

(** A callback returns the new state and the exception it raised, if
    any. *)
Definition callback_t : Type := job -> S -> S * option exn.

Record loop_state : Type := {
  ls_jobs : list job;
  ls_results : list file_info;
  ls_calls : list job;
  ls_client : S
}.

(** The body of [for future in as_completed(...)] for the job at
    position [i]. *)
Definition handle_completed (callback : option callback_t)
    (st : loop_state) (i : nat) : loop_state * option exn :=
  match ls_jobs st !! i with
  | None => (st, None)
  | Some processed_job =>
      let results :=
        match job_status processed_job, job_result processed_job with
        | Completed, Some r => ls_results st ++ [r]
        | _, _ => ls_results st
        end in
      match callback with
      | None =>
          ({| ls_jobs := ls_jobs st; ls_results := results;
              ls_calls := ls_calls st; ls_client := ls_client st |}, None)
      | Some cb =>
          let '(s1, r1) := cb (to_dict processed_job) (ls_client st) in
          let calls1 := ls_calls st ++ [to_dict processed_job] in
          match r1 with
          | None =>
              ({| ls_jobs := ls_jobs st; ls_results := results;
                  ls_calls := calls1; ls_client := s1 |}, None)
          | Some _ =>
              let job' := fail processed_job "callback error" in
              let '(s2, r2) := cb (to_dict job') s1 in
              ({| ls_jobs := <[i := job']> (ls_jobs st);
                  ls_results := results;
                  ls_calls := calls1 ++ [to_dict job'];
                  ls_client := s2 |}, r2)
          end
      end
  end.

Fixpoint collect (callback : option callback_t) (order : list nat)
    (st : loop_state) : loop_state * option exn :=
  match order with
  | [] => (st, None)
  | i :: rest =>
      match handle_completed callback st i with
      | (st', None) => collect callback rest st'
      | (st', Some e) => (st', Some e)
      end
  end.

Definition initial_jobs (listing : list string) : list job :=
  (fun filename => new_job filename (get_file_type filename)) <$> listing.

(** [listing]: the regular files of the directory, in [os.listdir] order;
    [order]: the positions of the jobs in the order in which
    [as_completed] yields them.  Every job is run by a worker, whether or
    not the loop later stops on an exception. *)
Definition process_directory (ex : extractor) (listing : list string)
    (callback : option callback_t) (order : list nat) (s : S)
    : loop_state * option exn :=
  collect callback order
    {| ls_jobs := _process_file ex <$> initial_jobs listing;
       ls_results := []; ls_calls := []; ls_client := s |}.

End Callback.

Arguments loop_state : clear implicits.
Arguments callback_t : clear implicits.

End Batch.

(** ** [FileIndexBuilder] ([file_index.py]) *)

Module Builder.
Import FileIndex Batch.

(** What a run of [index_directory] meets outside the index.  The disk is
    the same throughout a run: that staging a file by copying it onto the
    link of an earlier file with the same base name overwrites that
    earlier file is left out. *)
Record env : Type := {
  walk : string -> list string;          (* files found by [os.walk] *)
  disk : FS.t;
  staging_error : option exn;            (* creating, clearing or listing
                                            [data/temp_index] raises *)
  stage_ok : string -> bool;             (* linking or copying succeeds *)
  listdir : list string -> list string;  (* [os.listdir] on these names *)
  isfile : string -> bool;               (* the staged entry is a regular file *)
  handlers : extractor;
  completion_order : list string -> list nat;
  clock : Z
}.

Record summary : Type := {
  sum_directory : string;
  total_files : Z;
  indexed : Z;
  errors : Z;
  skipped : Z
}.

Section WithEnvironment.
Variable md5 : string -> string.
Variable abspath : string -> string.

(** The loop building [files_to_index]. *)
Fixpoint select_files (fs : FS.t) (force_update : bool) (idx : index_t)
    (file_paths : list string) : result (list string) :=
  match file_paths with
  | [] => Ok []
  | file_path :: rest =>
      match (if force_update then Ok true
             else file_needs_update md5 abspath fs file_path idx) with
      | Raise e => Raise e
      | Ok b =>
          match select_files fs force_update idx rest with
          | Raise e => Raise e
          | Ok sel => Ok (if b : bool then file_path :: sel else sel)
          end
      end
  end.

(** The file the callback commits for a job: the first path to index with
    that base name. *)
Definition first_match (files_to_index : list string) (orig_filename : string)
    : option string :=
  List.find (fun file_path => String.eqb (Path.basename file_path) orig_filename)
    files_to_index.

(** The nested function [update_index]. *)
Definition update_index (E : env) (files_to_index : list string)
    : callback_t index_t :=
  fun job_info idx =>
    match job_status job_info, job_result job_info with
    | Completed, Some r =>
        match first_match files_to_index (job_filename job_info) with
        | Some file_path => add_file md5 abspath (disk E) (clock E) file_path r idx
        | None => (idx, None)
        end
    | _, _ => (idx, None)
    end.

(** The names in the emptied staging directory once the files are linked
    or copied in, as [process_directory] lists them. *)
Definition staged_listing (E : env) (files_to_index : list string) : list string :=
  List.filter (isfile E)
    (listdir E (remove_dups (Path.basename <$> List.filter (stage_ok E) files_to_index))).

Definition stage_errors (E : env) (files_to_index : list string) : Z :=
  Z.of_nat (List.length (List.filter (fun p => negb (stage_ok E p)) files_to_index)).

(** The state is the index and [self.processor.jobs].  [os.makedirs],
    [os.listdir] and [os.remove] on the staging directory, and the
    [os.listdir] with which [process_directory] starts, are outside every
    [try]: what they raise ends the run before any job is created and
    leaves the index and the jobs as they were. *)
Definition index_directory (E : env) (directory : string) (force_update : bool)
    (st : index_t * list job) : (index_t * list job) * result summary :=
  let '(idx, jobs) := st in
  let file_paths := walk E directory in
  match select_files (disk E) force_update idx file_paths with
  | Raise e => (st, Raise e)
  | Ok files_to_index =>
      let skipped_count :=
        Z.of_nat (List.length file_paths) - Z.of_nat (List.length files_to_index) in
      match files_to_index with
      | [] =>
          (st, Ok {| sum_directory := directory;
                     total_files := Z.of_nat (List.length file_paths);
                     indexed := 0; errors := 0; skipped := skipped_count |})
      | _ =>
          match staging_error E with
          | Some e => (st, Raise e)
          | None =>
              let listing := staged_listing E files_to_index in
              match process_directory (handlers E) listing
                      (Some (update_index E files_to_index))
                      (completion_order E listing) idx with
              | (ls, Some e) => ((ls_client ls, ls_jobs ls), Raise e)
              | (ls, None) =>
                  ((ls_client ls, ls_jobs ls),
                   Ok {| sum_directory := directory;
                         total_files := Z.of_nat (List.length file_paths);
                         indexed := Z.of_nat (count_status Completed (ls_jobs ls));
                         errors := stage_errors E files_to_index
                                   + Z.of_nat (count_status Failed (ls_jobs ls));
                         skipped := skipped_count |})
              end
          end
      end
  end.

(** The number of walked files that need an update. *)
Definition needs_update_count (E : env) (directory : string) (force_update : bool)
    (idx : index_t) : Z :=
  Z.of_nat (List.length
              (List.filter
                 (fun p => force_update
                           || match file_needs_update md5 abspath (disk E) p idx with
                              | Ok b => b
                              | Raise _ => false
                              end)
                 (walk E directory))).

End WithEnvironment.




(** [os.listdir] returns the names in the directory, in some order. *)
Definition lists_all (E : env) : Prop :=
  forall names, listdir E names ≡ₚ names.

End Builder.

(** ** A batch used in the examples *)

Module BatchExamples.
Import FileIndex Batch.

(** Every reader succeeds; no PDF or DOCX library. *)
Definition ex_plain : extractor :=
  {| read_text := fun f => Ok ("text of " ++ f)%string;
     read_json := fun f => Ok "{}"%string;
     read_csv := fun f => Ok ""%string;
     pdf_available := false;
     docx_available := false;
     extract_text_from_pdf := fun f => ""%string;
     extract_text_from_docx := fun f => ""%string;
     get_document_metadata := fun f => Ok [] |}.

(** A callback that raises when handed a completed job. *)
Definition cb_raise_on_completed : callback_t unit :=
  fun job_info s =>
    (s, if decide (job_status job_info = Completed) then Some CallbackError else None).

Definition cb_quiet : callback_t unit := fun job_info s => (s, None).

Definition two_files : list string := ["a.txt"; "b.xyz"]%string.

Definition raises {A} (r : result A) : bool :=
  match r with Raise _ => true | Ok _ => false end.

(** The Content Extractor fails on a file: the reader of a text, JSON or
    CSV file raises; the library for a PDF or DOCX file is missing or
    [get_document_metadata] raises; or the file is of no supported type. *)
Definition extraction_fails (ex : extractor) (filename : string) : bool :=
  let file_type := get_file_type filename in
  if String.eqb file_type "text" then raises (read_text ex filename)
  else if String.eqb file_type "json" then raises (read_json ex filename)
  else if String.eqb file_type "csv" then raises (read_csv ex filename)
  else if String.eqb file_type "pdf" then
    negb (pdf_available ex) || raises (get_document_metadata ex filename)
  else if String.eqb file_type "docx" then
    negb (docx_available ex) || raises (get_document_metadata ex filename)
  else true.

(** The number of submitted files on which extraction fails. *)
Definition failing_files (ex : extractor) (listing : list string) : nat :=
  List.length (List.filter (extraction_fails ex) listing).

(** The claimed outcome of a batch in which one extraction fails. *)
Definition batch_claim {S} (ex : extractor) (listing : list string)
    (callback : option (callback_t S)) (order : list nat) (s : S) : Prop :=
  failing_files ex listing = 1%nat ->
  let out := process_directory ex listing callback order s in
  count_status Failed (ls_jobs (fst out)) = 1%nat
  /\ count_status Completed (ls_jobs (fst out)) = (List.length listing - 1)%nat
  /\ (is_Some callback -> ls_calls (fst out) ≡ₚ ls_jobs (fst out)).

End BatchExamples.

(** ** Directories used in the examples *)

Module BuilderExamples.
Import FileIndex Batch Builder FileIndexExamples BatchExamples.

Definition env_of (paths : list string) (fs : FS.t) : env :=
  {| walk := fun _ => paths;
     disk := fs;
     staging_error := None;
     stage_ok := fun _ => true;
     listdir := fun names => names;
     isfile := fun _ => true;
     handlers := ex_plain;
     completion_order := fun listing => seq 0 (List.length listing);
     clock := 1 |}.



(** [/docs] after [a.txt] has been deleted. *)
Definition E_gone : env := env_of [] ∅.

Definition empty_state : index_t * list job := (_create_empty_index 0, []).


(** The claimed effect of a rescan on the record of a deleted file. *)
Definition rescan_drops_claim (md5 abspath : string -> string) (E : env)
    (directory : string) (st : index_t * list job) (path : string) : Prop :=
  is_Some (files (fst st) !! abspath path) ->
  disk E !! abspath path = None ->
  let st' := fst (index_directory md5 abspath E directory false st) in
  files (fst st') !! abspath path = None
  /\ ~ listed (fst st') (abspath path).

End BuilderExamples.

(** ** Further vocabulary for the chunker *)

Module ChunkerSpec.

(** ["".join(chunks)] *)
Definition join_chunks (chunks : list string) : string :=
  fold_right String.append EmptyString chunks.

End ChunkerSpec.

(** ** [KeywordRetriever.__init__] ([retrieval_system.py]) *)

Module RetrieverObjects.
Import Retriever.

(** The constructor keeps the very list it is given and [add_document]
    writes the id into the [dict] it is given, so documents are objects
    here: [heap] gives the [dict] at each address, and the list holds
    addresses. *)
Record retriever_obj : Type := {
  heap : nat -> document;
  doc_refs : list nat;
  obj_index : list (string * list (Z * nat))
}.

(** [add_document] on the object at [ref]. *)
Definition add_document_ref (o : retriever_obj) (ref : nat) : retriever_obj * bool :=
  let d := heap o ref in
  let id := default (Z.of_nat (List.length (doc_refs o))) (doc_id d) in
  let d' := {| doc_id := Some id;
               doc_filename := doc_filename d;
               doc_content := doc_content d |} in
  let tokens := _tokenize (content_text (doc_content d)) in
  ({| heap := fun a => if decide (a = ref) then d' else heap o a;
      doc_refs := doc_refs o ++ [ref];
      obj_index := fold_left (index_token id) tokens (obj_index o) |}, true).

(** [for doc in documents: self.add_document(doc)]: the list iterator
    holds a position [i] and stops when [i] is past the end of the list as
    it is then.  [None]: still running when the fuel is spent. *)
Fixpoint init_loop (fuel : nat) (i : nat) (o : retriever_obj)
    : option retriever_obj :=
  match fuel with
  | O => None
  | S f =>
      match doc_refs o !! i with
      | None => Some o
      | Some ref => init_loop f (S i) (fst (add_document_ref o ref))
      end
  end.

(** [KeywordRetriever(documents)]: [self.documents = documents or []]
    is the argument itself unless it is [None] or empty. *)
Definition KeywordRetriever_init (fuel : nat) (h : nat -> document)
    (documents : option (list nat)) : option retriever_obj :=
  match documents with
  | None | Some [] => Some {| heap := h; doc_refs := []; obj_index := [] |}
  | Some refs => init_loop fuel 0 {| heap := h; doc_refs := refs; obj_index := [] |}
  end.

(** The retriever after [n] passes of the constructor's loop, as long as
    the iterator finds an element. *)
Fixpoint init_iter (n : nat) (o : retriever_obj) : retriever_obj :=
  match n with
  | O => o
  | S k =>
      let o' := init_iter k o in
      match doc_refs o' !! k with
      | Some ref => fst (add_document_ref o' ref)
      | None => o'
      end
  end.

End RetrieverObjects.

(** ** [CombinedRetriever] ([retrieval_system.py]), over keyword
    retrievers *)

Module Combined.
Import Retriever.

Section Scores.
Context {F : Type} {A : Arith F}.

(** The deduplication loop: [seen] is [seen_ids]. *)
Fixpoint unique_results (seen : gset (option Z))
    (all_results : list (document * F)) : list (document * F) :=
  match all_results with
  | [] => []
  | result :: rest =>
      let result_id := doc_id (fst result) in
      if decide (result_id ∈ seen) then unique_results seen rest
      else result :: unique_results ({[result_id]} ∪ seen) rest
  end.

Definition all_results (retrievers : list retriever) (query : string)
    (top_k : Z) : list (document * F) :=
  flat_map (fun r => Retriever.retrieve r query top_k) retrievers.

Definition retrieve (retrievers : list retriever) (query : string)
    (top_k : Z) : list (document * F) :=
  take_py top_k
    (sorted_desc snd (unique_results ∅ (all_results retrievers query top_k))).

(** The first result in [l] carrying the id of [e]. *)
Definition first_with_id (l : list (document * F)) (e : document * F)
    : option (document * F) :=
  List.find (fun x => bool_decide (doc_id (fst x) = doc_id (fst e))) l.

End Scores.

(** [add_document]: every retriever is handed the same [dict], which the
    first call has already given its id; the document after a call is the
    one that call has just stored. *)
Fixpoint add_document (retrievers : list retriever) (d : document)
    : list retriever * document * bool :=
  match retrievers with
  | [] => ([], d, true)
  | r :: rest =>
      let '(r', ok) := Retriever.add_document r d in
      let d' := default d (last (documents r')) in
      let '(rest', d'', success) := add_document rest d' in
      (r' :: rest', d'', if ok then success else false)
  end.

End Combined.

(** ** Vocabulary for further properties of the file index *)

Module FileIndexSpec.
Import FileIndex.

(** Every path with a record is listed in some directory entry. *)
Definition files_listed (idx : index_t) : Prop :=
  forall p, is_Some (files idx !! p) -> listed idx p.

(** The record [add_file] stores for a file [f] found on disk. *)
Definition record_of (md5 : string -> string) (now : Z) (abs_path : string)
    (info : file_info) (f : FS.file) : file_record :=
  {| rec_path := abs_path;
     rec_filename := Path.basename abs_path;
     rec_hash := current_hash md5 f;
     rec_last_indexed := now;
     rec_type := default "unknown"%string (fi_type info);
     rec_size := Py.len (FS.data f);
     rec_metadata := default [] (fi_metadata info) |}.

(** The file list of a directory entry, if the directory has one. *)
Definition listing (idx : index_t) (d : string) : option (list string) :=
  dir_files <$> directories idx !! d.

End FileIndexSpec.

(** ** More of [BatchProcessor] and [FileProcessor] *)

Module BatchMore.
Import FileIndex Batch.

(** [get_job_status]: the first job with the file name. *)
Definition get_job_status (filename : string) (jobs : list job) : option job :=
  to_dict <$> List.find (fun j => String.eqb (job_filename j) filename) jobs.

Definition get_all_job_status (jobs : list job) : list job :=
  to_dict <$> jobs.

(** The result a job contributes to the list [process_directory] returns. *)
Definition completed_result (j : job) : option file_info :=
  match job_status j, job_result j with
  | Completed, Some r => Some r
  | _, _ => None
  end.

(** [FileProcessor.process_file] ([file_handler.py]). *)
Definition process_file (ex : extractor) (filename : string) : result file_info :=
  let file_type := get_file_type filename in
  if String.eqb file_type "text" then
    content ← read_text ex filename;
    Ok (mk_result filename content "text")
  else if String.eqb file_type "json" then
    content ← read_json ex filename;
    Ok (mk_result filename content "json")
  else if String.eqb file_type "csv" then
    content ← read_csv ex filename;
    Ok (mk_result filename content "csv")
  else if String.eqb file_type "pdf" && pdf_available ex then
    Ok (mk_result filename (extract_text_from_pdf ex filename) "pdf")
  else if String.eqb file_type "docx" && docx_available ex then
    Ok (mk_result filename (extract_text_from_docx ex filename) "docx")
  else
    Ok (mk_result filename ("Unsupported file type: " ++ file_type) "unknown").

(** [DocumentHandler.is_supported_document] ([file_handler.py]). *)
Definition is_supported_document (ex : extractor) (filename : string) : bool :=
  let extension := suffix filename in
  if String.eqb extension ".pdf" then pdf_available ex
  else if String.eqb extension ".docx" then docx_available ex
  else false.

(** A job as the collecting loop may leave it: as the worker returned it,
    or marked failed after a callback error. *)
Definition settled (j0 j : job) : Prop :=
  job_filename j = job_filename j0
  /\ job_file_type j = job_file_type j0
  /\ (j = j0 \/ job_status j = Failed).

End BatchMore.

(** ** Directories used in further examples of the index builder *)

Module BuilderMoreExamples.
Import FileIndex Batch Builder FileIndexExamples BatchExamples BuilderExamples.

(** Two files with the same base name in two sub-directories. *)
Definition fs_twins : FS.t :=
  {[ "/docs/a/x.txt"%string := file_a; "/docs/b/x.txt"%string := file_a ]}.

Definition E_twins : env :=
  env_of ["/docs/a/x.txt"; "/docs/b/x.txt"]%string fs_twins.

(** [/docs] walked with [a.txt], which has a record but is no longer on
    the disk (a dangling link). *)
Definition E_dangling : env := env_of ["/docs/a.txt"%string] ∅.

End BuilderMoreExamples.

(** ** Vocabulary for further properties of the snippets *)

Module SnippetSpec.
Import Snippet.

(** The characters of a string. *)
Definition chars (s : string) : list ascii := list_ascii_of_string s.

(** The text searched by [_find_relevant_snippet]. *)
Definition searched (content : string) : string :=
  lower (flatten_newlines content).

End SnippetSpec.

(** ** [AIAssistant.handle_large_document] ([app.py]) *)

Module LargeDocument.
Import Retriever.

Definition blank_line : string := String Py.newline (String Py.newline "").

(** [content.split("\n\n", 1)[1]], when the separator occurs. *)
Definition after_blank_line (content : string) : option string :=
  match String.index 0 blank_line content with
  | Some m => Some (substring (m + 2) (String.length content - (m + 2)) content)
  | None => None
  end.

(** The text that is chunked: what [read_specific_file] returned, without
    its heading when it has one. *)
Definition document_text (content : string) : string :=
  if Snippet.contains content "Contents of '"
  then default content (after_blank_line content)
  else content.

Record chunk_report : Type := {
  rep_filename : string;
  rep_chunks : Z;
  rep_chunk_size : Z;
  rep_overlap : Z;
  rep_total_length : Z
}.

(** The document added for chunk number [i] (from 0); the fields that the
    retriever does not read are left out. *)
Definition chunk_doc (filename : string) (i : nat) (chunk : string) : document :=
  {| doc_id := None;
     doc_filename := filename ++ "_chunk_" ++ pretty (i + 1)%nat;
     doc_content := CStr chunk |}.

Definition default_chunk_size : Z := 2000.
Definition default_overlap : Z := 400.

(** [read] is what [read_specific_file(filename)] returned. *)
Definition handle_large_document (fuel : nat) (read filename : string)
    (chunk_size overlap : Z) (r : retriever)
    : option (result (retriever * chunk_report)) :=
  let content := document_text read in
  match Chunker.chunk_document fuel content chunk_size overlap with
  | None => None
  | Some (Raise e) => Some (Raise e)
  | Some (Ok chunks) =>
      let r' :=
        fold_left
          (fun r '(i, chunk) => fst (add_document r (chunk_doc filename i chunk)))
          (Snippet.enumerate_from 0 chunks) r in
      Some (Ok (r', {| rep_filename := filename;
                       rep_chunks := Z.of_nat (List.length chunks);
                       rep_chunk_size := chunk_size;
                       rep_overlap := overlap;
                       rep_total_length := Py.len content |}))
  end.

(** What [read_specific_file] returns for a text file holding "alpha". *)
Definition sample_read : string :=
  ("Contents of 'a.txt':" ++ blank_line ++ "alpha")%string.

End LargeDocument.

(** ** [FileIndexBuilder.update_index] ([file_index.py]) *)

Module BuilderAll.
Import FileIndex Batch Builder.

Record totals : Type := {
  all_directories : Z;
  all_total_files : Z;
  all_indexed : Z;
  all_errors : Z;
  all_skipped : Z;
  details : list summary
}.

(** [sum(r[field] for r in results)] *)
Definition sum_of (field : summary -> Z) (results : list summary) : Z :=
  fold_right Z.add 0 (field <$> results).

Section WithEnvironment.
Variable md5 : string -> string.
Variable abspath : string -> string.

(** The loop over the directories; an exception of [index_directory]
    ends it. *)
Fixpoint index_directories (E : env) (directories : list string)
    (force_update : bool) (st : index_t * list job)
    : (index_t * list job) * result (list summary) :=
  match directories with
  | [] => (st, Ok [])
  | directory :: rest =>
      match index_directory md5 abspath E directory force_update st with
      | (st1, Raise e) => (st1, Raise e)
      | (st1, Ok sm) =>
          match index_directories E rest force_update st1 with
          | (st2, Raise e) => (st2, Raise e)
          | (st2, Ok results) => (st2, Ok (sm :: results))
          end
      end
  end.

Definition update_index (E : env) (directories : list string)
    (force_update : bool) (st : index_t * list job)
    : (index_t * list job) * result totals :=
  match index_directories E directories force_update st with
  | (st', Raise e) => (st', Raise e)
  | (st', Ok results) =>
      (st', Ok {| all_directories := Z.of_nat (List.length directories);
                  all_total_files := sum_of total_files results;
                  all_indexed := sum_of indexed results;
                  all_errors := sum_of errors results;
                  all_skipped := sum_of skipped results;
                  details := results |})
  end.

End WithEnvironment.

End BuilderAll.

(** ** [FileIndex.get_index_summary] ([file_index.py]) *)

Module FileIndexSummary.
Import FileIndex.

(** [get_all_files]: the records, in the order of the map (the order of
    the Python [dict] is not kept by the model; nothing below depends on
    it). *)
Definition get_all_files (idx : index_t) : list file_record :=
  snd <$> map_to_list (files idx).

Definition get_files_by_type (file_type : string) (idx : index_t)
    : list file_record :=
  List.filter (fun file_info => String.eqb (rec_type file_info) file_type)
    (get_all_files idx).

(** The loop counting the files of each type. *)
Definition count_types (records : list file_record) : gmap string nat :=
  fold_left
    (fun file_types file_info =>
       let file_type := rec_type file_info in
       let file_types1 :=
         match file_types !! file_type with
         | None => <[file_type := 0%nat]> file_types
         | Some _ => file_types
         end in
       <[file_type := S (default 0%nat (file_types1 !! file_type))]> file_types1)
    records ∅.

(** The formatted date is left out; [last_updated] is the time stamp. *)
Record index_summary : Type := {
  is_total_files : nat;
  is_file_types : gmap string nat;
  is_directories : gmap string nat;
  is_last_updated : Z
}.

Definition get_index_summary (idx : index_t) : index_summary :=
  {| is_total_files := List.length (get_all_files idx);
     is_file_types := count_types (get_all_files idx);
     is_directories := (fun dir_info => List.length (dir_files dir_info))
                         <$> directories idx;
     is_last_updated := last_updated idx |}.

End FileIndexSummary.

(** * Theorems *)

Lemma bind_Ok {A B} (a : A) (k : A -> result B) : (Ok a ≫= k) = k a.
Proof. reflexivity. Qed.

Lemma bind_Raise {A B} (e : exn) (k : A -> result B) : (Raise e ≫= k) = Raise e.
Proof. reflexivity. Qed.

Module ChunkerFacts.
Import Chunker.

Lemma get_in_range (text : string) (n : nat) :
  (n < String.length text)%nat -> exists c, String.get n text = Some c.
Proof.
  revert n. induction text as [|a t IH]; intros n Hn; cbn in *; [lia |].
  destruct n as [|n]; [eauto |]. apply IH. lia.
Qed.

Lemma index_in_range (text : string) (i : Z) :
  0 <= i < Py.len text -> exists c, Py.index text i = Ok c.
Proof.
  intros [Hlo Hhi]. unfold Py.index.
  assert (Hlen : 0 <= Py.len text) by (unfold Py.len; lia).
  replace ((i <? - Py.len text) || (Py.len text <=? i))%bool with false
    by (symmetry; apply orb_false_iff; split;
        [apply Z.ltb_ge | apply Z.leb_gt]; lia).
  replace (i <? 0) with false by (symmetry; apply Z.ltb_ge; lia).
  destruct (get_in_range text (Z.to_nat i)) as [c Hc].
  { unfold Py.len in Hhi. lia. }
  rewrite Hc. eauto.
Qed.

(** Inside the text the scan for a break point never raises, and a break
    point it reports lies within the scanned range. *)
Lemma find_break_bounds (text : string) (steps : nat) (i : Z) :
  0 <= i - Z.of_nat steps + 1 ->
  i < Py.len text ->
  exists b, find_break text i steps = Ok b /\
            match b with
            | Some e => i - Z.of_nat steps + 1 < e <= i + 1
            | None => True
            end.
Proof.
  revert i. induction steps as [|k IH]; intros i Hlo Hhi.
  - exists None. split; [reflexivity | exact I].
  - cbn [find_break].
    destruct (index_in_range text i) as [c Hc]; [lia |].
    rewrite Hc, bind_Ok.
    destruct (existsb (Ascii.eqb c) break_chars).
    + exists (Some (i + 1)). split; [reflexivity | lia].
    + destruct (IH (i - 1)) as [b [Hb Hr]]; [lia | lia |].
      exists b. split; [exact Hb |].
      destruct b; [lia | exact I].
Qed.

(** With the default parameters one pass through the loop body keeps
    [start] below [len(text)]: the new [start] is [end - 200] with
    [end <= len(text)]. *)
Lemma chunk_body_default (text : string) (start : Z) (chunks : list string) :
  -200 <= start < Py.len text ->
  exists start',
    chunk_body text default_chunk_size default_overlap start chunks
    = Ok (start', chunks ++ [Py.slice text start (start' + 200)])
    /\ -200 <= start' < Py.len text.
Proof.
  intros [Hlo Hhi]. unfold chunk_body, default_chunk_size, default_overlap.
  assert (Hlen : 0 <= Py.len text) by (unfold Py.len; lia).
  remember (Z.min (start + 1000) (Py.len text)) as end0 eqn:Hend.
  destruct (end0 <? Py.len text) eqn:Hlt.
  - apply Z.ltb_lt in Hlt.
    destruct (find_break_bounds text
                (Z.to_nat (end0 - Z.max (end0 - 100) start)) end0)
      as [b [Hb Hr]]; [lia | lia |].
    rewrite Hb, !bind_Ok.
    destruct b as [e|].
    + exists (e - 200). rewrite Z.sub_add. split; [reflexivity | lia].
    + exists (end0 - 200). rewrite Z.sub_add. split; [reflexivity | lia].
  - apply Z.ltb_ge in Hlt. rewrite bind_Ok.
    exists (end0 - 200). rewrite Z.sub_add. split; [reflexivity | lia].
Qed.

Lemma chunk_loop_default_runs (text : string) (fuel : nat) :
  forall start chunks,
    -200 <= start < Py.len text ->
    chunk_loop fuel text default_chunk_size default_overlap start chunks = None.
Proof.
  induction fuel as [|f IH]; intros start chunks Hs; [reflexivity |].
  cbn [chunk_loop].
  replace (start <? Py.len text) with true by (symmetry; apply Z.ltb_lt; lia).
  destruct (chunk_body_default text start chunks Hs) as [start' [Hb Hs']].
  rewrite Hb. apply IH. exact Hs'.
Qed.

Lemma nonempty_len (text : string) : text <> EmptyString -> 0 < Py.len text.
Proof.
  destruct text; [congruence |]. intros _. unfold Py.len. cbn. lia.
Qed.

(** C9 (code evaluated against the claim).  For every non-empty text the
    [while] loop of [chunk_document], run with the default parameters
    [chunk_size = 1000] and [overlap = 200], is still running after any
    number of passes: it neither returns a list of chunks nor raises.
    The claim says that it terminates with a finite list of chunks. *)
Theorem chunk_document_default_never_returns (text : string) (fuel : nat) :
  text <> EmptyString ->
  chunk_document fuel text default_chunk_size default_overlap = None.
Proof.
  intros Hne. unfold chunk_document.
  apply chunk_loop_default_runs.
  pose proof (nonempty_len text Hne). lia.
Qed.

Lemma chunk_document_default_never_returns_witness :
  chunk_document 50 "a" default_chunk_size default_overlap = None.
Proof.
  apply chunk_document_default_never_returns. discriminate.
Defined.

(** After [n] passes the loop has appended [n] chunks and still satisfies
    its entry condition. *)
Lemma chunk_iter_default_grows (text : string) (n : nat) :
  text <> EmptyString ->
  exists start chunks,
    chunk_iter n text default_chunk_size default_overlap = Ok (start, chunks)
    /\ -200 <= start < Py.len text
    /\ List.length chunks = n.
Proof.
  intros Hne. pose proof (nonempty_len text Hne) as Hlen.
  induction n as [|k [start [chunks [Hk [Hs Hl]]]]].
  - exists 0, []. repeat split; lia.
  - cbn [chunk_iter]. rewrite Hk, bind_Ok. cbn [fst snd].
    destruct (chunk_body_default text start chunks Hs) as [start' [Hb Hs']].
    rewrite Hb. eexists _, _. split; [reflexivity |].
    split; [exact Hs' |]. rewrite length_app. cbn. lia.
Qed.

(** The empty text is the only input on which the loop exits. *)
Lemma chunk_document_empty (fuel : nat) (chunk_size overlap : Z) :
  chunk_document (S fuel) EmptyString chunk_size overlap = Some (Ok []).
Proof. reflexivity. Qed.

Example chunk_iter_a :
  chunk_iter 3 "a" default_chunk_size default_overlap
  = Ok (-199, ["a"; "a"; "a"]%string).
Proof. vm_compute. reflexivity. Qed.

End ChunkerFacts.

Module SnippetFacts.
Import Snippet.

Lemma index_bounds (s1 s2 : string) :
  forall n m, String.index n s1 s2 = Some m -> (n <= m <= String.length s2)%nat.
Proof.
  induction s2 as [|b s2 IH]; intros n m H.
  - destruct n; cbn in H; [destruct s1 |]; inversion H; cbn; lia.
  - destruct n as [|n]; cbn [String.index] in H.
    + destruct (String.prefix s1 (String b s2)).
      * inversion H. cbn. lia.
      * destruct (String.index 0 s1 s2) as [k|] eqn:Hk; inversion H.
        apply IH in Hk. cbn. lia.
    + destruct (String.index n s1 s2) as [k|] eqn:Hk; inversion H.
      apply IH in Hk. cbn. lia.
Qed.

Lemma find_range (s sub : string) (start : Z) :
  0 <= start ->
  find s sub start = -1 \/ start <= find s sub start <= Py.len s.
Proof.
  intros Hs. unfold find.
  destruct (String.index (Z.to_nat start) sub s) as [m|] eqn:Hm; [right | left; reflexivity].
  apply index_bounds in Hm. unfold Py.len. lia.
Qed.

(** The fuel given to [find_all] by [collect_positions] is never what stops
    the loop. *)
Lemma find_all_fuel (content term : string) :
  forall fuel pos acc,
    -1 <= pos <= Py.len content ->
    Py.len content - pos < Z.of_nat fuel ->
    find_all (S fuel) content term pos acc = find_all fuel content term pos acc.
Proof.
  induction fuel as [|f IH]; intros pos acc Hp Hf.
  - cbn [find_all]. destruct (pos =? -1) eqn:E; [reflexivity |].
    apply Z.eqb_neq in E. lia.
  - change (find_all (S (S f)) content term pos acc)
      with (if pos =? -1 then acc
            else find_all (S f) content term (find content term (pos + 1))
                   (acc ++ [(pos, Py.len term)])).
    cbn [find_all]. destruct (pos =? -1) eqn:E; [reflexivity |].
    apply Z.eqb_neq in E.
    destruct (find_range content term (pos + 1)) as [H1 | H1]; [lia | |].
    + rewrite H1. destruct f; reflexivity.
    + apply IH; lia.
Qed.

(** No hit, no snippet: the caller then shows the first 100 characters. *)
Lemma search_files_fallback (content query : string) :
  _find_relevant_snippet content (split (lower query)) default_context_size = ""%string ->
  search_files_snippet content query
  = let snippet := strip (flatten_newlines (Py.slice content 0 100)) in
    if Py.len content >? 100 then (snippet ++ "...")%string else snippet.
Proof. intros H. unfold search_files_snippet. rewrite H. reflexivity. Qed.

Lemma no_hit_no_snippet (content : string) (query_terms : list string) (cs : Z) :
  collect_positions (lower (flatten_newlines content)) query_terms = [] ->
  _find_relevant_snippet content query_terms cs = ""%string.
Proof.
  intros H. unfold _find_relevant_snippet. rewrite H.
  destruct (_ || _); reflexivity.
Qed.

Example snippet_fox_jumps :
  _find_relevant_snippet "The quick brown fox ... Fox jumps ..." ["fox"; "jumps"]%string 50
  = "The quick brown fox ... Fox jumps ..."%string.
Proof. vm_compute. reflexivity. Qed.

(** C7 (code evaluated against the claim).  On [far_fox] with the terms
    "fox" and "jumps" the scoring loop selects the window around the hit of
    "jumps", in which it counts both hits (score 2, start 0), but the text
    returned is [content[0:100]], which stops before "fox": the returned
    snippet holds one hit although a window of 54 characters holds both.
    The claim says that the returned window is the one containing the
    greatest number of occurrences and holds both terms together. *)
Theorem snippet_cuts_counted_hit :
  let term_positions :=
    sort_positions (collect_positions (lower (flatten_newlines far_fox))
                      ["fox"; "jumps"]%string) in
  let snippet := _find_relevant_snippet far_fox ["fox"; "jumps"]%string 50 in
  term_positions = [(50, 5); (101, 3)]
  /\ best_window far_fox term_positions 50 = (2, 0)
  /\ snippet = Py.slice far_fox 0 100
  /\ contains snippet "jumps" = true
  /\ contains snippet "fox" = false
  /\ contains (Py.slice far_fox 50 104) "jumps" = true
  /\ contains (Py.slice far_fox 50 104) "fox" = true.
Proof. vm_compute. repeat split; reflexivity. Qed.

End SnippetFacts.

(** ** Insertion-ordered dictionaries *)

Section AListFacts.
Context {K V : Type} `{EqDecision K}.
Implicit Types (k : K) (v : V) (d : list (K * V)).

Lemma alist_get_set_eq k v d : alist_get k (alist_set k v d) = Some v.
Proof.
  induction d as [|[k' v'] d IH]; cbn.
  - rewrite decide_True; reflexivity.
  - destruct (decide (k = k')) as [->|Hne]; cbn.
    + rewrite decide_True; reflexivity.
    + rewrite decide_False by exact Hne. exact IH.
Qed.

Lemma alist_get_set_ne k k' v d :
  k ≠ k' -> alist_get k' (alist_set k v d) = alist_get k' d.
Proof.
  intros Hne. induction d as [|[k0 v0] d IH]; cbn.
  - rewrite decide_False by congruence. reflexivity.
  - destruct (decide (k = k0)) as [->|Hne0]; cbn.
    + rewrite !decide_False by congruence. reflexivity.
    + rewrite IH. reflexivity.
Qed.

Lemma alist_get_None k d : alist_get k d = None <-> k ∉ alist_keys d.
Proof.
  induction d as [|[k' v'] d IH]; cbn.
  - split; [intros _; apply not_elem_of_nil | reflexivity].
  - rewrite not_elem_of_cons. case_decide; [|tauto].
    split; [discriminate | tauto].
Qed.

Lemma alist_get_Some_elem k v d : alist_get k d = Some v -> (k, v) ∈ d.
Proof.
  induction d as [|[k' v'] d IH]; cbn; [discriminate |].
  case_decide.
  - intros [= ->]. subst. apply list_elem_of_here.
  - intros Hg. apply list_elem_of_further, IH, Hg.
Qed.

Lemma alist_get_is_Some k d : is_Some (alist_get k d) <-> k ∈ alist_keys d.
Proof.
  destruct (alist_get k d) as [v|] eqn:E.
  - split; [intros _ | eauto].
    apply alist_get_Some_elem in E.
    apply (list_elem_of_fmap_2 fst) in E. exact E.
  - apply alist_get_None in E. split; [intros [? [=]] | tauto].
Qed.

Lemma alist_elem_get k v d :
  NoDup (alist_keys d) -> (k, v) ∈ d -> alist_get k d = Some v.
Proof.
  induction d as [|[k' v'] d IH]; cbn; intros Hnd Hin.
  - apply elem_of_nil in Hin. destruct Hin.
  - apply NoDup_cons in Hnd as [Hk Hnd].
    apply elem_of_cons in Hin as [[= -> ->] | Hin].
    + case_decide; congruence.
    + case_decide; [|auto]. subst k'. exfalso. apply Hk.
      apply (list_elem_of_fmap_2 fst) in Hin. exact Hin.
Qed.

(** Keys after [d[k] = v]. *)
Lemma alist_keys_set k v d :
  alist_keys (alist_set k v d)
  = if decide (k ∈ alist_keys d) then alist_keys d else alist_keys d ++ [k].
Proof.
  unfold alist_keys. induction d as [|[k' v'] d IH]; cbn.
  - case_decide as H0; [apply elem_of_nil in H0; destruct H0 | reflexivity].
  - destruct (decide (k = k')) as [->|Hne]; cbn.
    + rewrite decide_True by apply list_elem_of_here. reflexivity.
    + rewrite IH.
      destruct (decide (k ∈ fst <$> d)) as [Hin|Hin].
      * rewrite decide_True by (apply list_elem_of_further, Hin). reflexivity.
      * rewrite decide_False; [reflexivity |].
        rewrite elem_of_cons. tauto.
Qed.

Lemma alist_keys_set_NoDup k v d :
  NoDup (alist_keys d) -> NoDup (alist_keys (alist_set k v d)).
Proof.
  intros Hnd. rewrite alist_keys_set. case_decide as Hin; [exact Hnd |].
  apply NoDup_app. repeat split; [exact Hnd | | apply NoDup_singleton].
  intros x Hx Hx'. apply list_elem_of_singleton in Hx'. subst. tauto.
Qed.

Lemma alist_set_length_new k v d :
  k ∉ alist_keys d -> List.length (alist_set k v d) = S (List.length d).
Proof.
  induction d as [|[k' v'] d IH]; cbn; [reflexivity |].
  rewrite not_elem_of_cons. intros [Hne Hin].
  rewrite decide_False by exact Hne. cbn. rewrite IH; auto.
Qed.

Lemma alist_set_app_new k v d :
  k ∉ alist_keys d -> alist_set k v d = d ++ [(k, v)].
Proof.
  induction d as [|[k' v'] d IH]; cbn; [reflexivity |].
  rewrite not_elem_of_cons. intros [Hne Hin].
  rewrite decide_False by exact Hne. rewrite IH; auto.
Qed.

Lemma alist_set_app_last k v v' d :
  k ∉ alist_keys d -> alist_set k v (d ++ [(k, v')]) = d ++ [(k, v)].
Proof.
  induction d as [|[k0 v0] d IH]; cbn.
  - intros _. rewrite decide_True; reflexivity.
  - rewrite not_elem_of_cons. intros [Hne Hin].
    rewrite decide_False by exact Hne. rewrite IH; auto.
Qed.

Lemma alist_get_app k d1 d2 :
  alist_get k (d1 ++ d2)
  = match alist_get k d1 with Some v => Some v | None => alist_get k d2 end.
Proof.
  induction d1 as [|[k' v'] d1 IH]; cbn; [reflexivity |].
  case_decide; [reflexivity | exact IH].
Qed.

End AListFacts.

(** ** The inverted index *)

Module IndexFacts.
Import Retriever RetrieverSpec.

Lemma posting_spec_app t ds1 ds2 :
  posting_spec t (ds1 ++ ds2) = posting_spec t ds1 ++ posting_spec t ds2.
Proof. unfold posting_spec. apply flat_map_app. Qed.

Lemma posting_spec_keys t ds id :
  id ∈ alist_keys (posting_spec t ds) ->
  exists d, d ∈ ds /\ doc_id d = Some id /\ contains_token t d = true.
Proof.
  unfold alist_keys. induction ds as [|d ds IH]; cbn.
  - intros H. apply elem_of_nil in H. destruct H.
  - rewrite fmap_app, elem_of_app. intros [H | H].
    + destruct (doc_id d) as [id'|] eqn:Hid; cbn in H;
        [| apply elem_of_nil in H; destruct H].
      destruct (contains_token t d) eqn:Hc; cbn in H;
        [| apply elem_of_nil in H; destruct H].
      apply list_elem_of_singleton in H. subst id'.
      exists d. split; [apply list_elem_of_here | auto].
    + destruct (IH H) as [d' [Hin Hd']].
      exists d'. split; [apply list_elem_of_further, Hin | exact Hd'].
Qed.

Lemma posting_spec_keys_NoDup t ds :
  NoDup (doc_id <$> ds) -> NoDup (alist_keys (posting_spec t ds)).
Proof.
  unfold alist_keys. induction ds as [|d ds IH]; cbn; intros Hnd.
  - apply NoDup_nil_2.
  - apply NoDup_cons in Hnd as [Hd Hnd]. rewrite fmap_app.
    apply NoDup_app. split; [| split; [| exact (IH Hnd)]].
    + destruct (doc_id d); [destruct (contains_token t d) |]; cbn;
        auto using NoDup_nil_2, NoDup_singleton.
    + intros id H1 H2.
      destruct (posting_spec_keys t ds id H2) as [d' [Hin [Hid _]]].
      destruct (doc_id d) as [id'|] eqn:Hd'; cbn in H1;
        [| apply elem_of_nil in H1; destruct H1].
      destruct (contains_token t d); cbn in H1;
        [| apply elem_of_nil in H1; destruct H1].
      apply list_elem_of_singleton in H1. subst id'.
      apply Hd. rewrite <- Hid. apply list_elem_of_fmap_2. exact Hin.
Qed.

Lemma posting_spec_length t ds :
  Forall (fun d => is_Some (doc_id d)) ds ->
  List.length (posting_spec t ds) = document_frequency t ds.
Proof.
  unfold document_frequency, posting_spec.
  induction 1 as [|d ds [id Hid] _ IH]; cbn; [reflexivity |].
  rewrite length_app, IH, Hid.
  destruct (contains_token t d); reflexivity.
Qed.

Lemma wrap_app_None {A} (l e : list A) :
  wrap (l ++ e) = None -> l = [] /\ e = [].
Proof. destruct l, e; cbn; intros H; try discriminate; auto. Qed.

Lemma wrap_Some {A} (l p : list A) : wrap l = Some p -> p = l /\ l <> [].
Proof. destruct l; cbn; intros [=]; subst; split; congruence. Qed.

(** One pass over the tokens of a document whose id is new to the index. *)
Lemma index_token_step id base c u idx :
  (forall t, id ∉ alist_keys (base t)) ->
  (forall t, alist_get t idx = wrap (base t ++ ext id (c t))) ->
  forall t, alist_get t (index_token id idx u)
            = wrap (base t ++ ext id (c t + if decide (t = u) then 1 else 0)).
Proof.
  intros Hfresh Hidx t. unfold index_token.
  destruct (decide (t = u)) as [->|Hne].
  - rewrite alist_get_set_eq.
    pose proof (Hidx u) as Hu.
    destruct (alist_get u idx) as [p|] eqn:Hget.
    + rewrite Hget. cbn [from_option Datatypes.id]. symmetry in Hu.
      apply wrap_Some in Hu as [-> Hne].
      destruct (c u) as [|n] eqn:Hc; cbn [ext].
      * rewrite app_nil_r in *.
        pose proof (Hfresh u) as Hf. apply alist_get_None in Hf.
        rewrite Hf. cbn [from_option Datatypes.id].
        rewrite alist_set_app_new by apply Hfresh.
        destruct (base u); [congruence | reflexivity].
      * rewrite alist_get_app.
        pose proof (Hfresh u) as Hf. apply alist_get_None in Hf.
        rewrite Hf. cbn. rewrite decide_True by reflexivity. cbn.
        rewrite alist_set_app_last by apply Hfresh.
        replace (S n + 1)%nat with (S (n + 1)) by lia.
        destruct (base u); reflexivity.
    + rewrite alist_get_set_eq. cbn.
      symmetry in Hu. apply wrap_app_None in Hu as [Hb He].
      rewrite Hb. destruct (c u); [reflexivity | discriminate].
  - rewrite Nat.add_0_r.
    rewrite alist_get_set_ne by congruence.
    destruct (alist_get u idx) eqn:Hget; [apply Hidx |].
    rewrite alist_get_set_ne by congruence. apply Hidx.
Qed.

Lemma fold_index_token id base ts :
  (forall t, id ∉ alist_keys (base t)) ->
  forall c idx,
    (forall t, alist_get t idx = wrap (base t ++ ext id (c t))) ->
    forall t, alist_get t (fold_left (index_token id) ts idx)
              = wrap (base t ++ ext id (c t + count_token t ts)).
Proof.
  intros Hfresh. induction ts as [|u ts IH]; intros c idx Hidx t; cbn.
  - rewrite Nat.add_0_r. apply Hidx.
  - rewrite (IH (fun t => c t + if decide (t = u) then 1 else 0)%nat).
    + do 3 f_equal. lia.
    + apply index_token_step; assumption.
Qed.

Lemma empty_ok : index_ok empty.
Proof.
  split; cbn; [constructor | apply NoDup_nil_2 | reflexivity].
Qed.

Lemma add_document_ok r d :
  index_ok r ->
  Some (default (Z.of_nat (List.length (documents r))) (doc_id d))
    ∉ doc_id <$> documents r ->
  index_ok (fst (add_document r d)).
Proof.
  intros [Hids Hnd Hidx] Hfresh.
  set (id := default (Z.of_nat (List.length (documents r))) (doc_id d)) in *.
  split; cbn [add_document fst documents index].
  - apply Forall_app. split; [exact Hids |].
    constructor; [cbn; eauto | constructor].
  - rewrite fmap_app. apply NoDup_app. cbn. fold id.
    split; [exact Hnd | split; [| apply NoDup_singleton]].
    intros x Hx Hx'. apply list_elem_of_singleton in Hx'. subst x. tauto.
  - intros t. fold id.
    assert (Hbase : forall t', id ∉ alist_keys (posting_spec t' (documents r))).
    { intros t' Hin. apply posting_spec_keys in Hin as [d' [Hd' [Hid _]]].
      apply Hfresh. rewrite <- Hid. apply list_elem_of_fmap_2. exact Hd'. }
    rewrite (fold_index_token id (fun t => posting_spec t (documents r))
               (_tokenize (content_text (doc_content d)))
               Hbase (fun _ => 0%nat)).
    + rewrite posting_spec_app. cbn. rewrite app_nil_r.
      unfold contains_token, term_frequency, doc_tokens. cbn.
      destruct (count_token t _); reflexivity.
    + intros t'. cbn. rewrite app_nil_r. apply Hidx.
Qed.

Lemma build_snoc ds d : build (ds ++ [d]) = fst (add_document (build ds) d).
Proof. unfold build. rewrite fold_left_app. reflexivity. Qed.

(** Every retriever filled through [add_document] with pairwise distinct
    ids satisfies the index invariant. *)
Lemma build_ok ds :
  NoDup (doc_id <$> documents (build ds)) -> index_ok (build ds).
Proof.
  induction ds as [|d ds IH] using rev_ind; intros Hnd.
  - apply empty_ok.
  - rewrite build_snoc in *. cbn [add_document fst documents] in Hnd.
    rewrite fmap_app in Hnd. apply NoDup_app in Hnd as [Hnd [Hfresh _]].
    apply add_document_ok; [apply IH, Hnd |].
    intros Hin. apply (Hfresh _ Hin). cbn. apply list_elem_of_here.
Qed.

End IndexFacts.

(** ** Stable descending sort and list order *)

Module SortFacts.
Import Retriever RetrieverSpec.

Section Order.
Context {F : Type} {A : Arith F} (HA : arith_laws A).

Lemma flt_asym x y : flt x y -> ~ flt y x.
Proof. intros Hxy Hyx. exact (flt_irrefl A HA x (flt_trans A HA _ _ _ Hxy Hyx)). Qed.

Lemma same_score_refl x : same_score x x.
Proof. split; apply (flt_irrefl A HA). Qed.

Lemma same_score_sym x y : same_score x y -> same_score y x.
Proof. unfold same_score. tauto. Qed.

Lemma same_score_trans x y z : same_score x y -> same_score y z -> same_score x z.
Proof.
  intros [Hxy Hyx] [Hyz Hzy]. split; intros H.
  - destruct (flt_cotrans A HA x y z H); tauto.
  - destruct (flt_cotrans A HA z y x H); tauto.
Qed.

End Order.

(** The real numbers satisfy what is assumed of the floats. *)
Lemma real_laws : arith_laws real_arith.
Proof.
  split; cbn.
  - intros x. apply Rlt_irrefl.
  - intros x y z. apply Rlt_trans.
  - intros x y z H. destruct (Rlt_dec x y); [tauto | right; lra].
  - intros x. apply Rplus_0_l.
Qed.

Section Sort.
Context {F : Type} {A : Arith F} {X : Type} (key : X -> F).

Lemma insert_desc_perm x l : insert_desc key x l ≡ₚ x :: l.
Proof.
  induction l as [|y l IH]; cbn; [reflexivity |].
  destruct (flt_dec (key x) (key y)); [| reflexivity].
  rewrite IH. apply perm_swap.
Qed.

Lemma sorted_desc_perm l : sorted_desc key l ≡ₚ l.
Proof.
  induction l as [|x l IH]; cbn; [reflexivity |].
  rewrite insert_desc_perm, IH. reflexivity.
Qed.

(** A list in which no element is below a later one is left as it is. *)
Lemma sorted_desc_fixed l :
  StronglySorted (fun a b => ~ flt (key a) (key b)) l -> sorted_desc key l = l.
Proof.
  induction 1 as [|x l Hs IH Hx]; [reflexivity |].
  cbn [sorted_desc fold_right]. fold (sorted_desc key l). rewrite IH.
  destruct l as [|y l']; [reflexivity |]. cbn [insert_desc].
  destruct (flt_dec (key x) (key y)) as [Hlt |]; [| reflexivity].
  apply Forall_cons in Hx as [Hy _]. contradiction.
Qed.

Section Laws.
Context (HA : arith_laws A).

Lemma insert_desc_sorted x l :
  StronglySorted (fun a b => ~ flt (key a) (key b)) l ->
  StronglySorted (fun a b => ~ flt (key a) (key b)) (insert_desc key x l).
Proof.
  induction 1 as [|y l Hs IH Hy]; cbn.
  - repeat constructor.
  - destruct (flt_dec (key x) (key y)) as [Hlt | Hge].
    + constructor; [exact IH |].
      rewrite insert_desc_perm. constructor; [| exact Hy].
      apply (flt_asym HA), Hlt.
    + constructor; [constructor; assumption |].
      constructor; [exact Hge |].
      eapply Forall_impl; [exact Hy |]. cbn. intros z Hz Hxz.
      destruct (flt_cotrans A HA _ (key y) _ Hxz); tauto.
Qed.

(** In the output no element is below a later one. *)
Lemma sorted_desc_sorted l :
  StronglySorted (fun a b => ~ flt (key a) (key b)) (sorted_desc key l).
Proof.
  induction l as [|x l IH]; cbn; [constructor |].
  apply insert_desc_sorted, IH.
Qed.

Lemma insert_desc_filter v x l :
  filter (fun y => same_score (key y) v) (insert_desc key x l)
  = filter (fun y => same_score (key y) v) (x :: l).
Proof.
  induction l as [|y l IH]; cbn [insert_desc]; [reflexivity |].
  destruct (flt_dec (key x) (key y)) as [Hlt | Hge]; [| reflexivity].
  assert (Hnot : same_score (key x) v -> same_score (key y) v -> False).
  { intros Hx Hy.
    destruct (same_score_trans HA _ _ _ Hx (same_score_sym _ _ Hy)) as [H _].
    exact (H Hlt). }
  destruct (decide (same_score (key y) v)) as [Hy | Hy].
  - rewrite (filter_cons_True _ y) by exact Hy. rewrite IH.
    rewrite (filter_cons_False _ x) by (intros Hx; exact (Hnot Hx Hy)).
    rewrite (filter_cons_False _ x) by (intros Hx; exact (Hnot Hx Hy)).
    rewrite filter_cons_True by exact Hy. reflexivity.
  - rewrite (filter_cons_False _ y) by exact Hy. rewrite IH.
    destruct (decide (same_score (key x) v)) as [Hx | Hx].
    + rewrite !(filter_cons_True _ x) by exact Hx.
      rewrite filter_cons_False by exact Hy. reflexivity.
    + rewrite !(filter_cons_False _ x) by exact Hx.
      rewrite filter_cons_False by exact Hy. reflexivity.
Qed.

(** Stability: the elements of any one score keep their relative order. *)
Lemma sorted_desc_filter v l :
  filter (fun y => same_score (key y) v) (sorted_desc key l)
  = filter (fun y => same_score (key y) v) l.
Proof.
  induction l as [|x l IH]; cbn [sorted_desc fold_right]; [reflexivity |].
  fold (sorted_desc key l). rewrite insert_desc_filter.
  destruct (decide (same_score (key x) v)) as [Hx | Hx].
  - rewrite !(filter_cons_True _ x) by exact Hx. rewrite IH. reflexivity.
  - rewrite !(filter_cons_False _ x) by exact Hx. exact IH.
Qed.

End Laws.

End Sort.

Lemma before_sublist {A} (l k : list A) a b :
  l `sublist_of` k -> before l a b -> before k a b.
Proof.
  intros Hsub (l1 & l2 & l3 & ->).
  apply sublist_app_l in Hsub as (k1 & k2 & -> & _ & Hsub).
  apply sublist_cons_l in Hsub as (k21 & k22 & -> & Hsub).
  apply sublist_app_l in Hsub as (k3 & k4 & -> & _ & Hsub).
  apply sublist_cons_l in Hsub as (k41 & k42 & -> & _).
  exists (k1 ++ k21), (k3 ++ k41), k42.
  rewrite <- !app_assoc. reflexivity.
Qed.

Lemma before_filter {A} (P : A -> Prop) `{!forall x, Decision (P x)} l a b :
  P a -> P b -> before l a b -> before (filter P l) a b.
Proof.
  intros Ha Hb (l1 & l2 & l3 & ->).
  exists (filter P l1), (filter P l2), (filter P l3).
  rewrite filter_app, filter_cons_True by exact Ha.
  rewrite filter_app, filter_cons_True by exact Hb. reflexivity.
Qed.

Lemma before_fmap_inv {A B} (f : A -> B) l b1 b2 :
  before (f <$> l) b1 b2 ->
  exists a1 a2, f a1 = b1 /\ f a2 = b2 /\ before l a1 a2.
Proof.
  intros (m1 & m2 & m3 & H).
  apply fmap_app_inv in H as (l1 & la & _ & H' & ->).
  symmetry in H'. apply fmap_cons_inv in H' as (a1 & lb & -> & H' & ->).
  symmetry in H'. apply fmap_app_inv in H' as (l2 & lc & _ & H' & ->).
  symmetry in H'. apply fmap_cons_inv in H' as (a2 & l3 & -> & _ & ->).
  exists a1, a2. repeat split. exists l1, l2, l3. reflexivity.
Qed.

Lemma before_fmap {A B} (f : A -> B) l a1 a2 :
  before l a1 a2 -> before (f <$> l) (f a1) (f a2).
Proof.
  intros (l1 & l2 & l3 & ->).
  exists (f <$> l1), (f <$> l2), (f <$> l3).
  rewrite fmap_app, fmap_cons, fmap_app, fmap_cons. reflexivity.
Qed.

(** Equal scores: the order of the input decides. *)
Lemma sorted_desc_stable {F : Type} {A : Arith F} (HA : arith_laws A)
    {X : Type} (key : X -> F) l a b :
  before (sorted_desc key l) a b -> same_score (key a) (key b) -> before l a b.
Proof.
  intros Hbef Heq.
  apply (before_sublist (filter (fun y => same_score (key y) (key a)) l)).
  - apply sublist_filter.
  - rewrite <- (sorted_desc_filter key HA). apply before_filter.
    + apply (same_score_refl HA).
    + apply same_score_sym, Heq.
    + exact Hbef.
Qed.

Lemma take_py_sublist {A} k (l : list A) : take_py k l `sublist_of` l.
Proof. unfold take_py. destruct (k <? 0); apply sublist_take. Qed.

Lemma take_py_length {A} k (l : list A) :
  0 <= k -> Z.of_nat (List.length (take_py k l)) <= k.
Proof.
  intros Hk. unfold take_py.
  replace (k <? 0) with false by (symmetry; apply Z.ltb_ge; lia).
  rewrite length_take. lia.
Qed.

Lemma StronglySorted_sublist {A} (Rel : A -> A -> Prop) l k :
  l `sublist_of` k -> StronglySorted Rel k -> StronglySorted Rel l.
Proof.
  induction 1 as [| x l k Hsub IH | x l k Hsub IH]; intros Hs.
  - constructor.
  - apply StronglySorted_inv in Hs as [Hs Hx]. constructor; [auto |].
    rewrite Forall_forall in *. intros y Hy. apply Hx.
    eapply elem_of_sublist; eauto.
  - apply StronglySorted_inv in Hs as [Hs _]. auto.
Qed.

Lemma StronglySorted_weaken {A} (R1 R2 : A -> A -> Prop) l :
  (forall a b, R1 a b -> R2 a b) -> StronglySorted R1 l -> StronglySorted R2 l.
Proof.
  intros Himp. induction 1 as [|x l Hs IH Hx]; constructor; [exact IH |].
  eapply Forall_impl; [exact Hx |]. intros y. apply Himp.
Qed.

Lemma fold_add_key_NoDup (l acc : list Z) :
  NoDup (acc ++ l) -> fold_left add_key l acc = acc ++ l.
Proof.
  revert acc. induction l as [|x l IH]; intros acc Hnd; cbn.
  - rewrite app_nil_r. reflexivity.
  - unfold add_key at 2. rewrite decide_False.
    + rewrite IH; rewrite <- app_assoc; [reflexivity | exact Hnd].
    + apply NoDup_app in Hnd as (_ & Hd & _). intros Hin.
      apply (Hd x Hin). apply list_elem_of_here.
Qed.

End SortFacts.

(** ** Scores and ranking *)

Module RetrieveFacts.
Import Retriever RetrieverSpec IndexFacts SortFacts.

Section Scores.
Context {F : Type} {A : Arith F}.

Lemma score_posting_get r t scores e id :
  alist_get id (score_posting r t scores e)
  = if decide (id = fst e)
    then Some (fadd (score_of scores id) (_calculate_score r [t] id))
    else alist_get id scores.
Proof.
  destruct e as [id0 n]. unfold score_posting. cbn [fst].
  destruct (decide (id = id0)) as [->|Hne].
  - rewrite alist_get_set_eq. do 2 f_equal. unfold score_of.
    destruct (alist_get id0 scores) eqn:E; [rewrite E; reflexivity |].
    rewrite alist_get_set_eq. reflexivity.
  - rewrite alist_get_set_ne by congruence.
    destruct (alist_get id0 scores); [reflexivity |].
    rewrite alist_get_set_ne by congruence. reflexivity.
Qed.

Lemma score_posting_keys r t (scores : list (Z * F)) e :
  alist_keys (score_posting r t scores e) = add_key (alist_keys scores) (fst e).
Proof.
  destruct e as [id n]. unfold score_posting, add_key. cbn [fst].
  rewrite alist_keys_set.
  destruct (alist_get id scores) eqn:E.
  - assert (Hin : id ∈ alist_keys scores) by (apply alist_get_is_Some; eauto).
    rewrite !decide_True by exact Hin. reflexivity.
  - apply alist_get_None in E. rewrite alist_keys_set.
    rewrite (decide_False (P := id ∈ alist_keys scores)) by exact E.
    rewrite decide_True; [reflexivity |].
    apply elem_of_app. right. apply list_elem_of_here.
Qed.

Lemma fold_score_posting_get r t p :
  NoDup (alist_keys p) ->
  forall scores id,
    alist_get id (fold_left (score_posting r t) p scores)
    = if decide (id ∈ alist_keys p)
      then Some (fadd (score_of scores id) (_calculate_score r [t] id))
      else alist_get id scores.
Proof.
  unfold alist_keys.
  induction p as [|e p IH]; intros Hnd scores id; cbn.
  - rewrite decide_False by apply not_elem_of_nil. reflexivity.
  - apply NoDup_cons in Hnd as [He Hnd]. rewrite (IH Hnd).
    unfold score_of. rewrite !score_posting_get.
    destruct (decide (id = fst e)) as [->|Hne].
    + rewrite decide_False by exact He.
      rewrite decide_True by apply list_elem_of_here. reflexivity.
    + destruct (decide (id ∈ fst <$> p)) as [Hin|Hin].
      * rewrite decide_True by (apply list_elem_of_further, Hin). reflexivity.
      * rewrite decide_False; [reflexivity |].
        rewrite elem_of_cons. tauto.
Qed.

Lemma fold_score_posting_keys r t p (scores : list (Z * F)) :
  alist_keys (fold_left (score_posting r t) p scores)
  = fold_left add_key (alist_keys p) (alist_keys scores).
Proof.
  revert scores. induction p as [|e p IH]; intros scores; [reflexivity |].
  cbn [fold_left]. rewrite IH, score_posting_keys. reflexivity.
Qed.

End Scores.

Lemma NoDup_doc_id_inj (ds : list document) d d' :
  NoDup (doc_id <$> ds) -> d ∈ ds -> d' ∈ ds -> doc_id d = doc_id d' -> d = d'.
Proof.
  induction ds as [|x ds IH]; cbn; intros Hnd Hd Hd' Heq.
  - apply elem_of_nil in Hd. destruct Hd.
  - apply NoDup_cons in Hnd as [Hx Hnd].
    apply elem_of_cons in Hd as [-> | Hd];
      apply elem_of_cons in Hd' as [-> | Hd']; auto.
    + exfalso. apply Hx. rewrite Heq. apply list_elem_of_fmap_2. exact Hd'.
    + exfalso. apply Hx. rewrite <- Heq. apply list_elem_of_fmap_2. exact Hd.
Qed.

Lemma posting_spec_elem t ds d id :
  d ∈ ds -> doc_id d = Some id -> contains_token t d = true ->
  (id, term_frequency t d) ∈ posting_spec t ds.
Proof.
  intros Hd Hid Hc. unfold posting_spec.
  apply list_elem_of_In, in_flat_map. exists d.
  split; [apply list_elem_of_In, Hd |]. rewrite Hid, Hc. left. reflexivity.
Qed.

Lemma posting_get ds t d id :
  NoDup (doc_id <$> ds) -> d ∈ ds -> doc_id d = Some id ->
  alist_get id (posting_spec t ds)
  = if contains_token t d then Some (term_frequency t d) else None.
Proof.
  intros Hnd Hd Hid. destruct (contains_token t d) eqn:Hc.
  - apply alist_elem_get; [apply posting_spec_keys_NoDup, Hnd |].
    apply posting_spec_elem; assumption.
  - apply alist_get_None. intros Hin.
    apply posting_spec_keys in Hin as [d' [Hd' [Hid' Hc']]].
    assert (d' = d) by (eapply NoDup_doc_id_inj; eauto; congruence).
    congruence.
Qed.

Lemma posting_keys_iff ds t d id :
  NoDup (doc_id <$> ds) -> d ∈ ds -> doc_id d = Some id ->
  id ∈ alist_keys (posting_spec t ds) <-> contains_token t d = true.
Proof.
  intros Hnd Hd Hid. rewrite <- alist_get_is_Some.
  rewrite (posting_get ds t d id Hnd Hd Hid).
  destruct (contains_token t d); split; intros H; eauto;
    [destruct H as [? [=]] | discriminate].
Qed.

Section Scores.
Context {F : Type} {A : Arith F}.

Lemma score_token_get r (scores : list (Z * F)) t id :
  index_ok r ->
  alist_get id (score_token r scores t)
  = if decide (id ∈ alist_keys (posting_spec t (documents r)))
    then Some (fadd (score_of scores id) (_calculate_score r [t] id))
    else alist_get id scores.
Proof.
  intros Hok. unfold score_token. rewrite (ok_index r Hok).
  pose proof (posting_spec_keys_NoDup t _ (ok_nodup r Hok)) as Hnd.
  destruct (posting_spec t (documents r)) as [|e p] eqn:E; cbn [wrap].
  - rewrite decide_False by apply not_elem_of_nil. reflexivity.
  - apply fold_score_posting_get. exact Hnd.
Qed.

Lemma score_token_keys r (scores : list (Z * F)) t :
  index_ok r ->
  alist_keys (score_token r scores t)
  = fold_left add_key (alist_keys (posting_spec t (documents r)))
      (alist_keys scores).
Proof.
  intros Hok. unfold score_token. rewrite (ok_index r Hok).
  destruct (posting_spec t (documents r)) as [|e p] eqn:E; cbn [wrap].
  - reflexivity.
  - apply fold_score_posting_keys.
Qed.

(** What [_calculate_score] adds for one query token. *)
Lemma calculate_score_single r t d id :
  index_ok r -> d ∈ documents r -> doc_id d = Some id ->
  _calculate_score r [t] id
  = if contains_token t d
    then fadd (float_of_nat 0) (tfidf (documents r) t d)
    else float_of_nat 0.
Proof.
  intros Hok Hd Hid. unfold _calculate_score. cbn [fold_left].
  rewrite (ok_index r Hok).
  pose proof (posting_get _ t d id (ok_nodup r Hok) Hd Hid) as Hget.
  pose proof (posting_spec_length t _ (ok_ids r Hok)) as Hlen.
  destruct (posting_spec t (documents r)) as [|e p] eqn:E; cbn [wrap].
  - cbn in Hget. destruct (contains_token t d); [discriminate | reflexivity].
  - rewrite Hget, Hlen.
    destruct (contains_token t d); reflexivity.
Qed.

(** The score of a document after the scan of the query tokens: each
    matching token adds its tf-idf, in the order of the tokens. *)
Lemma fold_score_token_score (HA : arith_laws A) r ts d id :
  index_ok r -> d ∈ documents r -> doc_id d = Some id ->
  forall scores,
    score_of (fold_left (score_token r) ts scores) id
    = fold_left
        (fun acc t =>
           if contains_token t d then fadd acc (tfidf (documents r) t d) else acc)
        ts (score_of scores id).
Proof.
  intros Hok Hd Hid.
  induction ts as [|t ts IH]; intros scores; cbn [fold_left]; [reflexivity |].
  rewrite IH. f_equal.
  unfold score_of at 1. rewrite (score_token_get _ _ _ _ Hok).
  pose proof (posting_keys_iff _ t d id (ok_nodup r Hok) Hd Hid) as Hiff.
  destruct (decide (id ∈ alist_keys (posting_spec t (documents r)))) as [Hin|Hin].
  - cbn [from_option Datatypes.id].
    rewrite (calculate_score_single r t d id Hok Hd Hid).
    apply Hiff in Hin. rewrite Hin, (fadd_0_l A HA). reflexivity.
  - destruct (contains_token t d); [tauto | reflexivity].
Qed.

Lemma fold_score_token_keys r ts :
  index_ok r ->
  forall scores : list (Z * F),
    alist_keys (fold_left (score_token r) ts scores)
    = fold_left add_key
        (flat_map (fun t => alist_keys (posting_spec t (documents r))) ts)
        (alist_keys scores).
Proof.
  intros Hok. induction ts as [|t ts IH]; intros scores; [reflexivity |].
  cbn [fold_left flat_map].
  rewrite IH, fold_left_app, (score_token_keys _ _ _ Hok). reflexivity.
Qed.

Lemma compute_scores_keys r ts :
  index_ok r -> alist_keys (compute_scores r ts) = scan_order (documents r) ts.
Proof. intros Hok. apply (fold_score_token_keys r ts Hok []). Qed.

End Scores.

Lemma fold_add_key_elem l : forall acc x,
  x ∈ fold_left add_key l acc <-> x ∈ acc \/ x ∈ l.
Proof.
  induction l as [|y l IH]; intros acc x; cbn.
  - rewrite elem_of_nil. tauto.
  - rewrite IH, elem_of_cons. unfold add_key.
    destruct (decide (y ∈ acc)) as [Hy|Hy].
    + split; [tauto |]. intros [H | [-> | H]]; auto.
    + rewrite elem_of_app, list_elem_of_singleton. tauto.
Qed.

(** Every id the scan reaches belongs to a stored document containing one
    of the query tokens. *)
Lemma scan_order_elem ds ts id :
  id ∈ scan_order ds ts ->
  exists d t, d ∈ ds /\ doc_id d = Some id /\ t ∈ ts /\ contains_token t d = true.
Proof.
  unfold scan_order. rewrite fold_add_key_elem, elem_of_nil.
  intros [[] | Hin].
  apply list_elem_of_In, in_flat_map in Hin as [t [Ht Hin]].
  apply list_elem_of_In, posting_spec_keys in Hin as [d [Hd [Hid Hc]]].
  exists d, t. repeat split; auto. apply list_elem_of_In, Ht.
Qed.

Lemma id_to_doc_unique r d id :
  NoDup (doc_id <$> documents r) -> d ∈ documents r -> doc_id d = Some id ->
  id_to_doc r id = Some d.
Proof.
  intros Hnd Hd Hid. unfold id_to_doc.
  destruct (List.find _ _) as [x|] eqn:E.
  - apply find_some in E as [Hin Hb].
    apply bool_decide_eq_true in Hb.
    apply in_rev, list_elem_of_In in Hin.
    f_equal. eapply NoDup_doc_id_inj; eauto. congruence.
  - exfalso. eapply find_none in E.
    + apply bool_decide_eq_false in E. apply E, Hid.
    + apply in_rev. rewrite rev_involutive. apply list_elem_of_In, Hd.
Qed.

Lemma contains_token_elem t d : contains_token t d = true -> t ∈ doc_tokens d.
Proof.
  unfold contains_token, term_frequency.
  induction (doc_tokens d) as [|u ts IH]; cbn; [discriminate |].
  destruct (decide (t = u)) as [->|Hne]; [intros _; apply list_elem_of_here |].
  intros H. apply list_elem_of_further, IH, H.
Qed.

Section Scores.
Context {F : Type} {A : Arith F}.

Lemma result_ids_sublist r query top_k :
  index_ok r ->
  exists l, l ≡ₚ scan_order (documents r) (_tokenize query)
            /\ result_ids r query top_k `sublist_of` l
            /\ l = sorted_desc (score_of (compute_scores r (_tokenize query)))
                     (scan_order (documents r) (_tokenize query)).
Proof.
  intros Hok. eexists. split; [| split; [| reflexivity]].
  - apply sorted_desc_perm.
  - unfold result_ids. rewrite (compute_scores_keys _ _ Hok).
    apply take_py_sublist.
Qed.

(** With distinct ids every ranked id finds its document, so the result
    list is the image of the ranked ids. *)
Lemma retrieve_fmap r query top_k :
  index_ok r ->
  retrieve r query top_k
  = result_entry r (compute_scores r (_tokenize query))
      <$> result_ids r query top_k.
Proof.
  intros Hok. unfold retrieve.
  destruct (result_ids_sublist r query top_k Hok) as [l [Hperm [Hsub _]]].
  assert (Hall : forall id, id ∈ result_ids r query top_k ->
                            is_Some (id_to_doc r id)).
  { intros id Hin.
    assert (Hs : id ∈ scan_order (documents r) (_tokenize query)).
    { rewrite <- Hperm. eapply elem_of_sublist; eauto. }
    apply scan_order_elem in Hs as (d & t & Hd & Hid & _).
    rewrite (id_to_doc_unique r d id (ok_nodup r Hok) Hd Hid). eauto. }
  revert Hall. generalize (result_ids r query top_k).
  induction l0 as [|id ids IH]; intros Hall; cbn; [reflexivity |].
  destruct (Hall id) as [d Hd]; [apply list_elem_of_here |].
  unfold result_entry at 1. rewrite Hd. cbn. f_equal.
  apply IH. intros id' Hin. apply Hall, list_elem_of_further, Hin.
Qed.

End Scores.

End RetrieveFacts.

Module RankingFacts.
Import Retriever RetrieverSpec IndexFacts SortFacts RetrieveFacts.

Lemma before_elem {A} (l : list A) a b : before l a b -> a ∈ l /\ b ∈ l.
Proof.
  intros (l1 & l2 & l3 & ->). split.
  - apply elem_of_app. right. apply list_elem_of_here.
  - apply elem_of_app. right. apply list_elem_of_further.
    apply elem_of_app. right. apply list_elem_of_here.
Qed.

Lemma before_cons {A} (l : list A) x a b : before l a b -> before (x :: l) a b.
Proof. intros (l1 & l2 & l3 & ->). exists (x :: l1), l2, l3. reflexivity. Qed.

Lemma before_head {A} (l : list A) a b : b ∈ l -> before (a :: l) a b.
Proof.
  intros Hb. apply list_elem_of_split in Hb as (l2 & l3 & ->).
  exists [], l2, l3. reflexivity.
Qed.

(** Posting lists follow the insertion order of the documents. *)
Lemma posting_before t ds ia ib :
  before (alist_keys (posting_spec t ds)) ia ib ->
  exists da db, doc_id da = Some ia /\ doc_id db = Some ib /\ before ds da db.
Proof.
  unfold alist_keys, posting_spec.
  induction ds as [|d ds IH]; cbn [flat_map]; intros Hbef.
  - destruct Hbef as (l1 & l2 & l3 & H). destruct l1; discriminate.
  - rewrite fmap_app in Hbef.
    destruct (doc_id d) as [id|] eqn:Hid;
      [destruct (contains_token t d) eqn:Hc |]; cbn in Hbef.
    + destruct Hbef as (l1 & l2 & l3 & H). destruct l1 as [|z l1].
      * cbn in H. injection H as -> H.
        assert (Hb : ib ∈ alist_keys (posting_spec t ds)).
        { unfold alist_keys, posting_spec. rewrite H.
          apply elem_of_app. right. apply list_elem_of_here. }
        apply posting_spec_keys in Hb as (db & Hdb & Hidb & _).
        exists d, db. repeat split; auto. apply before_head, Hdb.
      * cbn in H. injection H as _ H.
        destruct IH as (da & db & Ha & Hb & Hbef);
          [exists l1, l2, l3; exact H |].
        exists da, db. repeat split; auto. apply before_cons, Hbef.
    + destruct (IH Hbef) as (da & db & Ha & Hb & Hbef').
      exists da, db. repeat split; auto. apply before_cons, Hbef'.
    + destruct (IH Hbef) as (da & db & Ha & Hb & Hbef').
      exists da, db. repeat split; auto. apply before_cons, Hbef'.
Qed.

Lemma scan_order_single ds t :
  NoDup (doc_id <$> ds) ->
  scan_order ds [t] = alist_keys (posting_spec t ds).
Proof.
  intros Hnd. unfold scan_order. cbn [flat_map]. rewrite app_nil_r.
  apply (fold_add_key_NoDup _ []). cbn.
  apply posting_spec_keys_NoDup, Hnd.
Qed.

Section Scores.
Context {F : Type} {A : Arith F} (HA : arith_laws A).

(** The entry built for an id reached by the scan. *)
Lemma result_entry_spec r qts id :
  index_ok r -> id ∈ scan_order (documents r) qts ->
  exists d, d ∈ documents r /\ doc_id d = Some id
            /\ (exists t, t ∈ qts /\ t ∈ doc_tokens d)
            /\ result_entry r (compute_scores r qts) id
               = (d, tfidf_sum (documents r) qts d).
Proof.
  intros Hok Hin.
  apply scan_order_elem in Hin as (d & t & Hd & Hid & Ht & Hc).
  exists d. repeat split; auto.
  - exists t. split; [exact Ht | apply contains_token_elem, Hc].
  - unfold result_entry.
    rewrite (id_to_doc_unique r d id (ok_nodup r Hok) Hd Hid).
    cbn [from_option Datatypes.id]. f_equal.
    unfold compute_scores.
    rewrite (fold_score_token_score HA r qts d id Hok Hd Hid).
    reflexivity.
Qed.

(** The ranking delivered by [retrieve] on a well-formed index. *)
Lemma retrieve_properties r query top_k :
  index_ok r -> 0 <= top_k -> retrieve_spec r query top_k.
Proof.
  intros Hok Hk. unfold retrieve_spec.
  set (qts := _tokenize query). set (ds := documents r).
  rewrite (retrieve_fmap r query top_k Hok). fold qts.
  destruct (result_ids_sublist r query top_k Hok) as (l & Hperm & Hsub & Hl).
  fold qts ds in Hperm, Hl.
  set (scores := compute_scores r qts) in *.
  set (ids := result_ids r query top_k) in *.
  assert (Hscan : forall id, id ∈ ids -> id ∈ scan_order ds qts).
  { intros id Hin. rewrite <- Hperm. eapply elem_of_sublist; eauto. }
  assert (Hsnd : forall id, snd (result_entry r scores id) = score_of scores id)
    by reflexivity.
  assert (Hties : forall a b,
             before (result_entry r scores <$> ids) a b ->
             same_score (snd a) (snd b) ->
             exists ia ib, doc_id (fst a) = Some ia /\ doc_id (fst b) = Some ib
                           /\ ia ∈ scan_order ds qts /\ ib ∈ scan_order ds qts
                           /\ fst a ∈ ds /\ fst b ∈ ds
                           /\ before (scan_order ds qts) ia ib).
  { intros a b Hbef Heq.
    apply before_fmap_inv in Hbef as (ia & ib & <- & <- & Hbef).
    destruct (before_elem _ _ _ Hbef) as [Ha Hb].
    destruct (result_entry_spec r qts ia Hok (Hscan _ Ha)) as (da & Hda & Hia & _ & Hea).
    destruct (result_entry_spec r qts ib Hok (Hscan _ Hb)) as (db & Hdb & Hib & _ & Heb).
    exists ia, ib. fold scores in Hea, Heb.
    rewrite !Hsnd in Heq. rewrite Hea, Heb. cbn [fst].
    repeat split; auto.
    apply (sorted_desc_stable HA (score_of scores)); [| exact Heq].
    rewrite <- Hl. eapply before_sublist; eauto. }
  repeat split.
  - apply Forall_fmap, Forall_forall. intros id Hin. unfold compose. cbv beta.
    destruct (result_entry_spec r qts id Hok (Hscan _ Hin))
      as (d & Hd & Hid & Ht & He).
    fold scores in He. rewrite He. cbn [fst snd]. auto.
  - apply (StronglySorted_fmap _
             (fun a b => ~ flt (score_of scores a) (score_of scores b))).
    + intros x y Hxy. rewrite !Hsnd. exact Hxy.
    + apply (StronglySorted_sublist _ _ l Hsub). rewrite Hl.
      apply sorted_desc_sorted, HA.
  - intros a b Hbef Heq.
    destruct (Hties a b Hbef Heq) as (ia & ib & Ha & Hb & _ & _ & _ & _ & H).
    exists ia, ib. auto.
  - intros t Ht a b Hbef Heq.
    destruct (Hties a b Hbef Heq) as (ia & ib & Ha & Hb & _ & _ & Hda & Hdb & H).
    rewrite Ht, (scan_order_single _ _ (ok_nodup r Hok)) in H.
    apply posting_before in H as (da & db & Hia & Hib & H).
    destruct (before_elem _ _ _ H) as [Hda' Hdb'].
    assert (da = fst a)
      by (eapply NoDup_doc_id_inj; eauto using ok_nodup; congruence).
    assert (db = fst b)
      by (eapply NoDup_doc_id_inj; eauto using ok_nodup; congruence).
    subst. exact H.
  - rewrite length_fmap. apply take_py_length, Hk.
Qed.

End Scores.

End RankingFacts.

Module RetrieveExamples.
Import Retriever RetrieverSpec RetrieverExamples SortFacts RankingFacts.

Ltac eval_scores :=
  cbv -[float_of_nat fadd fmul fdiv flog flt_dec ln Rplus Rmult Rdiv Rinv INR
        Rlt_dec];
  reflexivity.

Lemma corpus3_ok : NoDup (doc_id <$> documents corpus3).
Proof. apply (bool_decide_unpack _). vm_compute. exact I. Qed.

Lemma corpus_tie_ok : NoDup (doc_id <$> documents corpus_tie).
Proof. apply (bool_decide_unpack _). vm_compute. exact I. Qed.

Section Scores.
Context {F : Type} {A : Arith F}.

Lemma sorted_desc_two_lt {X} (key : X -> F) a b :
  flt (key a) (key b) -> sorted_desc key [a; b] = [b; a].
Proof.
  intros H. cbn. destruct (flt_dec (key a) (key b)); [reflexivity | tauto].
Qed.

Lemma sorted_desc_two_ge {X} (key : X -> F) a b :
  ~ flt (key a) (key b) -> sorted_desc key [a; b] = [a; b].
Proof.
  intros H. cbn. destruct (flt_dec (key a) (key b)); [tauto | reflexivity].
Qed.

Lemma score_of_cons k (v : F) d k' :
  score_of ((k, v) :: d) k' = if decide (k' = k) then v else score_of d k'.
Proof. unfold score_of. cbn. destruct (decide (k' = k)); reflexivity. Qed.

Context (HA : arith_laws A).

(** The scores that the scan of "alpha" leaves for the three-document
    corpus. *)
Lemma scores_alpha :
  compute_scores corpus3 (_tokenize "alpha")
  = [(1, alpha_score 1); (3, alpha_score 2)].
Proof.
  transitivity
    [(1, fadd (float_of_nat 0) (fadd (float_of_nat 0) (alpha_score 1)));
     (3, fadd (float_of_nat 0) (fadd (float_of_nat 0) (alpha_score 2)))];
    [eval_scores |].
  rewrite !(fadd_0_l A HA). reflexivity.
Qed.

(** Querying "alpha" on the three-document corpus. *)
Lemma retrieve_alpha :
  flt (alpha_score 1) (alpha_score 2) ->
  retrieve corpus3 "alpha" default_top_k
  = [(doc3, alpha_score 2); (doc1, alpha_score 1)].
Proof.
  intros Hlt.
  assert (H1 : id_to_doc corpus3 1 = Some doc1) by (vm_compute; reflexivity).
  assert (H3 : id_to_doc corpus3 3 = Some doc3) by (vm_compute; reflexivity).
  unfold retrieve, result_ids. rewrite scores_alpha.
  change (alist_keys _) with [1; 3].
  rewrite sorted_desc_two_lt by exact Hlt.
  change (take_py default_top_k [3; 1]) with [3; 1].
  cbn [flat_map app]. rewrite H1, H3. reflexivity.
Qed.

(** [retrieve] accepts a negative [top_k] and then drops results from the
    end of the ranking. *)
Lemma retrieve_alpha_negative :
  flt (alpha_score 1) (alpha_score 2) ->
  retrieve corpus3 "alpha" (-1) = [(doc3, alpha_score 2)].
Proof.
  intros Hlt.
  assert (H3 : id_to_doc corpus3 3 = Some doc3) by (vm_compute; reflexivity).
  unfold retrieve, result_ids. rewrite scores_alpha.
  change (alist_keys _) with [1; 3].
  rewrite sorted_desc_two_lt by exact Hlt.
  change (take_py (-1) [3; 1]) with [3].
  cbn [flat_map app]. rewrite H3. reflexivity.
Qed.

Lemma scores_tie :
  compute_scores corpus_tie (_tokenize "alpha beta")
  = [(2, tie_score); (1, tie_score)].
Proof.
  transitivity
    [(2, fadd (float_of_nat 0) (fadd (float_of_nat 0) tie_score));
     (1, fadd (float_of_nat 0) (fadd (float_of_nat 0) tie_score))];
    [eval_scores |].
  rewrite !(fadd_0_l A HA). reflexivity.
Qed.

(** Both documents of [corpus_tie] get the same score for "alpha beta", and
    the one stored second is returned first. *)
Lemma retrieve_tie :
  retrieve corpus_tie "alpha beta" default_top_k
  = [(docA, tie_score); (docB, tie_score)].
Proof.
  assert (H1 : id_to_doc corpus_tie 1 = Some docB) by (vm_compute; reflexivity).
  assert (H2 : id_to_doc corpus_tie 2 = Some docA) by (vm_compute; reflexivity).
  unfold retrieve, result_ids. rewrite scores_tie.
  change (alist_keys _) with [2; 1].
  rewrite sorted_desc_two_ge by apply (flt_irrefl A HA).
  change (take_py default_top_k [2; 1]) with [2; 1].
  cbn [flat_map app]. rewrite H1, H2. reflexivity.
Qed.

(** A document stored without an id is given [len(self.documents)], which
    can be the id of an earlier document: the later one then answers for
    both. *)
Lemma retrieve_clash :
  retrieve corpus_clash "alpha" default_top_k
  = [({| doc_id := Some 1; doc_filename := ""; doc_content := CStr "beta" |},
      tie_score)].
Proof.
  assert (Hs : compute_scores corpus_clash (_tokenize "alpha")
               = [(1, tie_score)]).
  { transitivity
      [(1, fadd (float_of_nat 0) (fadd (float_of_nat 0) tie_score))];
      [eval_scores |].
    rewrite !(fadd_0_l A HA). reflexivity. }
  assert (H1 : id_to_doc corpus_clash 1
               = Some {| doc_id := Some 1; doc_filename := "";
                         doc_content := CStr "beta" |})
    by (vm_compute; reflexivity).
  unfold retrieve, result_ids. rewrite Hs.
  change (alist_keys _) with [1].
  change (sorted_desc _ [1]) with [1].
  change (take_py default_top_k [1]) with [1].
  cbn [flat_map app]. rewrite H1. reflexivity.
Qed.

End Scores.

Lemma ln_3_2_pos : (0 < ln (INR 3 / INR 2))%R.
Proof. rewrite <- ln_1. apply ln_increasing; cbn; lra. Qed.

(** In exact arithmetic log(3/2) < 2 log(3/2). *)
Lemma alpha_score_real : flt (alpha_score (F := R) 1) (alpha_score 2).
Proof.
  unfold alpha_score. cbn -[INR ln]. pose proof ln_3_2_pos as H.
  cbn [INR] in *. lra.
Qed.

End RetrieveExamples.

(** ** Claims on retrieval *)

Module RetrievalClaims.
Import Retriever RetrieverSpec RetrieverExamples.
Import IndexFacts SortFacts RetrieveFacts RankingFacts RetrieveExamples.

(** C1 (amended).  The scores are floats; the theorem holds for every
    arithmetic [A] in which [<] is a strict weak order and [0 + x = x], as
    it is for the floats.  For every collection of documents added via
    [add_document] whose stored ids are pairwise distinct, every query and
    every [top_k >= 0], [retrieve] returns only stored documents containing
    at least one query token, each annotated with the sum, added up in the
    order of the query tokens, over the query tokens matching it of
    termFrequency × log(totalDocuments / documentsContainingToken); no
    result has a lower score than a later one; documents whose scores
    compare equal keep the order in which the scan of the query tokens
    first reached them (for a one-token query this is the insertion order);
    at most [top_k] documents are returned.  In particular, on the documents
    1 "alpha beta", 2 "beta gamma", 3 "alpha alpha gamma" the query "alpha"
    gives document 1 the score 1 × log(3/2) and document 3 the score
    2 × log(3/2) and, the first being below the second, returns document 3,
    then document 1, and not document 2. *)
Theorem retrieve_ranking {F : Type} (A : Arith F) (ds : list document)
    (query : string) (top_k : Z) :
  arith_laws A ->
  NoDup (doc_id <$> documents (build ds)) ->
  0 <= top_k ->
  retrieve_spec (build ds) query top_k
  /\ (flt (alpha_score 1) (alpha_score 2) ->
      retrieve corpus3 "alpha" default_top_k
      = [(doc3, alpha_score 2); (doc1, alpha_score 1)]).
Proof.
  intros HA Hnd Hk. split.
  - apply retrieve_properties; [exact HA | apply build_ok, Hnd | exact Hk].
  - apply retrieve_alpha, HA.
Qed.

Lemma retrieve_ranking_witness :
  retrieve_spec (F := R) corpus3 "alpha" default_top_k
  /\ retrieve (F := R) corpus3 "alpha" default_top_k
     = [(doc3, alpha_score 2); (doc1, alpha_score 1)].
Proof.
  destruct (retrieve_ranking real_arith [doc1; doc2; doc3] "alpha"
              default_top_k) as [Hspec Hex].
  - exact real_laws.
  - exact corpus3_ok.
  - unfold default_top_k. lia.
  - split; [exact Hspec | exact (Hex alpha_score_real)].
Defined.

(** C1 as stated fails, whatever the arithmetic: with "beta" stored first
    and "alpha" second, the query "alpha beta" gives both documents the
    score 1 × log(2/1) and returns "alpha" first, against the insertion
    order. *)
Lemma retrieve_tie_counterexample :
  NoDup (doc_id <$> documents corpus_tie)
  /\ ~ (exists (F : Type) (A : Arith F),
          arith_laws A
          /\ ties_in_insertion_order corpus_tie
               (retrieve corpus_tie "alpha beta" default_top_k)).
Proof.
  split; [exact corpus_tie_ok |].
  intros (F & A & HA & Hties). rewrite (retrieve_tie HA) in Hties.
  destruct (Hties (docA, tie_score) (docB, tie_score)) as (l1 & l2 & l3 & H).
  - exists [], [], []. reflexivity.
  - apply (same_score_refl HA).
  - change (documents corpus_tie) with [docB; docA] in H. cbn [fst] in H.
    unfold docA, docB, mk_doc in H.
    destruct l1 as [|x [|y l1]]; cbn in H; try discriminate.
    + injection H as _ H. destruct l2; discriminate.
    + injection H as _ _ H. destruct l1; discriminate.
Qed.

(** Both restrictions of the amended claim are needed. *)
Example retrieve_negative_top_k :
  exists s3 : R, retrieve corpus3 "alpha" (-1) = [(doc3, s3)].
Proof.
  eexists. apply (retrieve_alpha_negative real_laws), alpha_score_real.
Qed.

Example retrieve_id_clash :
  exists s : R,
    retrieve corpus_clash "alpha" default_top_k
    = [({| doc_id := Some 1; doc_filename := "";
           doc_content := CStr "beta" |}, s)].
Proof. eexists. apply (retrieve_clash real_laws). Qed.

Lemma tfidf_sum_single_from d qts (acc : R) :
  fold_left
    (fun acc t => if contains_token t d then fadd acc (tfidf [d] t d) else acc)
    qts acc = acc.
Proof.
  revert acc. induction qts as [|t qts IH]; intros acc; cbn [fold_left];
    [reflexivity |].
  rewrite IH. unfold tfidf, document_frequency. cbn -[INR ln].
  destruct (contains_token t d); [| reflexivity]. cbn.
  replace (1 / 1)%R with 1%R by lra. rewrite ln_1. ring.
Qed.

Lemma tfidf_sum_single d qts : tfidf_sum [d] qts d = 0%R.
Proof. apply tfidf_sum_single_from. Qed.

(** C6 (amended).  For a corpus of exactly one document the IDF factor of
    every indexed token is ln(1) = 0, and every score that [retrieve]
    reports is 0, whatever the term frequencies. *)
Theorem single_document_scores_zero (d : document) (query : string) (top_k : Z) :
  let r := build [d] in
  (forall t posting,
      alist_get t (index r) = Some posting ->
      ln (INR (List.length (documents r)) / INR (List.length posting)) = 0%R)
  /\ Forall (fun e => snd e = 0%R) (retrieve r query top_k).
Proof.
  intros r.
  assert (Hok : index_ok r).
  { apply build_ok. cbn. apply NoDup_singleton. }
  assert (Hdocs : exists d', documents r = [d']) by (cbn; eauto).
  destruct Hdocs as [d' Hdocs]. split.
  - intros t posting Hget. rewrite (ok_index r Hok), Hdocs in Hget.
    rewrite Hdocs. unfold posting_spec in Hget. cbn in Hget.
    destruct (doc_id d'); [destruct (contains_token t d') |];
      cbn in Hget; try discriminate.
    injection Hget as <-. cbn.
    replace (1 / 1)%R with 1%R by lra. apply ln_1.
  - rewrite (retrieve_fmap r query top_k Hok).
    apply Forall_fmap, Forall_forall. intros id Hin. unfold compose.
    destruct (result_ids_sublist (F := R) r query top_k Hok)
      as (l & Hperm & Hsub & _).
    assert (Hscan : id ∈ scan_order (documents r) (_tokenize query)).
    { rewrite <- Hperm. eapply elem_of_sublist; eauto. }
    destruct (result_entry_spec real_laws r _ id Hok Hscan)
      as (d0 & Hd0 & _ & _ & He).
    rewrite He. cbn [snd]. rewrite Hdocs in *.
    apply list_elem_of_singleton in Hd0. subst d0.
    apply tfidf_sum_single.
Qed.

(** C6 as stated fails: the only document is "alpha alpha"; for the query
    "alpha" its term frequency is 2 and its score is 0. *)
Lemma single_document_counterexample :
  ~ score_is_term_frequency "alpha"
      (retrieve corpus_one "alpha" default_top_k).
Proof.
  assert (Hs : compute_scores corpus_one (_tokenize "alpha")
               = [(1, (0 + (0 + INR 2 * ln (INR 1 / INR 1)))%R)])
    by eval_scores.
  assert (H1 : id_to_doc corpus_one 1 = Some docAA) by (vm_compute; reflexivity).
  assert (Htf : tf_sum (_tokenize "alpha") docAA = (INR 2 + 0)%R) by eval_scores.
  unfold score_is_term_frequency, retrieve, result_ids. rewrite Hs.
  change (alist_keys _) with [1].
  change (sorted_desc _ [1]) with [1].
  change (take_py default_top_k [1]) with [1].
  cbn [flat_map app]. rewrite H1. intros Hall.
  apply Forall_cons in Hall as [Hall _]. cbn [fst snd] in Hall.
  rewrite Htf in Hall. revert Hall. rewrite score_of_cons.
  rewrite decide_True by reflexivity. cbn [INR].
  replace (1 / 1)%R with 1%R by lra. rewrite ln_1. lra.
Qed.

End RetrievalClaims.

(** ** The file index *)

Module FileIndexFacts.
Import FileIndex.

Lemma list_remove_first_elem x l p : p ∈ list_remove_first x l -> p ∈ l.
Proof.
  induction l as [|y l IH]; cbn; [auto |].
  destruct (decide (x = y)) as [->|Hne]; rewrite !elem_of_cons; intuition.
Qed.

Lemma list_remove_first_NoDup x l :
  NoDup l -> NoDup (list_remove_first x l) /\ x ∉ list_remove_first x l.
Proof.
  induction l as [|y l IH]; cbn; intros Hnd.
  - split; [apply NoDup_nil_2 | apply not_elem_of_nil].
  - apply NoDup_cons in Hnd as [Hy Hnd].
    destruct (decide (x = y)) as [->|Hne]; [auto |].
    destruct (IH Hnd) as [Hnd' Hx]. split.
    + apply NoDup_cons. split; [| exact Hnd'].
      intros Hin. apply Hy. eapply list_remove_first_elem, Hin.
    + rewrite not_elem_of_cons. auto.
Qed.

(** The entry of [directory] after [add_to_directory] lists [abs_path];
    entries of other directories are untouched. *)
Lemma add_to_directory_lookup directory abs_path dirs d e :
  add_to_directory directory abs_path dirs !! d = Some e ->
  (d <> directory /\ dirs !! d = Some e)
  \/ (d = directory /\ abs_path ∈ dir_files e
      /\ exists old,
          (old = [] /\ dirs !! directory = None
           \/ exists e0, dirs !! directory = Some e0 /\ dir_files e0 = old)
          /\ dir_files e = if decide (abs_path ∈ old) then old else old ++ [abs_path]).
Proof.
  unfold add_to_directory. intros H.
  destruct (decide (d = directory)) as [->|Hne].
  - right. split; [reflexivity |].
    destruct (dirs !! directory) as [e0|] eqn:Hd.
    + rewrite Hd in H.
      destruct (decide (abs_path ∈ dir_files e0)) as [Hin|Hin].
      * rewrite Hd in H. injection H as <-. split; [exact Hin |].
        exists (dir_files e0). rewrite decide_True by exact Hin. eauto 6.
      * rewrite lookup_insert_eq in H. injection H as <-. cbn. split.
        -- apply elem_of_app. right. apply list_elem_of_here.
        -- exists (dir_files e0). rewrite decide_False by exact Hin. eauto 6.
    + rewrite lookup_insert_eq in H. cbn in H.
      rewrite decide_False in H by apply not_elem_of_nil.
      rewrite lookup_insert_eq in H. injection H as <-. cbn. split.
      * apply list_elem_of_here.
      * exists []. rewrite decide_False by apply not_elem_of_nil. auto.
  - left. split; [exact Hne |].
    destruct (dirs !! directory) as [e0|] eqn:Hd.
    + rewrite Hd in H.
      destruct (decide (abs_path ∈ dir_files e0));
        [exact H | rewrite lookup_insert_ne in H by congruence; exact H].
    + rewrite lookup_insert_eq in H. cbn in H.
      rewrite decide_False in H by apply not_elem_of_nil.
      rewrite !lookup_insert_ne in H by congruence. exact H.
Qed.

Section WithEnvironment.
Variable md5 : string -> string.
Variable abspath : string -> string.

Lemma get_file_hash_present (fs : FS.t) path f :
  fs !! path = Some f -> _get_file_hash md5 fs path = Ok (current_hash md5 f).
Proof.
  intros Hf. unfold _get_file_hash, FS.read_bytes, FS.getmtime, current_hash.
  rewrite Hf. destruct (FS.readable f); reflexivity.
Qed.

Lemma get_file_hash_absent (fs : FS.t) path :
  fs !! path = None -> _get_file_hash md5 fs path = Raise FileNotFoundError.
Proof.
  intros Hf. unfold _get_file_hash, FS.read_bytes, FS.getmtime.
  rewrite Hf. reflexivity.
Qed.

(** A completed [add_file]: the file was on disk, and the new index holds
    its record with the current hash. *)
Lemma add_file_completed (fs : FS.t) now path info idx idx' :
  add_file md5 abspath fs now path info idx = (idx', None) ->
  exists f record,
    fs !! abspath path = Some f
    /\ rec_hash record = current_hash md5 f
    /\ files idx' = <[abspath path := record]> (files idx)
    /\ directories idx'
       = add_to_directory (Path.dirname (abspath path)) (abspath path)
           (directories idx).
Proof.
  unfold add_file. intros H.
  destruct (fs !! abspath path) as [f|] eqn:Hf.
  - rewrite (get_file_hash_present fs _ f Hf) in H.
    unfold FS.getsize in H. rewrite Hf in H. injection H as <-.
    eexists f, _. cbn. repeat split; reflexivity.
  - rewrite (get_file_hash_absent fs _ Hf) in H. discriminate.
Qed.

Lemma empty_wf now :
  dirs_backed (_create_empty_index now) /\ dirs_proper (_create_empty_index now).
Proof.
  split; intros d e; cbn; rewrite lookup_empty; discriminate.
Qed.

Lemma add_file_wf (fs : FS.t) now path info idx idx' :
  dirs_backed idx /\ dirs_proper idx ->
  add_file md5 abspath fs now path info idx = (idx', None) ->
  dirs_backed idx' /\ dirs_proper idx'.
Proof.
  intros [Hb Hp] Hadd.
  destruct (add_file_completed fs now path info idx idx' Hadd)
    as (f & record & _ & _ & Hfiles & Hdirs).
  split.
  - intros d e p Hd Hin. rewrite Hfiles. rewrite Hdirs in Hd.
    destruct (decide (p = abspath path)) as [->|Hne];
      [rewrite lookup_insert_eq; eauto |].
    rewrite lookup_insert_ne by congruence.
    apply add_to_directory_lookup in Hd
      as [[_ Hd] | (-> & _ & old & Hold & Hfs)]; [eapply Hb; eauto |].
    assert (Hin' : p ∈ old).
    { rewrite Hfs in Hin. destruct (decide (abspath path ∈ old)); [exact Hin |].
      apply elem_of_app in Hin as [Hin | Hin]; [exact Hin |].
      apply list_elem_of_singleton in Hin. congruence. }
    destruct Hold as [[-> _] | (e0 & He0 & <-)];
      [apply elem_of_nil in Hin'; destruct Hin' | eapply Hb; eauto].
  - intros d e Hd. rewrite Hdirs in Hd.
    apply add_to_directory_lookup in Hd
      as [[_ Hd] | (-> & _ & old & Hold & Hfs)]; [apply Hp, Hd |].
    assert (Hold' : NoDup old /\ forall p, p ∈ old ->
                      Path.dirname p = Path.dirname (abspath path)).
    { destruct Hold as [[-> _] | (e0 & He0 & <-)]; [| apply Hp, He0].
      split; [apply NoDup_nil_2 |].
      intros p Hin. apply elem_of_nil in Hin. destruct Hin. }
    destruct Hold' as [Hnd Hdir]. rewrite Hfs.
    destruct (decide (abspath path ∈ old)) as [Hin|Hin]; [auto |]. split.
    + apply NoDup_app. repeat split; [exact Hnd | | apply NoDup_singleton].
      intros x Hx Hx'. apply list_elem_of_singleton in Hx'. congruence.
    + intros p Hp'. apply elem_of_app in Hp' as [Hp' | Hp']; [auto |].
      apply list_elem_of_singleton in Hp'. congruence.
Qed.

Lemma remove_file_files now path idx :
  files (remove_file abspath now path idx) = delete (abspath path) (files idx).
Proof.
  unfold remove_file. cbn [files _save_index].
  destruct (files idx !! abspath path) eqn:E; [reflexivity |].
  symmetry. apply delete_id, E.
Qed.

(** Entries after [remove_file]. *)
Lemma remove_file_dirs now path idx d e :
  directories (remove_file abspath now path idx) !! d = Some e ->
  (directories idx !! d = Some e
   /\ (d = Path.dirname (abspath path) -> abspath path ∉ dir_files e))
  \/ (d = Path.dirname (abspath path)
      /\ exists e0, directories idx !! d = Some e0
                    /\ dir_files e = list_remove_first (abspath path) (dir_files e0)).
Proof.
  unfold remove_file. cbn [directories _save_index].
  destruct (directories idx !! Path.dirname (abspath path)) as [e0|] eqn:Hd.
  - destruct (decide (abspath path ∈ dir_files e0)) as [Hin|Hin].
    + destruct (decide (d = Path.dirname (abspath path))) as [->|Hne].
      * rewrite lookup_insert_eq. intros [= <-]. right. eauto.
      * rewrite lookup_insert_ne by congruence. intros H. left. tauto.
    + intros H. left. split; [exact H |]. intros ->. congruence.
  - intros H. left. split; [exact H |]. intros ->. congruence.
Qed.

Lemma remove_file_wf now path idx :
  dirs_backed idx /\ dirs_proper idx ->
  dirs_backed (remove_file abspath now path idx)
  /\ dirs_proper (remove_file abspath now path idx).
Proof.
  intros [Hb Hp]. split.
  - intros d e p Hd Hin. rewrite remove_file_files.
    apply remove_file_dirs in Hd as [[Hd Hnot] | (-> & e0 & He0 & Hfs)].
    + destruct (decide (p = abspath path)) as [->|Hne].
      * exfalso. destruct (Hp d e Hd) as [_ Hdir].
        apply Hnot; [symmetry; apply Hdir, Hin | exact Hin].
      * rewrite lookup_delete_ne by congruence. eapply Hb; eauto.
    + destruct (Hp _ e0 He0) as [Hnd _].
      destruct (list_remove_first_NoDup (abspath path) _ Hnd) as [_ Hx].
      rewrite Hfs in Hin.
      rewrite lookup_delete_ne by (intros <-; tauto).
      eapply Hb; eauto using list_remove_first_elem.
  - intros d e Hd.
    apply remove_file_dirs in Hd as [[Hd _] | (-> & e0 & He0 & Hfs)];
      [apply Hp, Hd |].
    destruct (Hp _ e0 He0) as [Hnd Hdir]. rewrite Hfs. split.
    + apply list_remove_first_NoDup, Hnd.
    + intros p Hin. apply Hdir. eapply list_remove_first_elem, Hin.
Qed.

Lemma remove_file_unlisted now path idx :
  dirs_proper idx -> ~ listed (remove_file abspath now path idx) (abspath path).
Proof.
  intros Hp (d & e & Hd & Hin).
  apply remove_file_dirs in Hd as [[Hd Hnot] | (-> & e0 & He0 & Hfs)].
  - destruct (Hp d e Hd) as [_ Hdir].
    apply Hnot; [symmetry; apply Hdir, Hin | exact Hin].
  - destruct (Hp _ e0 He0) as [Hnd _].
    destruct (list_remove_first_NoDup (abspath path) _ Hnd) as [_ Hx].
    rewrite Hfs in Hin. tauto.
Qed.

Lemma reachable_wf idx :
  reachable md5 abspath idx -> dirs_backed idx /\ dirs_proper idx.
Proof.
  induction 1 as [now | fs now path info idx idx' _ IH Hadd
                  | now path idx _ IH | now idx _ IH].
  - apply empty_wf.
  - eapply add_file_wf; eauto.
  - apply remove_file_wf, IH.
  - apply (empty_wf now).
Qed.

End WithEnvironment.

(** In a reachable index the guard [if file_path in self.index["files"]] of
    [get_files_in_directory] never drops a listed path. *)
Lemma get_files_in_directory_all (md5 abspath : string -> string) idx directory e :
  reachable md5 abspath idx ->
  directories idx !! abspath directory = Some e ->
  List.length (get_files_in_directory abspath directory idx)
  = List.length (dir_files e).
Proof.
  intros Hr He. destruct (reachable_wf md5 abspath idx Hr) as [Hb _].
  unfold get_files_in_directory. rewrite He.
  assert (Hall : forall p, p ∈ dir_files e -> is_Some (files idx !! p))
    by (intros p Hp; eapply Hb; eauto).
  induction (dir_files e) as [|p l IH]; [reflexivity |].
  cbn [omap list_omap].
  destruct (Hall p) as [record Hrec]; [apply list_elem_of_here |].
  rewrite Hrec. cbn [List.length]. f_equal. apply IH.
  intros q Hq. apply Hall, list_elem_of_further, Hq.
Qed.

End FileIndexFacts.

(** ** Claims on the file index *)

Module FileIndexClaims.
Import FileIndex FileIndexExamples FileIndexFacts.

Example dirname_a : Path.split "/docs/a.txt" = ("/docs", "a.txt")%string.
Proof. vm_compute. reflexivity. Qed.

Example dirname_root : Path.split "/a.txt" = ("/", "a.txt")%string.
Proof. vm_compute. reflexivity. Qed.

Lemma add_a :
  add_file digest_id abspath_id fs_a 1 "/docs/a.txt" info_a (_create_empty_index 0)
  = (idx_a, None).
Proof. reflexivity. Qed.

Lemma idx_a_reachable : reachable digest_id abspath_id idx_a.
Proof. eapply reach_add; [apply (reach_empty _ _ 0) | exact add_a]. Qed.

Lemma idx_a_record : is_Some (files idx_a !! abspath_id "/docs/a.txt").
Proof. vm_compute. eauto. Qed.

(** C8.  In every state the index reaches from the empty one through
    completed [add_file], [remove_file] and [clear_index] calls, every path
    listed in a directory entry has a record in the file map; and
    [remove_file] leaves the path without record and listed under no
    directory. *)
Theorem directory_entries_backed (md5 abspath : string -> string) (idx : index_t) :
  reachable md5 abspath idx ->
  dirs_backed idx
  /\ forall now path,
      files (remove_file abspath now path idx) !! abspath path = None
      /\ ~ listed (remove_file abspath now path idx) (abspath path).
Proof.
  intros Hr. destruct (reachable_wf md5 abspath idx Hr) as [Hb Hp].
  split; [exact Hb |]. intros now path. split.
  - rewrite remove_file_files. apply lookup_delete_eq.
  - apply (remove_file_unlisted md5), Hp.
Qed.

Lemma directory_entries_backed_witness :
  dirs_backed idx_a
  /\ forall now path,
      files (remove_file abspath_id now path idx_a) !! abspath_id path = None
      /\ ~ listed (remove_file abspath_id now path idx_a) (abspath_id path).
Proof.
  apply (directory_entries_backed digest_id abspath_id idx_a).
  exact idx_a_reachable.
Defined.

Section WithEnvironment.
Variable md5 : string -> string.
Variable abspath : string -> string.




End WithEnvironment.




(** C10.  When the path has a record but the file is gone from the disk,
    [file_needs_update] raises the [FileNotFoundError] of
    [os.path.getmtime], reached through the fallback of [_get_file_hash]. *)
Theorem needs_update_raises_when_file_gone (md5 abspath : string -> string)
    (fs : FS.t) (path : string) (idx : index_t) :
  is_Some (files idx !! abspath path) ->
  fs !! abspath path = None ->
  _get_file_hash md5 fs (abspath path) = Raise FileNotFoundError
  /\ file_needs_update md5 abspath fs path idx = Raise FileNotFoundError.
Proof.
  intros [record Hrec] Hgone.
  pose proof (get_file_hash_absent md5 fs _ Hgone) as Hh.
  split; [exact Hh |].
  unfold file_needs_update. rewrite Hrec, Hh. reflexivity.
Qed.

Lemma needs_update_raises_when_file_gone_witness :
  _get_file_hash digest_id (∅ : FS.t) (abspath_id "/docs/a.txt")
  = Raise FileNotFoundError
  /\ file_needs_update digest_id abspath_id ∅ "/docs/a.txt" idx_a
     = Raise FileNotFoundError.
Proof.
  apply needs_update_raises_when_file_gone.
  - exact idx_a_record.
  - apply lookup_empty.
Defined.

End FileIndexClaims.

(** ** The batch processor *)

Module BatchFacts.
Import FileIndex Batch BatchExamples.

Lemma process_file_terminal ex j : terminal (_process_file ex j).
Proof.
  unfold _process_file, terminal.
  destruct (extract ex _ _) as [[r|]|e]; cbn; auto.
  destruct (_ || _); [destruct (get_document_metadata ex _) |]; cbn; auto.
Qed.

Lemma process_file_filename ex j :
  job_filename (_process_file ex j) = job_filename j.
Proof.
  unfold _process_file.
  destruct (extract ex _ _) as [[r|]|e]; cbn; auto.
  destruct (_ || _); [destruct (get_document_metadata ex _) |]; reflexivity.
Qed.

Lemma count_status_cons s j jobs :
  count_status s (j :: jobs)
  = ((if decide (job_status j = s) then 1 else 0) + count_status s jobs)%nat.
Proof.
  unfold count_status. cbn [List.filter].
  destruct (decide (job_status j = s)) as [H|H].
  - rewrite bool_decide_true by exact H. reflexivity.
  - rewrite bool_decide_false by exact H. reflexivity.
Qed.

Lemma count_terminal jobs :
  Forall terminal jobs ->
  (count_status Completed jobs + count_status Failed jobs)%nat = List.length jobs.
Proof.
  induction 1 as [|j jobs [Hj | Hj] _ IH]; [reflexivity | |];
    rewrite !count_status_cons, Hj; cbn [List.length];
    repeat (destruct (decide _) as [?|?]; try congruence); lia.
Qed.

Lemma omap_lookup_seq_app {A} (l2 : list A) :
  forall l1,
    omap (fun i => (l1 ++ l2) !! i) (seq (List.length l1) (List.length l2)) = l2.
Proof.
  induction l2 as [|x l2 IH]; intros l1; [reflexivity |].
  cbn [List.length seq omap list_omap].
  rewrite list_lookup_middle by reflexivity. f_equal.
  specialize (IH (l1 ++ [x])).
  rewrite length_app, Nat.add_1_r, <- app_assoc in IH. exact IH.
Qed.

Lemma omap_lookup_seq {A} (l : list A) :
  omap (fun i => l !! i) (seq 0 (List.length l)) = l.
Proof. apply (omap_lookup_seq_app l []). Qed.

Lemma omap_lookup_perm {A} (l : list A) order :
  order ≡ₚ seq 0 (List.length l) -> omap (fun i => l !! i) order ≡ₚ l.
Proof. intros ->. rewrite omap_lookup_seq. reflexivity. Qed.

Section Quiet.
Context {S : Type}.

(** With a callback that never raises the loop calls it once for each
    yielded job and leaves the jobs as the workers returned them. *)
Lemma collect_quiet (cb : callback_t S) order :
  (forall d s, snd (cb d s) = None) ->
  forall st, exists st',
    collect (Some cb) order st = (st', None)
    /\ ls_jobs st' = ls_jobs st
    /\ ls_calls st'
       = ls_calls st ++ omap (fun i => ls_jobs st !! i) order.
Proof.
  intros Hq. induction order as [|i order IH]; intros st; cbn [collect].
  - exists st. rewrite app_nil_r. auto.
  - unfold handle_completed.
    destruct (ls_jobs st !! i) as [j|] eqn:Hj.
    + specialize (Hq (to_dict j) (ls_client st)).
      destruct (cb (to_dict j) (ls_client st)) as [s1 r1]. cbn in Hq. subst r1.
      match goal with |- context [collect _ _ ?st1] =>
        destruct (IH st1) as (st' & Hc & Hjobs & Hcalls) end.
      exists st'. rewrite Hc. cbn in Hjobs, Hcalls.
      repeat split; [exact Hjobs |].
      rewrite Hcalls. cbn [omap list_omap]. rewrite Hj, <- app_assoc. reflexivity.
    + destruct (IH st) as (st' & Hc & Hjobs & Hcalls).
      exists st'. repeat split; auto.
      rewrite Hcalls. cbn [omap list_omap]. rewrite Hj. reflexivity.
Qed.

Lemma collect_no_callback order :
  forall st : loop_state S, exists st',
    collect None order st = (st', None)
    /\ ls_jobs st' = ls_jobs st /\ ls_calls st' = ls_calls st.
Proof.
  induction order as [|i order IH]; intros st; cbn [collect].
  - exists st. auto.
  - unfold handle_completed.
    destruct (ls_jobs st !! i) as [j|] eqn:Hj; [| apply IH].
    match goal with |- context [collect _ _ ?st1] =>
      destruct (IH st1) as (st' & Hc & Hjobs & Hcalls) end.
    exists st'. auto.
Qed.

End Quiet.

Lemma progress_empty : (progress (get_progress []) == 1)%Q.
Proof. reflexivity. Qed.

Lemma progress_fraction jobs :
  jobs <> [] ->
  (progress (get_progress jobs) * inject_Z (total (get_progress jobs))
   == inject_Z (completed (get_progress jobs) + failed (get_progress jobs)))%Q.
Proof.
  intros Hne. unfold get_progress. cbn [progress total completed failed].
  assert (Hpos : 0 < Z.of_nat (List.length jobs)) by (destruct jobs; [congruence | cbn; lia]).
  replace (Z.of_nat (List.length jobs) >? 0) with true
    by (symmetry; apply Z.gtb_lt; lia).
  unfold Qdiv. rewrite <- Qmult_assoc, (Qmult_comm (/ _)), Qmult_inv_r.
  - apply Qmult_1_r.
  - intros H. unfold Qeq in H. cbn in H. lia.
Qed.

Lemma progress_terminal jobs :
  Forall terminal jobs -> (progress (get_progress jobs) == 1)%Q.
Proof.
  intros Ht. destruct jobs as [|j jobs]; [reflexivity |].
  pose proof (count_terminal _ Ht) as Hc.
  unfold get_progress. cbn [progress].
  replace (Z.of_nat (List.length (j :: jobs)) >? 0) with true
    by (symmetry; apply Z.gtb_lt; cbn; lia).
  rewrite <- Nat2Z.inj_add, Hc.
  apply Qmult_inv_r. intros H. unfold Qeq in H. cbn in H. lia.
Qed.

Lemma get_file_type_cases filename :
  get_file_type filename ∈ ["text"; "json"; "csv"; "pdf"; "docx"; "unknown"]%string.
Proof.
  unfold get_file_type.
  repeat (destruct (String.eqb _ _);
          [repeat (first [apply list_elem_of_here | apply list_elem_of_further]) |]).
  repeat (first [apply list_elem_of_here | apply list_elem_of_further]).
Qed.

(** The worker marks a job failed exactly when extraction fails on its
    file, and completed otherwise. *)
Lemma process_file_status ex filename :
  job_status (_process_file ex (new_job filename (get_file_type filename)))
  = if extraction_fails ex filename then Failed else Completed.
Proof.
  unfold _process_file, extract, extraction_fails, start, new_job.
  cbn [job_filename job_file_type].
  pose proof (get_file_type_cases filename) as Hc.
  repeat (apply elem_of_cons in Hc as [-> | Hc]);
    [.. | apply elem_of_nil in Hc; destruct Hc];
    cbn [String.eqb Ascii.eqb Bool.eqb andb orb];
    try (destruct (read_text ex filename); reflexivity);
    try (destruct (read_json ex filename); reflexivity);
    try (destruct (read_csv ex filename); reflexivity);
    try (destruct (pdf_available ex);
         [destruct (get_document_metadata ex filename) |]; reflexivity);
    try (destruct (pdf_available ex), (docx_available ex);
         try destruct (get_document_metadata ex filename); reflexivity);
    try (destruct (docx_available ex);
         [destruct (get_document_metadata ex filename) |]; reflexivity).
Qed.

Lemma count_failed_processed ex listing :
  count_status Failed (_process_file ex <$> initial_jobs listing)
  = failing_files ex listing.
Proof.
  unfold failing_files, initial_jobs.
  induction listing as [|f listing IH]; [reflexivity |].
  rewrite !fmap_cons, count_status_cons, process_file_status. cbn [List.filter].
  destruct (extraction_fails ex f); cbn [List.length].
  - rewrite decide_True by reflexivity. rewrite IH. reflexivity.
  - rewrite decide_False by discriminate. rewrite IH. reflexivity.
Qed.

(** C3 (amended).  When extraction fails on exactly one of the K submitted
    files (its reader or [get_document_metadata] raises, its library is
    missing or its type is unsupported) and the callback, if any, never
    raises, the batch ends without exception with K jobs, all terminal,
    exactly one failed and K-1 completed, and the callback has been invoked
    exactly once per job.  The progress fraction is (completed+failed)/total
    for a non-empty job list, 1 for an empty one, and 1 once every job is
    terminal. *)
Theorem batch_one_failure {S : Type} (ex : extractor) (listing : list string)
    (callback : option (callback_t S)) (order : list nat) (s : S) :
  order ≡ₚ seq 0 (List.length listing) ->
  (forall cb d s', callback = Some cb -> snd (cb d s') = None) ->
  failing_files ex listing = 1%nat ->
  let out := process_directory ex listing callback order s in
  let jobs := ls_jobs (fst out) in
  snd out = None
  /\ List.length jobs = List.length listing
  /\ Forall terminal jobs
  /\ count_status Failed jobs = 1%nat
  /\ count_status Completed jobs = (List.length listing - 1)%nat
  /\ (is_Some callback -> ls_calls (fst out) ≡ₚ to_dict <$> jobs)
  /\ (progress (get_progress jobs) == 1)%Q
  /\ (forall js,
        (js = [] -> (progress (get_progress js) == 1)%Q)
        /\ (js <> [] ->
            (progress (get_progress js) * inject_Z (total (get_progress js))
             == inject_Z (completed (get_progress js) + failed (get_progress js)))%Q)
        /\ (Forall terminal js -> (progress (get_progress js) == 1)%Q)).
Proof.
  intros Hperm Hquiet Hone out jobs.
  set (processed := _process_file ex <$> initial_jobs listing) in *.
  assert (Hfailed : count_status Failed processed = 1%nat).
  { unfold processed. rewrite count_failed_processed. exact Hone. }
  assert (Hlen : List.length processed = List.length listing).
  { unfold processed, initial_jobs. rewrite !length_fmap. reflexivity. }
  assert (Hterm : Forall terminal processed).
  { unfold processed. apply Forall_fmap, Forall_forall. intros j _.
    apply process_file_terminal. }
  assert (Hout : snd out = None /\ jobs = processed
                 /\ (is_Some callback -> ls_calls (fst out) ≡ₚ processed)).
  { subst out jobs. unfold process_directory. fold processed.
    destruct callback as [cb|].
    - match goal with |- context [collect _ _ ?st0] =>
        destruct (collect_quiet cb order (fun d s' => Hquiet cb d s' eq_refl) st0)
          as (st' & Hc & Hjobs & Hcalls) end.
      rewrite Hc. cbn in *. repeat split; auto.
      intros _. rewrite Hcalls. apply omap_lookup_perm. rewrite Hlen. exact Hperm.
    - match goal with |- context [collect _ _ ?st0] =>
        destruct (collect_no_callback order st0) as (st' & Hc & Hjobs & Hcalls) end.
      rewrite Hc. cbn in *. repeat split; auto.
      intros [? [=]]. }
  destruct Hout as (Hexn & Hjobs & Hcalls). rewrite Hjobs.
  pose proof (count_terminal _ Hterm) as Hcount.
  repeat split.
  - exact Hexn.
  - exact Hlen.
  - exact Hterm.
  - exact Hfailed.
  - lia.
  - intros Hcb. unfold to_dict. rewrite list_fmap_id. apply Hcalls, Hcb.
  - apply progress_terminal, Hterm.
  - intros ->. apply progress_empty.
  - apply progress_fraction.
  - apply progress_terminal.
Qed.

Lemma batch_one_failure_witness :
  let out := process_directory ex_plain two_files (Some cb_quiet) [1; 0]%nat tt in
  count_status Failed (ls_jobs (fst out)) = 1%nat
  /\ count_status Completed (ls_jobs (fst out)) = 1%nat
  /\ (progress (get_progress (ls_jobs (fst out))) == 1)%Q.
Proof.
  pose proof (batch_one_failure ex_plain two_files (Some cb_quiet) [1; 0]%nat tt)
    as H.
  destruct H as (_ & _ & _ & Hf & Hc & _ & Hp & _).
  - apply perm_swap.
  - intros cb d s' [= <-]. reflexivity.
  - vm_compute. reflexivity.
  - cbv zeta. auto.
Defined.

(** C3 as stated fails: a callback raising on the completed job is called
    a second time for it, after the job has been marked failed; both jobs
    end failed and the callback has run three times. *)
Lemma batch_callback_counterexample :
  ~ batch_claim ex_plain two_files (Some cb_raise_on_completed) [0; 1]%nat tt.
Proof.
  intros H. destruct H as (Hf & _).
  - vm_compute. reflexivity.
  - vm_compute in Hf. discriminate.
Qed.

Example batch_callback_twice :
  let out := process_directory ex_plain two_files
               (Some cb_raise_on_completed) [0; 1]%nat tt in
  job_status <$> ls_jobs (fst out) = [Failed; Failed]
  /\ job_filename <$> ls_calls (fst out) = ["a.txt"; "a.txt"; "b.xyz"]%string
  /\ job_status <$> ls_calls (fst out) = [Completed; Failed; Failed]
  /\ snd out = None.
Proof. vm_compute. repeat split; reflexivity. Qed.

End BatchFacts.

(** ** The index builder *)

Module BuilderFacts.
Import FileIndex Batch Builder FileIndexFacts BatchFacts.



Lemma remove_dups_length {A} `{EqDecision A} (l : list A) :
  (List.length (remove_dups l) <= List.length l)%nat.
Proof.
  induction l as [|x l IH]; cbn; [lia |].
  destruct (decide_rel elem_of x l); cbn; lia.
Qed.


Section WithEnvironment.
Variable md5 : string -> string.
Variable abspath : string -> string.

Lemma select_files_spec fs force idx paths sel :
  select_files md5 abspath fs force idx paths = Ok sel ->
  sel = List.filter
          (fun p => force || match file_needs_update md5 abspath fs p idx with
                             | Ok b => b
                             | Raise _ => false
                             end) paths.
Proof.
  revert sel. destruct force; cbn [orb];
    induction paths as [|p paths IH]; intros sel; cbn [select_files List.filter].
  - intros [= <-]. reflexivity.
  - destruct (select_files _ _ _ _ _ paths) as [sel'|e]; [| discriminate].
    intros [= <-]. f_equal. apply IH. reflexivity.
  - intros [= <-]. reflexivity.
  - destruct (file_needs_update md5 abspath fs p idx) as [b|e]; [| discriminate].
    destruct (select_files _ _ _ _ _ paths) as [sel'|e]; [| discriminate].
    intros [= <-]. rewrite <- (IH sel' eq_refl). destruct b; reflexivity.
Qed.



(** [add_file] raises only before it has changed anything. *)
Lemma add_file_raise (fs : FS.t) now path info idx idx' e :
  add_file md5 abspath fs now path info idx = (idx', Some e) -> idx' = idx.
Proof.
  unfold add_file. destruct (fs !! abspath path) as [f|] eqn:Hf.
  - rewrite (get_file_hash_present md5 fs _ f Hf).
    unfold FS.getsize. rewrite Hf. discriminate.
  - rewrite (get_file_hash_absent md5 fs _ Hf). intros [= <-]. reflexivity.
Qed.



Lemma add_file_keeps_records (fs : FS.t) now q info idx idx' r p :
  add_file md5 abspath fs now q info idx = (idx', r) ->
  (is_Some (files idx !! p) -> is_Some (files idx' !! p))
  /\ (listed idx p -> listed idx' p).
Proof.
  intros Hadd. destruct r as [e|].
  - apply add_file_raise in Hadd. subst. auto.
  - destruct (add_file_completed md5 abspath fs now q info idx idx' Hadd)
      as (f & record & _ & _ & Hfiles & Hdirs).
    split.
    + intros Hp. rewrite Hfiles.
      destruct (decide (abspath q = p)) as [->|Hne];
        [rewrite lookup_insert_eq; eauto
        | rewrite lookup_insert_ne by exact Hne; exact Hp].
    + intros (d & e & Hd & Hin). unfold listed. rewrite Hdirs.
      unfold add_to_directory.
      set (dir := Path.dirname (abspath q)).
      destruct (decide (d = dir)) as [->|Hne].
      * rewrite Hd, Hd.
        destruct (decide (abspath q ∈ dir_files e)); [eauto |].
        eexists dir, _. rewrite lookup_insert_eq. split; [reflexivity |].
        cbn [dir_files]. apply elem_of_app. auto.
      * exists d, e. split; [| exact Hin].
        destruct (directories idx !! dir) as [e0|] eqn:Hd0.
        -- rewrite Hd0.
           destruct (decide (abspath q ∈ dir_files e0));
             [| rewrite lookup_insert_ne by congruence]; exact Hd.
        -- rewrite lookup_insert_eq. cbn [dir_files].
           rewrite decide_False by apply not_elem_of_nil.
           rewrite !lookup_insert_ne by congruence. exact Hd.
Qed.

(** The callback [update_index] is one [add_file] or nothing. *)
Lemma update_index_cases E F d idx idx' r :
  update_index md5 abspath E F d idx = (idx', r) ->
  (idx' = idx /\ r = None
   /\ ~ (job_status d = Completed /\ is_Some (job_result d)
         /\ is_Some (first_match F (job_filename d))))
  \/ exists q info,
      job_status d = Completed /\ job_result d = Some info
      /\ first_match F (job_filename d) = Some q
      /\ add_file md5 abspath (disk E) (clock E) q info idx = (idx', r).
Proof.
  unfold update_index.
  destruct (job_status d) eqn:Hs; try (intros [= <- <-]; left;
    repeat split; auto; intros (? & _); discriminate).
  destruct (job_result d) as [info|] eqn:Hr;
    [| intros [= <- <-]; left; repeat split; auto;
       intros (_ & [? [=]] & _)].
  destruct (first_match F (job_filename d)) as [q|] eqn:Hq;
    [| intros [= <- <-]; left; repeat split; auto;
       intros (_ & _ & [? [=]])].
  intros H. right. eauto 10.
Qed.

(** Whatever every [add_file] preserves, the whole loop preserves. *)
Lemma update_index_preserves (M : index_t -> Prop) E F :
  (forall q info idx idx' r,
      add_file md5 abspath (disk E) (clock E) q info idx = (idx', r) ->
      M idx -> M idx') ->
  forall d idx idx' r,
    update_index md5 abspath E F d idx = (idx', r) -> M idx -> M idx'.
Proof.
  intros HM d idx idx' r Hcb Hidx.
  apply update_index_cases in Hcb
    as [(-> & _ & _) | (q & info & _ & _ & _ & Hadd)]; [exact Hidx | eauto].
Qed.

Lemma handle_completed_preserves (M : index_t -> Prop)
    (cb : callback_t index_t) st i st' r :
  (forall d idx idx' r, cb d idx = (idx', r) -> M idx -> M idx') ->
  handle_completed (Some cb) st i = (st', r) ->
  M (ls_client st) -> M (ls_client st').
Proof.
  intros HM. unfold handle_completed.
  destruct (ls_jobs st !! i) as [j|]; [| intros [= <- <-]; auto].
  destruct (cb (to_dict j) (ls_client st)) as [s1 r1] eqn:H1.
  destruct r1 as [e|].
  - destruct (cb (to_dict (fail j "callback error")) s1) as [s2 r2] eqn:H2.
    intros [= <- <-] Hst. cbn. eauto.
  - intros [= <- <-] Hst. cbn. eauto.
Qed.

Lemma collect_preserves (M : index_t -> Prop) (cb : callback_t index_t) order :
  (forall d idx idx' r, cb d idx = (idx', r) -> M idx -> M idx') ->
  forall st st' r,
    collect (Some cb) order st = (st', r) ->
    M (ls_client st) -> M (ls_client st').
Proof.
  intros HM. induction order as [|i order IH]; intros st st' r; cbn [collect].
  - intros [= <- <-]. auto.
  - destruct (handle_completed (Some cb) st i) as [st1 r1] eqn:H1.
    pose proof (handle_completed_preserves M cb st i st1 r1 HM H1) as Hstep.
    destruct r1 as [e|]; [intros [= <- <-]; exact Hstep |].
    intros Hc Hst. eapply IH; eauto.
Qed.




Lemma process_file_result ex j :
  job_status (_process_file ex j) = Completed ->
  is_Some (job_result (_process_file ex j)).
Proof.
  unfold _process_file.
  destruct (extract ex _ _) as [[r|]|e]; cbn; try discriminate.
  destruct (_ || _); [destruct (get_document_metadata ex _) |]; cbn;
    try discriminate; eauto.
Qed.









Lemma skipped_count E directory force st st' sm :
  index_directory md5 abspath E directory force st = (st', Ok sm) ->
  total_files sm = Z.of_nat (List.length (walk E directory))
  /\ skipped sm
     = total_files sm - needs_update_count md5 abspath E directory force (fst st).
Proof.
  destruct st as [idx jobs]. unfold index_directory, needs_update_count.
  destruct (select_files md5 abspath (disk E) force idx (walk E directory))
    as [F|e] eqn:Hsel; [| discriminate].
  apply select_files_spec in Hsel. cbn [fst]. rewrite <- Hsel.
  destruct F as [|f0 F0].
  - intros [= <- <-]. cbn. split; reflexivity.
  - destruct (staging_error E) as [e0|]; [discriminate |].
    destruct (process_directory _ _ _ _ _) as [ls [e|]]; [discriminate |].
    intros [= <- <-]. cbn [total_files skipped]. split; reflexivity.
Qed.

(** Whatever every [add_file] preserves, [index_directory] preserves. *)
Lemma index_directory_preserves (M : index_t -> Prop) E directory force st st' r :
  (forall q info idx idx' r,
      add_file md5 abspath (disk E) (clock E) q info idx = (idx', r) ->
      M idx -> M idx') ->
  index_directory md5 abspath E directory force st = (st', r) ->
  M (fst st) -> M (fst st').
Proof.
  intros HM. destruct st as [idx jobs]. unfold index_directory.
  destruct (select_files md5 abspath (disk E) force idx (walk E directory))
    as [F|e]; [| intros [= <- <-]; auto].
  destruct F as [|f0 F0]; [intros [= <- <-]; auto |].
  destruct (staging_error E) as [e0|]; [intros [= <- <-]; auto |].
  unfold process_directory.
  destruct (collect _ _ _) as [ls r0] eqn:Hcollect.
  intros Hrun Hidx.
  assert (Hls : M (ls_client ls)).
  { apply (collect_preserves M _ _
             ltac:(intros d idx0 idx' r1; apply update_index_preserves; exact HM)
             _ _ _ Hcollect). exact Hidx. }
  destruct r0; injection Hrun as <- _; exact Hls.
Qed.

Lemma add_file_reachable (fs : FS.t) now q info idx idx' r :
  add_file md5 abspath fs now q info idx = (idx', r) ->
  reachable md5 abspath idx -> reachable md5 abspath idx'.
Proof.
  intros Hadd Hr. destruct r as [e|].
  - apply add_file_raise in Hadd. subst. exact Hr.
  - eapply reach_add; eauto.
Qed.

End WithEnvironment.

End BuilderFacts.

(** ** Claims on the index builder *)

Module BuilderClaims.
Import FileIndex Batch Builder FileIndexExamples BatchExamples BuilderExamples.
Import FileIndexFacts FileIndexClaims BuilderFacts.








(** C5 (amended).  A rescan never drops a record: every path that has a
    FileRecord, or is listed in a DirectoryEntry, before [index_directory]
    still has it afterwards, also when the file is gone from the disk and
    whatever [forceUpdate] is.  The index it leaves still backs every
    listed path with a record, and only a call of [remove_file] for the
    path removes its record and its listing. *)
Theorem rescan_keeps_records (md5 abspath : string -> string) (E : env)
    (directory : string) (force : bool) (st st' : index_t * list job)
    (r : result summary) (p : string) :
  reachable md5 abspath (fst st) ->
  index_directory md5 abspath E directory force st = (st', r) ->
  (is_Some (files (fst st) !! p) -> is_Some (files (fst st') !! p))
  /\ (listed (fst st) p -> listed (fst st') p)
  /\ dirs_backed (fst st')
  /\ forall now path,
      files (remove_file abspath now path (fst st')) !! abspath path = None
      /\ ~ listed (remove_file abspath now path (fst st')) (abspath path).
Proof.
  intros Hreach Hrun.
  assert (Hreach' : reachable md5 abspath (fst st')).
  { eapply (index_directory_preserves md5 abspath (reachable md5 abspath));
      [| exact Hrun | exact Hreach].
    intros q info idx idx' r0. apply add_file_reachable. }
  destruct (reachable_wf md5 abspath _ Hreach') as [Hb Hp].
  split; [| split; [| split; [exact Hb |]]].
  - eapply (index_directory_preserves md5 abspath
              (fun idx => is_Some (files idx !! p))); [| exact Hrun].
    intros q info idx idx' r0 Hadd. eapply add_file_keeps_records; eauto.
  - eapply (index_directory_preserves md5 abspath (fun idx => listed idx p));
      [| exact Hrun].
    intros q info idx idx' r0 Hadd. eapply add_file_keeps_records; eauto.
  - intros now path. split.
    + rewrite remove_file_files. apply lookup_delete_eq.
    + apply (remove_file_unlisted md5), Hp.
Qed.

Lemma rescan_gone :
  index_directory digest_id abspath_id E_gone "/docs" false (idx_a, [])
  = ((idx_a, []), Ok {| sum_directory := "/docs"; total_files := 0;
                        indexed := 0; errors := 0; skipped := 0 |}).
Proof. reflexivity. Qed.

Lemma rescan_keeps_records_witness :
  is_Some (files idx_a !! "/docs/a.txt"%string)
  /\ disk E_gone !! "/docs/a.txt"%string = None
  /\ is_Some (files (fst (idx_a, @nil job)) !! "/docs/a.txt"%string).
Proof.
  split; [exact idx_a_record |]. split; [apply lookup_empty |].
  apply (rescan_keeps_records digest_id abspath_id E_gone "/docs" false
           (idx_a, []) (idx_a, []) _ "/docs/a.txt" idx_a_reachable rescan_gone).
  exact idx_a_record.
Defined.

(** C5 as stated fails: [a.txt] has a record and is then deleted; the
    rescan of [/docs] finds no file, adds nothing and removes nothing, so
    the record and the listing of [/docs/a.txt] are still there. *)
Lemma rescan_counterexample :
  ~ rescan_drops_claim digest_id abspath_id E_gone "/docs" (idx_a, [])
      "/docs/a.txt".
Proof.
  intros Hclaim. destruct Hclaim as [Hfiles _].
  - exact idx_a_record.
  - apply lookup_empty.
  - rewrite rescan_gone in Hfiles. cbn [fst] in Hfiles.
    destruct idx_a_record as [record Hrec]. congruence.
Qed.

End BuilderClaims.

(** * Further properties *)

(** ** The chunker for other parameters *)

Module ChunkerMore.
Import Chunker ChunkerSpec ChunkerFacts.

Lemma find_break_upper (text : string) (steps : nat) :
  forall i e, find_break text i steps = Ok (Some e) -> e <= i + 1.
Proof.
  induction steps as [|k IH]; intros i e; cbn [find_break]; [discriminate |].
  destruct (Py.index text i) as [c|err]; [| discriminate].
  rewrite bind_Ok.
  destruct (existsb (Ascii.eqb c) break_chars).
  - intros [= <-]. lia.
  - intros H. apply IH in H. lia.
Qed.

(** Whatever the parameters, a pass that does not raise ends with
    [end <= len(text)]. *)
Lemma chunk_body_end (text : string) (chunk_size overlap start : Z)
    (chunks : list string) start' chunks' :
  chunk_body text chunk_size overlap start chunks = Ok (start', chunks') ->
  start' + overlap <= Py.len text
  /\ chunks' = chunks ++ [Py.slice text start (start' + overlap)].
Proof.
  unfold chunk_body.
  assert (Hlen : 0 <= Py.len text) by (unfold Py.len; lia).
  set (end0 := Z.min (start + chunk_size) (Py.len text)).
  assert (Hend0 : end0 <= Py.len text) by (unfold end0; lia).
  destruct (end0 <? Py.len text) eqn:Hlt.
  - apply Z.ltb_lt in Hlt.
    destruct (find_break text end0 _) as [[e|]|err] eqn:Hb;
      rewrite ?bind_Ok, ?bind_Raise; try discriminate.
    + apply find_break_upper in Hb. intros [= <- <-].
      rewrite Z.sub_add. split; [lia | reflexivity].
    + intros [= <- <-]. rewrite Z.sub_add. split; [lia | reflexivity].
  - rewrite bind_Ok. intros [= <- <-]. rewrite Z.sub_add. split; [lia | reflexivity].
Qed.

Lemma chunk_loop_overlap (text : string) (chunk_size overlap : Z) (fuel : nat) :
  0 < overlap ->
  forall start chunks result,
    start < Py.len text ->
    chunk_loop fuel text chunk_size overlap start chunks <> Some (Ok result).
Proof.
  intros Hov. induction fuel as [|f IH]; intros start chunks result Hs;
    cbn [chunk_loop]; [discriminate |].
  replace (start <? Py.len text) with true by (symmetry; apply Z.ltb_lt; lia).
  destruct (chunk_body text chunk_size overlap start chunks) as [[start' chunks']|err] eqn:Hb;
    [| discriminate].
  apply chunk_body_end in Hb as [Hend _]. apply IH. lia.
Qed.

(** X1.  With any positive overlap, and whatever the chunk size,
    [chunk_document] never returns a list of chunks for a non-empty text: the
    loop runs on or an index error stops it. *)
Theorem chunk_document_overlap_never_returns (text : string)
    (chunk_size overlap : Z) (fuel : nat) (chunks : list string) :
  0 < overlap ->
  text <> EmptyString ->
  chunk_document fuel text chunk_size overlap <> Some (Ok chunks).
Proof.
  intros Hov Hne. unfold chunk_document.
  apply chunk_loop_overlap; [exact Hov | apply nonempty_len, Hne].
Qed.

Lemma chunk_document_overlap_never_returns_witness :
  chunk_document 20 "abc" 1 5 <> Some (Ok ["a"; "b"; "c"]%string).
Proof.
  apply chunk_document_overlap_never_returns; [lia | discriminate].
Defined.

Example chunk_document_raises :
  chunk_document 20 "abc" 1 5 = Some (Raise IndexError).
Proof. vm_compute. reflexivity. Qed.

Lemma substring_zero_all (s : string) : substring 0 (String.length s) s = s.
Proof. induction s as [|c s IH]; cbn; [reflexivity | rewrite IH; reflexivity]. Qed.

Lemma substring_split (s : string) :
  forall a b, (a + b <= String.length s)%nat ->
    (substring 0 a s ++ substring a b s)%string = substring 0 (a + b) s.
Proof.
  induction s as [|c s IH]; intros a b Hab.
  - cbn in Hab. assert (a = 0%nat) by lia. assert (b = 0%nat) by lia. subst.
    reflexivity.
  - destruct a as [|a].
    + cbn [substring Nat.add]. destruct b; reflexivity.
    + cbn [substring Nat.add String.length] in *.
      change (String c (substring 0 a s) ++ substring a b s)%string
        with (String c (substring 0 a s ++ substring a b s)).
      rewrite IH by lia. reflexivity.
Qed.

Lemma substring_length_le (s : string) :
  forall a b, (String.length (substring a b s) <= b)%nat.
Proof.
  induction s as [|c s IH]; intros a b.
  - destruct a, b; cbn; lia.
  - destruct a as [|a]; [destruct b as [|b] |]; cbn; [lia | | apply IH].
    specialize (IH 0%nat b). lia.
Qed.

Lemma substring_length_exact (s : string) :
  forall a b, (a + b <= String.length s)%nat ->
              String.length (substring a b s) = b.
Proof.
  induction s as [|c s IH]; intros a b Hab.
  - cbn in Hab. assert (a = 0%nat) by lia. assert (b = 0%nat) by lia. subst.
    reflexivity.
  - destruct a as [|a]; [destruct b as [|b] |]; cbn in *;
      [reflexivity | rewrite IH by lia; reflexivity | apply IH; lia].
Qed.

Lemma slice_inside (text : string) (a b : Z) :
  0 <= a <= b -> b <= Py.len text ->
  Py.slice text a b = substring (Z.to_nat a) (Z.to_nat (b - a)) text.
Proof.
  intros Hab Hb. unfold Py.slice, Py.clamp.
  replace (a <? 0) with false by (symmetry; apply Z.ltb_ge; lia).
  replace (b <? 0) with false by (symmetry; apply Z.ltb_ge; lia).
  rewrite !Z.min_l by lia. reflexivity.
Qed.

(** One pass with [overlap = 0] from a position inside the text: it does not
    raise and cuts a non-empty chunk of at most [chunk_size + 1]
    characters. *)
Lemma chunk_body_no_overlap (text : string) (chunk_size start : Z)
    (chunks : list string) :
  0 < chunk_size ->
  0 <= start < Py.len text ->
  exists end1,
    chunk_body text chunk_size 0 start chunks
    = Ok (end1, chunks ++ [substring (Z.to_nat start) (Z.to_nat (end1 - start)) text])
    /\ start < end1 <= Py.len text
    /\ end1 - start <= chunk_size + 1.
Proof.
  intros Hcs [Hlo Hhi]. unfold chunk_body.
  remember (Z.min (start + chunk_size) (Py.len text)) as end0 eqn:Hend0.
  destruct (end0 <? Py.len text) eqn:Hlt.
  - apply Z.ltb_lt in Hlt.
    destruct (find_break_bounds text
                (Z.to_nat (end0 - Z.max (end0 - 100) start)) end0)
      as [b [Hb Hr]]; [lia | lia |].
    rewrite Hb, !bind_Ok.
    destruct b as [e|].
    + exists e. rewrite Z.sub_0_r, slice_inside by lia.
      split; [reflexivity | lia].
    + exists end0. rewrite Z.sub_0_r, slice_inside by lia.
      split; [reflexivity | lia].
  - apply Z.ltb_ge in Hlt. rewrite bind_Ok.
    exists end0. rewrite Z.sub_0_r, slice_inside by lia.
    split; [reflexivity | lia].
Qed.

Lemma append_assoc_s (a b c : string) :
  ((a ++ b) ++ c)%string = (a ++ b ++ c)%string.
Proof.
  induction a as [|x a IH]; [reflexivity |].
  change (String x ((a ++ b) ++ c) = String x (a ++ b ++ c)).
  rewrite IH. reflexivity.
Qed.

Lemma join_chunks_app (l1 l2 : list string) :
  join_chunks (l1 ++ l2) = (join_chunks l1 ++ join_chunks l2)%string.
Proof.
  induction l1 as [|c l1 IH]; [reflexivity |].
  change (c ++ join_chunks (l1 ++ l2) = (c ++ join_chunks l1) ++ join_chunks l2)%string.
  rewrite IH, append_assoc_s. reflexivity.
Qed.

Lemma append_empty_r (s : string) : (s ++ "")%string = s.
Proof.
  induction s as [|a s IH]; [reflexivity |].
  change (String a s ++ "")%string with (String a (s ++ "")). rewrite IH. reflexivity.
Qed.

Lemma chunk_loop_no_overlap (text : string) (chunk_size : Z) :
  0 < chunk_size ->
  forall fuel start chunks,
    0 <= start <= Py.len text ->
    Py.len text - start < Z.of_nat fuel ->
    join_chunks chunks = substring 0 (Z.to_nat start) text ->
    Forall (fun c => (0 < String.length c <= Z.to_nat (chunk_size + 1))%nat) chunks ->
    exists result,
      chunk_loop fuel text chunk_size 0 start chunks = Some (Ok result)
      /\ join_chunks result = text
      /\ Forall (fun c => (0 < String.length c <= Z.to_nat (chunk_size + 1))%nat) result.
Proof.
  intros Hcs. induction fuel as [|f IH]; intros start chunks Hs Hf Hjoin Hall; [lia |].
  cbn [chunk_loop]. destruct (start <? Py.len text) eqn:Hlt.
  - apply Z.ltb_lt in Hlt.
    destruct (chunk_body_no_overlap text chunk_size start chunks Hcs)
      as (end1 & Hb & Hend & Hsize); [lia |].
    rewrite Hb. unfold Py.len in *.
    apply IH; [lia | lia | |].
    + rewrite join_chunks_app, Hjoin. cbn [join_chunks fold_right].
      rewrite append_empty_r, substring_split by lia.
      f_equal. lia.
    + apply Forall_app. split; [exact Hall |]. constructor; [| constructor].
      rewrite substring_length_exact by lia. lia.
  - apply Z.ltb_ge in Hlt. exists chunks. split; [reflexivity |]. split; [| exact Hall].
    rewrite Hjoin. replace (Z.to_nat start) with (String.length text)
      by (unfold Py.len in *; lia).
    apply substring_zero_all.
Qed.

(** X2.  With [overlap = 0] and a positive chunk size, [chunk_document]
    returns after at most [len(text)] passes; the chunks are non-empty, at
    most [chunk_size + 1] characters long, and joined together they give the
    text back. *)
Theorem chunk_document_no_overlap_covers (text : string) (chunk_size : Z)
    (fuel : nat) :
  0 < chunk_size ->
  (String.length text < fuel)%nat ->
  exists chunks,
    chunk_document fuel text chunk_size 0 = Some (Ok chunks)
    /\ join_chunks chunks = text
    /\ Forall (fun c => (0 < String.length c <= Z.to_nat (chunk_size + 1))%nat) chunks.
Proof.
  intros Hcs Hfuel. unfold chunk_document.
  apply chunk_loop_no_overlap;
    [exact Hcs | | | destruct text; reflexivity | constructor];
    unfold Py.len; lia.
Qed.

Lemma chunk_document_no_overlap_covers_witness :
  exists chunks,
    chunk_document 12 "One. Two!" 5 0 = Some (Ok chunks)
    /\ join_chunks chunks = "One. Two!"%string
    /\ Forall (fun c => (0 < String.length c <= Z.to_nat (5 + 1))%nat) chunks.
Proof.
  apply chunk_document_no_overlap_covers; [lia | cbn; lia].
Defined.

Example chunk_document_no_overlap_example :
  chunk_document 12 "One. Two!" 5 0 = Some (Ok ["One."; " Two!"]%string).
Proof. vm_compute. reflexivity. Qed.

End ChunkerMore.

(** ** The keyword retriever: ids, index and scores *)

Module RetrieverMore.
Import Retriever RetrieverSpec IndexFacts SortFacts RetrieveFacts RankingFacts.

Lemma build_length ds : List.length (documents (build ds)) = List.length ds.
Proof.
  induction ds as [|d ds IH] using rev_ind; [reflexivity |].
  rewrite build_snoc. cbn [add_document fst documents].
  rewrite !length_app, IH. reflexivity.
Qed.

Lemma build_ids_generated ds :
  Forall (fun d => doc_id d = None) ds ->
  doc_id <$> documents (build ds)
  = (fun i => Some (Z.of_nat i)) <$> seq 0 (List.length ds).
Proof.
  induction ds as [|d ds IH] using rev_ind; intros Hall; [reflexivity |].
  apply Forall_app in Hall as [Hds Hd1]. inversion Hd1 as [|? ? Hd _]; subst.
  rewrite build_snoc. cbn [add_document fst documents].
  rewrite fmap_app, IH by exact Hds.
  rewrite length_app, Nat.add_comm. cbn [List.length Nat.add].
  rewrite seq_S, fmap_app. cbn [fmap list_fmap doc_id Nat.add].
  rewrite Hd, build_length. reflexivity.
Qed.

(** X3.  Documents handed to [add_document] without an id are stored under
    their positions 0, 1, 2, ...; these ids are pairwise distinct, so the
    index of such a collection is well formed. *)
Theorem build_generates_ids (ds : list document) :
  Forall (fun d => doc_id d = None) ds ->
  doc_id <$> documents (build ds)
  = (fun i => Some (Z.of_nat i)) <$> seq 0 (List.length ds)
  /\ NoDup (doc_id <$> documents (build ds))
  /\ index_ok (build ds).
Proof.
  intros Hall.
  assert (Hnd : NoDup (doc_id <$> documents (build ds))).
  { rewrite build_ids_generated by exact Hall.
    apply NoDup_fmap_2; [| apply NoDup_seq].
    intros i j [= Hij]. lia. }
  split; [apply build_ids_generated, Hall |].
  split; [exact Hnd | apply build_ok, Hnd].
Qed.

Lemma build_generates_ids_witness :
  doc_id <$> documents (build [RetrieverExamples.doc_no_id; RetrieverExamples.doc_no_id])
  = [Some 0; Some 1].
Proof.
  apply (build_generates_ids [RetrieverExamples.doc_no_id; RetrieverExamples.doc_no_id]).
  repeat constructor.
Defined.

(** X4.  After any sequence of [add_document] calls that leaves the stored
    ids distinct, [index[token][doc_id]] is the number of occurrences of the
    token among the tokens of the document, and a token that does not occur
    in a document has no entry for it. *)
Theorem index_counts_occurrences (ds : list document) (t : string)
    (d : document) (id : Z) :
  NoDup (doc_id <$> documents (build ds)) ->
  d ∈ documents (build ds) ->
  doc_id d = Some id ->
  alist_get t (index (build ds)) ≫= alist_get id
  = if (term_frequency t d =? 0)%nat then None else Some (term_frequency t d).
Proof.
  intros Hnd Hd Hid.
  pose proof (build_ok ds Hnd) as Hok.
  rewrite (ok_index _ Hok t).
  pose proof (posting_get (documents (build ds)) t d id Hnd Hd Hid) as Hget.
  unfold contains_token in Hget.
  destruct (posting_spec t (documents (build ds))) as [|e p] eqn:Hp.
  - cbn in Hget |- *. destruct (term_frequency t d =? 0)%nat; [reflexivity | discriminate].
  - cbn [wrap mbind option_bind]. rewrite Hget.
    destruct (term_frequency t d =? 0)%nat; reflexivity.
Qed.

Lemma index_counts_occurrences_witness :
  alist_get "alpha"%string (index RetrieverExamples.corpus3) ≫= alist_get 3
  = if (term_frequency "alpha" RetrieverExamples.doc3 =? 0)%nat then None
    else Some (term_frequency "alpha" RetrieverExamples.doc3).
Proof.
  apply (index_counts_occurrences
           [RetrieverExamples.doc1; RetrieverExamples.doc2; RetrieverExamples.doc3]).
  - exact RetrieveExamples.corpus3_ok.
  - change (RetrieverExamples.doc3
            ∈ [RetrieverExamples.doc1; RetrieverExamples.doc2; RetrieverExamples.doc3]).
    do 2 apply list_elem_of_further. apply list_elem_of_here.
  - reflexivity.
Defined.

Lemma ln_nonneg (x : R) : (1 <= x)%R -> (0 <= ln x)%R.
Proof.
  intros [Hlt | <-]; [| rewrite ln_1; lra].
  rewrite <- ln_1. left. apply ln_increasing; lra.
Qed.

Lemma document_frequency_bounds t (ds : list document) d :
  d ∈ ds -> contains_token t d = true ->
  (1 <= document_frequency t ds <= List.length ds)%nat.
Proof.
  intros Hd Hc. unfold document_frequency. split.
  - assert (Hin : d ∈ List.filter (contains_token t) ds).
    { apply list_elem_of_In, filter_In. split; [apply list_elem_of_In, Hd | exact Hc]. }
    destruct (List.filter (contains_token t) ds); [inversion Hin | cbn; lia].
  - apply List.filter_length_le.
Qed.

Lemma tfidf_nonneg (ds : list document) t d :
  d ∈ ds -> contains_token t d = true -> (0 <= tfidf ds t d)%R.
Proof.
  intros Hd Hc. unfold tfidf. cbn -[INR ln].
  destruct (document_frequency_bounds t ds d Hd Hc) as [H1 H2].
  assert (0 <= INR (term_frequency t d))%R by apply pos_INR.
  assert (0 <= ln (INR (List.length ds) / INR (document_frequency t ds)))%R.
  { apply ln_nonneg.
    assert (0 < INR (document_frequency t ds))%R by (apply lt_0_INR; lia).
    apply (Rmult_le_reg_r (INR (document_frequency t ds))); [assumption |].
    unfold Rdiv. rewrite Rmult_assoc, Rinv_l by lra.
    rewrite Rmult_1_l, Rmult_1_r. apply le_INR. lia. }
  apply Rmult_le_pos; assumption.
Qed.

Lemma tfidf_sum_nonneg (ds : list document) qts d :
  d ∈ ds -> (0 <= tfidf_sum ds qts d)%R.
Proof.
  intros Hd. unfold tfidf_sum.
  assert (H0 : (0 <= float_of_nat (F := R) 0)%R) by (cbn; lra).
  revert H0. generalize (float_of_nat (F := R) 0).
  induction qts as [|t ts IH]; intros acc Hacc; cbn [fold_left];
    [exact Hacc |].
  apply IH. destruct (contains_token t d) eqn:Hc; [| exact Hacc].
  pose proof (tfidf_nonneg ds t d Hd Hc) as Ht. cbn -[tfidf]. lra.
Qed.

Lemma result_ids_scan {F : Type} {A : Arith F} r query top_k id :
  index_ok r -> id ∈ result_ids r query top_k ->
  id ∈ scan_order (documents r) (_tokenize query).
Proof.
  intros Hok Hid.
  destruct (result_ids_sublist r query top_k Hok) as (l & Hperm & Hsub & _).
  rewrite <- Hperm. eapply elem_of_sublist; eassumption.
Qed.

(** X5.  No relevance score is negative: each matching token contributes
    its term frequency times ln(N / df) with 1 <= df <= N. *)
Theorem retrieve_scores_nonnegative (ds : list document) (query : string)
    (top_k : Z) :
  NoDup (doc_id <$> documents (build ds)) ->
  Forall (fun e => (0 <= snd e)%R) (retrieve (build ds) query top_k).
Proof.
  intros Hnd. pose proof (build_ok ds Hnd) as Hok.
  rewrite retrieve_fmap by exact Hok.
  apply Forall_fmap, Forall_forall. intros id Hid.
  apply (result_ids_scan _ _ _ _ Hok) in Hid.
  destruct (result_entry_spec real_laws _ _ _ Hok Hid)
    as (d & Hd & _ & _ & Heq).
  unfold compose. rewrite Heq. apply tfidf_sum_nonneg, Hd.
Qed.

Lemma retrieve_scores_nonnegative_witness :
  Forall (fun e => (0 <= snd e)%R)
    (retrieve RetrieverExamples.corpus3 "alpha" default_top_k).
Proof.
  apply (retrieve_scores_nonnegative
           [RetrieverExamples.doc1; RetrieverExamples.doc2; RetrieverExamples.doc3]).
  exact RetrieveExamples.corpus3_ok.
Defined.

Lemma count_token_pos t ts : t ∈ ts -> (0 < count_token t ts)%nat.
Proof.
  induction ts as [|u ts IH]; intros Hin; [inversion Hin |].
  cbn [count_token]. destruct (decide (t = u)); [lia |].
  apply elem_of_cons in Hin as [? | Hin]; [contradiction |].
  specialize (IH Hin). lia.
Qed.

Lemma contains_token_iff t d : contains_token t d = true <-> t ∈ doc_tokens d.
Proof.
  split; [apply contains_token_elem |].
  intros Hin. unfold contains_token, term_frequency.
  apply count_token_pos in Hin.
  destruct (count_token t (doc_tokens d)); [lia | reflexivity].
Qed.

Lemma scan_order_intro (ds : list document) qts t d id :
  t ∈ qts -> d ∈ ds -> doc_id d = Some id -> contains_token t d = true ->
  id ∈ scan_order ds qts.
Proof.
  intros Ht Hd Hid Hc. unfold scan_order.
  apply fold_add_key_elem. right.
  apply list_elem_of_In, in_flat_map. exists t.
  split; [apply list_elem_of_In, Ht |].
  apply list_elem_of_In. unfold alist_keys.
  apply (list_elem_of_fmap_2 fst _ (id, term_frequency t d)).
  eapply posting_spec_elem; eassumption.
Qed.

Lemma take_py_nil {A} k (l : list A) : 0 < k -> take_py k l = [] -> l = [].
Proof.
  intros Hk. unfold take_py.
  replace (k <? 0) with false by (symmetry; apply Z.ltb_ge; lia).
  destruct l as [|x l]; [reflexivity |].
  destruct (Z.to_nat k) eqn:Hn; [lia | discriminate].
Qed.

(** X6.  For a well-formed index and a positive [top_k], [retrieve]
    returns the empty list exactly when no query token occurs in any stored
    document. *)
Theorem retrieve_empty_iff (ds : list document) (query : string) (top_k : Z) :
  NoDup (doc_id <$> documents (build ds)) ->
  0 < top_k ->
  retrieve (build ds) query top_k = []
  <-> (forall t d, t ∈ _tokenize query -> d ∈ documents (build ds) ->
                   t ∉ doc_tokens d).
Proof.
  intros Hnd Hk. pose proof (build_ok ds Hnd) as Hok.
  rewrite retrieve_fmap by exact Hok. split.
  - intros Hnil t d Ht Hd Hin.
    apply fmap_nil_inv in Hnil.
    destruct (result_ids_sublist _ query top_k Hok) as (l & Hperm & _ & Hl).
    unfold result_ids in Hnil.
    rewrite (compute_scores_keys _ _ Hok), <- Hl in Hnil.
    apply take_py_nil in Hnil; [| exact Hk].
    rewrite Hnil in Hperm. apply Permutation_nil_l in Hperm.
    pose proof (ok_ids _ Hok) as Hids.
    rewrite Forall_forall in Hids. destruct (Hids d Hd) as [id Hid].
    assert (Hs : id ∈ scan_order (documents (build ds)) (_tokenize query)).
    { eapply scan_order_intro; eauto. apply contains_token_iff, Hin. }
    rewrite <- Hperm in Hs. inversion Hs.
  - intros Hnone.
    destruct (result_ids (build ds) query top_k) as [|id ids] eqn:Hr;
      [reflexivity | exfalso].
    assert (Hid : id ∈ result_ids (build ds) query top_k)
      by (rewrite Hr; apply list_elem_of_here).
    apply (result_ids_scan _ _ _ _ Hok) in Hid.
    apply scan_order_elem in Hid as (d & t & Hd & _ & Ht & Hc).
    apply (Hnone t d Ht Hd), contains_token_iff, Hc.
Qed.

Lemma retrieve_empty_iff_witness :
  retrieve RetrieverExamples.corpus3 "delta" default_top_k = []
  <-> (forall t d, t ∈ _tokenize "delta" -> d ∈ documents RetrieverExamples.corpus3 ->
                   t ∉ doc_tokens d).
Proof.
  apply (retrieve_empty_iff
           [RetrieverExamples.doc1; RetrieverExamples.doc2; RetrieverExamples.doc3]).
  - exact RetrieveExamples.corpus3_ok.
  - reflexivity.
Defined.

End RetrieverMore.

(** ** The constructor of [KeywordRetriever] *)

Module RetrieverObjectsFacts.
Import Retriever RetrieverObjects.

Lemma add_document_ref_length o ref :
  List.length (doc_refs (fst (add_document_ref o ref)))
  = S (List.length (doc_refs o)).
Proof. cbn [add_document_ref fst doc_refs]. rewrite length_app. cbn. lia. Qed.

Lemma init_loop_runs fuel :
  forall i o, (i < List.length (doc_refs o))%nat -> init_loop fuel i o = None.
Proof.
  induction fuel as [|f IH]; intros i o Hi; [reflexivity |].
  cbn [init_loop].
  destruct (lookup_lt_is_Some_2 (doc_refs o) i Hi) as [ref Href].
  rewrite Href. apply IH. rewrite add_document_ref_length. lia.
Qed.

Lemma init_iter_length n o :
  doc_refs o <> [] ->
  List.length (doc_refs (init_iter n o)) = (List.length (doc_refs o) + n)%nat.
Proof.
  intros Hne. induction n as [|k IH]; [cbn; lia |].
  cbn [init_iter].
  assert (Hk : (k < List.length (doc_refs (init_iter k o)))%nat).
  { rewrite IH. destruct (doc_refs o); [contradiction | cbn; lia]. }
  destruct (lookup_lt_is_Some_2 _ k Hk) as [ref Href].
  rewrite Href, add_document_ref_length, IH. lia.
Qed.

(** X7.  [KeywordRetriever(documents)] with a non-empty list never
    returns: [self.documents] is that list, every pass of the constructor's
    loop appends to it, and the iterator never reaches its end; after [n]
    passes the list holds [n] more entries.  With no list or an empty one
    the constructor returns an empty retriever at once. *)
Theorem keyword_retriever_init_never_returns (h : nat -> document)
    (refs : list nat) (fuel : nat) :
  refs <> [] ->
  KeywordRetriever_init fuel h (Some refs) = None
  /\ (forall n,
        List.length
          (doc_refs (init_iter n {| heap := h; doc_refs := refs; obj_index := [] |}))
        = (List.length refs + n)%nat)
  /\ KeywordRetriever_init 0 h (Some [])
     = Some {| heap := h; doc_refs := []; obj_index := [] |}
  /\ KeywordRetriever_init 0 h None
     = Some {| heap := h; doc_refs := []; obj_index := [] |}.
Proof.
  intros Hne. split; [| split; [| split; reflexivity]].
  - destruct refs as [|ref refs]; [contradiction |].
    cbn [KeywordRetriever_init]. apply init_loop_runs. cbn. lia.
  - intros n. apply (init_iter_length n {| heap := h; doc_refs := refs; obj_index := [] |}).
    exact Hne.
Qed.

Lemma keyword_retriever_init_never_returns_witness :
  KeywordRetriever_init 100 (fun _ => mk_doc 7 "alpha") (Some [0%nat]) = None.
Proof.
  apply (keyword_retriever_init_never_returns (fun _ => mk_doc 7 "alpha") [0%nat] 100).
  discriminate.
Defined.

End RetrieverObjectsFacts.

(** ** The combined retriever *)

Module CombinedFacts.
Import Retriever RetrieverSpec IndexFacts SortFacts RetrieveFacts RankingFacts.
Import RetrieverMore Combined.

Lemma unique_results_first {F : Type} seen l (x : document * F) :
  x ∈ unique_results seen l ->
  (doc_id (fst x) ∉ seen) /\ first_with_id l x = Some x.
Proof.
  rename x into e.
  revert seen. induction l as [|r rest IH]; intros seen He; [inversion He |].
  cbn [unique_results] in He. unfold first_with_id. cbn [List.find].
  destruct (decide (doc_id (fst r) ∈ seen)) as [Hin | Hnin].
  - destruct (IH _ He) as [Hs Hf]. split; [exact Hs |].
    rewrite bool_decide_eq_false_2 by congruence. exact Hf.
  - apply elem_of_cons in He as [-> | He].
    + split; [exact Hnin |]. rewrite bool_decide_eq_true_2 by reflexivity. reflexivity.
    + destruct (IH _ He) as [Hs Hf].
      apply not_elem_of_union in Hs as [Hs1 Hs2].
      apply not_elem_of_singleton in Hs1.
      split; [exact Hs2 |].
      rewrite bool_decide_eq_false_2 by congruence. exact Hf.
Qed.

Lemma unique_results_NoDup {F : Type} seen (l : list (document * F)) :
  NoDup ((fun e => doc_id (fst e)) <$> unique_results seen l).
Proof.
  revert seen. induction l as [|r rest IH]; intros seen; [constructor |].
  cbn [unique_results].
  destruct (decide (doc_id (fst r) ∈ seen)); [apply IH |].
  rewrite fmap_cons. constructor; [| apply IH].
  intros Hin. apply list_elem_of_fmap in Hin as (e & Heq & He).
  apply unique_results_first in He as [Hs _].
  apply Hs, elem_of_union_l, elem_of_singleton. symmetry. exact Heq.
Qed.

Lemma unique_results_id {F : Type} seen (l : list (document * F)) :
  NoDup ((fun e => doc_id (fst e)) <$> l) ->
  (forall e, e ∈ l -> doc_id (fst e) ∉ seen) ->
  unique_results seen l = l.
Proof.
  revert seen. induction l as [|r rest IH]; intros seen Hnd Hs; [reflexivity |].
  cbn [unique_results]. rewrite fmap_cons in Hnd. apply NoDup_cons in Hnd as [Hr Hnd].
  destruct (decide (doc_id (fst r) ∈ seen)) as [Hin | _].
  - exfalso. apply (Hs r); [apply list_elem_of_here | exact Hin].
  - f_equal. apply IH; [exact Hnd |].
    intros e He Hin. apply elem_of_union in Hin as [Hin | Hin].
    + apply elem_of_singleton in Hin. apply Hr.
      rewrite <- Hin. apply (list_elem_of_fmap_2 (fun e => doc_id (fst e))), He.
    + apply (Hs e); [apply list_elem_of_further, He | exact Hin].
Qed.

Lemma take_py_all {A} k (l : list A) :
  Z.of_nat (List.length l) <= k -> take_py k l = l.
Proof.
  intros Hk. unfold take_py.
  replace (k <? 0) with false by (symmetry; apply Z.ltb_ge; lia).
  apply firstn_all2. lia.
Qed.

Lemma fold_add_key_keeps_NoDup l :
  forall acc, NoDup acc -> NoDup (fold_left add_key l acc).
Proof.
  induction l as [|x l IH]; intros acc Hacc; [exact Hacc |].
  cbn [fold_left]. apply IH. unfold add_key.
  destruct (decide (x ∈ acc)); [exact Hacc |].
  apply NoDup_app. split; [exact Hacc |]. split; [| apply NoDup_singleton].
  intros y Hy Hy'. apply list_elem_of_singleton in Hy'. subst. contradiction.
Qed.

Lemma retrieve_ids {F : Type} {A : Arith F} (HA : arith_laws A) r query top_k :
  index_ok r ->
  (fun e => doc_id (fst e)) <$> Retriever.retrieve r query top_k
  = Some <$> result_ids r query top_k.
Proof.
  intros Hok. rewrite retrieve_fmap by exact Hok.
  rewrite <- list_fmap_compose. apply Forall_fmap_ext_1, Forall_forall.
  intros id Hid. apply (result_ids_scan _ _ _ _ Hok) in Hid.
  destruct (result_entry_spec HA _ _ _ Hok Hid) as (d & _ & Hd & _ & Heq).
  unfold compose. rewrite Heq. exact Hd.
Qed.

Lemma result_ids_NoDup {F : Type} {A : Arith F} r query top_k :
  index_ok r -> NoDup (result_ids r query top_k).
Proof.
  intros Hok.
  destruct (result_ids_sublist r query top_k Hok) as (l & Hperm & Hsub & _).
  eapply sublist_NoDup; [| exact Hsub]. rewrite Hperm.
  unfold scan_order. apply fold_add_key_keeps_NoDup. constructor.
Qed.

(** X8.  Whatever its member retrievers hold, [CombinedRetriever.retrieve]
    returns results with pairwise distinct ids, in descending order of
    score, at most [top_k] of them for [top_k >= 0]; and each result is the
    first one with its id in the concatenation of the members' results: a
    document found by several members is reported with the score of the
    first of them, not the highest. *)
Theorem combined_retrieve_properties (retrievers : list retriever)
    (query : string) (top_k : Z) :
  let res := Combined.retrieve retrievers query top_k in
  NoDup ((fun e => doc_id (fst e)) <$> res)
  /\ StronglySorted (fun a b => (snd b <= snd a)%R) res
  /\ (forall e, e ∈ res ->
        first_with_id (all_results retrievers query top_k) e = Some e)
  /\ (0 <= top_k -> Z.of_nat (List.length res) <= top_k).
Proof.
  cbn zeta. unfold Combined.retrieve.
  set (U := unique_results ∅ (all_results retrievers query top_k)).
  pose proof (take_py_sublist top_k (sorted_desc snd U)) as Hsub.
  split; [| split; [| split]].
  - eapply sublist_NoDup; [| apply fmap_sublist, Hsub].
    rewrite (sorted_desc_perm snd U). apply unique_results_NoDup.
  - eapply StronglySorted_sublist; [exact Hsub |].
    eapply StronglySorted_weaken; [| apply (sorted_desc_sorted snd real_laws)].
    cbn. intros a b Hab. lra.
  - intros e He. eapply elem_of_sublist in He; [| exact Hsub].
    rewrite (sorted_desc_perm snd U) in He.
    apply unique_results_first in He as [_ Hf]. exact Hf.
  - apply take_py_length.
Qed.

(** X9.  A combined retriever with a single keyword retriever whose index
    is well formed returns exactly what that retriever returns. *)
Theorem combined_retrieve_single (ds : list document) (query : string)
    (top_k : Z) :
  NoDup (doc_id <$> documents (build ds)) ->
  0 <= top_k ->
  Combined.retrieve [build ds] query top_k
  = Retriever.retrieve (build ds) query top_k.
Proof.
  intros Hnd Hk. pose proof (build_ok ds Hnd) as Hok.
  destruct (retrieve_properties real_laws (build ds) query top_k Hok Hk)
    as (_ & Hsorted & _ & _ & Hlen).
  unfold Combined.retrieve, all_results. cbn [flat_map]. rewrite app_nil_r.
  rewrite unique_results_id.
  - rewrite sorted_desc_fixed by exact Hsorted. apply take_py_all, Hlen.
  - rewrite (retrieve_ids real_laws) by exact Hok.
    apply NoDup_fmap_2; [intros a b [= ->]; reflexivity |].
    apply result_ids_NoDup, Hok.
  - intros e _. apply not_elem_of_empty.
Qed.

Lemma combined_retrieve_single_witness :
  Combined.retrieve [RetrieverExamples.corpus3] "alpha" default_top_k
  = Retriever.retrieve RetrieverExamples.corpus3 "alpha" default_top_k.
Proof.
  apply (combined_retrieve_single
           [RetrieverExamples.doc1; RetrieverExamples.doc2; RetrieverExamples.doc3]).
  - exact RetrieveExamples.corpus3_ok.
  - unfold default_top_k. lia.
Defined.

Lemma add_document_documents r d :
  documents (fst (Retriever.add_document r d))
  = documents r
    ++ [{| doc_id := Some (default (Z.of_nat (List.length (documents r))) (doc_id d));
           doc_filename := doc_filename d;
           doc_content := doc_content d |}].
Proof. reflexivity. Qed.

Lemma combined_add_rest rs :
  forall d id,
    doc_id d = Some id ->
    let out := Combined.add_document rs d in
    snd (fst out) = d
    /\ Forall2 (fun r r' => documents r' = documents r ++ [d]) rs (fst (fst out)).
Proof.
  induction rs as [|r rs IH]; intros d id Hid; cbn zeta;
    [split; [reflexivity | constructor] |].
  cbn [Combined.add_document].
  destruct (Retriever.add_document r d) as [r' ok] eqn:Hadd.
  assert (Hdocs : documents r' = documents r ++ [d]).
  { change r' with (fst (r', ok)). rewrite <- Hadd, add_document_documents.
    rewrite Hid. cbn [from_option Datatypes.id]. destruct d as [i f c].
    cbn in Hid |- *. rewrite Hid. reflexivity. }
  rewrite Hdocs, last_snoc. cbn [from_option Datatypes.id].
  destruct (IH d id Hid) as [Hd Hall].
  destruct (Combined.add_document rs d) as [[rest' d''] success].
  cbn [fst snd] in *. split; [exact Hd |]. constructor; assumption.
Qed.

(** X10.  [CombinedRetriever.add_document] hands the same [dict] to every
    member: the first member writes the id (the document's own, or the
    number of documents the first member holds), and every member appends
    the document under that id, whatever it holds itself. *)
Theorem combined_add_document_shares_id (r1 : retriever) (rs : list retriever)
    (d : document) :
  let out := Combined.add_document (r1 :: rs) d in
  let d' := snd (fst out) in
  doc_id d' = Some (default (Z.of_nat (List.length (documents r1))) (doc_id d))
  /\ doc_filename d' = doc_filename d
  /\ doc_content d' = doc_content d
  /\ Forall2 (fun r r' => documents r' = documents r ++ [d'])
       (r1 :: rs) (fst (fst out)).
Proof.
  cbn zeta. cbn [Combined.add_document].
  destruct (Retriever.add_document r1 d) as [r' ok] eqn:Hadd.
  assert (Hdocs : documents r' = documents (fst (Retriever.add_document r1 d)))
    by (rewrite Hadd; reflexivity).
  rewrite add_document_documents in Hdocs.
  rewrite Hdocs, last_snoc. cbn [from_option Datatypes.id].
  set (d1 := {| doc_id := Some (default (Z.of_nat (List.length (documents r1))) (doc_id d));
                doc_filename := doc_filename d; doc_content := doc_content d |}) in *.
  destruct (combined_add_rest rs d1 _ eq_refl) as [Hd Hall].
  destruct (Combined.add_document rs d1) as [[rest' d''] success].
  cbn [fst snd] in *. subst d''.
  split; [reflexivity |]. split; [reflexivity |]. split; [reflexivity |].
  constructor; assumption.
Qed.

(** The same document added to an empty retriever and to one that already
    holds a document with id 0: the second now holds two documents with
    id 0, and its query for the older one returns the newer one. *)
Example combined_add_document_clash :
  let rs := fst (fst (Combined.add_document
                        [empty; build [mk_doc 0 "alpha"]]
                        RetrieverExamples.doc_no_id)) in
  doc_id <$> (rs ≫= documents) = [Some 0; Some 0; Some 0]
  /\ exists s,
      Combined.retrieve rs "alpha" default_top_k
      = [({| doc_id := Some 0; doc_filename := ""; doc_content := CStr "beta" |}, s)].
Proof.
  cbn zeta. split; [vm_compute; reflexivity |].
  eexists. unfold Combined.retrieve, all_results.
  cbv -[ln Rplus Rmult Rdiv Rinv INR Rlt_dec]. reflexivity.
Qed.

End CombinedFacts.

(** ** The file index: round trips and the directory listings *)

Module FileIndexMore.
Import FileIndex FileIndexSpec FileIndexFacts.

Lemma add_file_present (md5 abspath : string -> string) (fs : FS.t) now path
    info idx f :
  fs !! abspath path = Some f ->
  add_file md5 abspath fs now path info idx
  = (_save_index now
       {| version := version idx; last_updated := last_updated idx;
          files := <[abspath path := record_of md5 now (abspath path) info f]>
                     (files idx);
          directories := add_to_directory (Path.dirname (abspath path))
                           (abspath path) (directories idx) |}, None).
Proof.
  intros Hf. unfold add_file.
  rewrite (get_file_hash_present md5 fs _ f Hf).
  unfold FS.getsize. rewrite Hf. reflexivity.
Qed.

Lemma add_file_absent (md5 abspath : string -> string) (fs : FS.t) now path
    info idx :
  fs !! abspath path = None ->
  add_file md5 abspath fs now path info idx = (idx, Some FileNotFoundError).
Proof.
  intros Hf. unfold add_file.
  rewrite (get_file_hash_absent md5 fs _ Hf). reflexivity.
Qed.

(** X11.  When [add_file] has completed, the file was found on disk and
    [get_file_info] returns a record with the absolute path, its base name,
    the hash of the file, the time of the call, the type and metadata of
    the extraction result (["unknown"] and none when missing) and the size
    of the file; the records of all other paths are as before, and the
    index carries the time of the call. *)
Theorem add_file_then_get_file_info (md5 abspath : string -> string)
    (fs : FS.t) (now : Z) (path : string) (info : file_info)
    (idx idx' : index_t) :
  add_file md5 abspath fs now path info idx = (idx', None) ->
  exists f,
    fs !! abspath path = Some f
    /\ get_file_info abspath path idx'
       = Some (record_of md5 now (abspath path) info f)
    /\ (forall other, abspath other <> abspath path ->
          get_file_info abspath other idx' = get_file_info abspath other idx)
    /\ last_updated idx' = now.
Proof.
  intros Hadd. destruct (fs !! abspath path) as [f|] eqn:Hf.
  - rewrite (add_file_present md5 abspath fs now path info idx f Hf) in Hadd.
    injection Hadd as <-. exists f. split; [reflexivity |].
    unfold get_file_info. cbn [files _save_index last_updated].
    split; [apply lookup_insert_eq |]. split; [| reflexivity].
    intros other Hne. apply lookup_insert_ne. congruence.
  - rewrite (add_file_absent md5 abspath fs now path info idx Hf) in Hadd.
    discriminate.
Qed.

Lemma add_file_then_get_file_info_witness :
  exists f,
    FileIndexExamples.fs_a !! FileIndexExamples.abspath_id "/docs/a.txt" = Some f
    /\ get_file_info FileIndexExamples.abspath_id "/docs/a.txt"
         FileIndexExamples.idx_a
       = Some (record_of FileIndexExamples.digest_id 1
                 (FileIndexExamples.abspath_id "/docs/a.txt")
                 FileIndexExamples.info_a f)
    /\ (forall other,
          FileIndexExamples.abspath_id other
          <> FileIndexExamples.abspath_id "/docs/a.txt" ->
          get_file_info FileIndexExamples.abspath_id other FileIndexExamples.idx_a
          = get_file_info FileIndexExamples.abspath_id other (_create_empty_index 0))
    /\ last_updated FileIndexExamples.idx_a = 1.
Proof.
  apply (add_file_then_get_file_info FileIndexExamples.digest_id
           FileIndexExamples.abspath_id FileIndexExamples.fs_a 1 "/docs/a.txt"
           FileIndexExamples.info_a (_create_empty_index 0)).
  reflexivity.
Defined.

(** X12.  [add_file] for a path that is not on disk raises
    [FileNotFoundError] (from [os.path.getmtime] in [_get_file_hash]) before
    anything has been changed: the index is left as it was. *)
Theorem add_file_missing_raises (md5 abspath : string -> string)
    (fs : FS.t) (now : Z) (path : string) (info : file_info) (idx : index_t) :
  fs !! abspath path = None ->
  add_file md5 abspath fs now path info idx = (idx, Some FileNotFoundError).
Proof. apply add_file_absent. Qed.

Lemma add_file_missing_raises_witness :
  add_file FileIndexExamples.digest_id FileIndexExamples.abspath_id
    FileIndexExamples.fs_a 1 "/docs/none.txt" FileIndexExamples.info_a
    (_create_empty_index 0)
  = (_create_empty_index 0, Some FileNotFoundError).
Proof.
  apply (add_file_missing_raises FileIndexExamples.digest_id
           FileIndexExamples.abspath_id FileIndexExamples.fs_a 1
           "/docs/none.txt" FileIndexExamples.info_a (_create_empty_index 0)).
  reflexivity.
Defined.

Lemma add_to_directory_lists directory abs_path dirs :
  exists e, add_to_directory directory abs_path dirs !! directory = Some e
            /\ abs_path ∈ dir_files e.
Proof.
  unfold add_to_directory.
  destruct (dirs !! directory) as [e0|] eqn:Hd.
  - rewrite Hd. destruct (decide (abs_path ∈ dir_files e0)) as [Hin|Hin].
    + eauto.
    + eexists. rewrite lookup_insert_eq. split; [reflexivity |].
      cbn [dir_files]. apply elem_of_app. right. apply list_elem_of_here.
  - rewrite lookup_insert_eq. cbn [dir_files].
    rewrite decide_False by apply not_elem_of_nil.
    eexists. rewrite lookup_insert_eq. split; [reflexivity |].
    cbn [dir_files]. apply list_elem_of_here.
Qed.

Lemma list_remove_first_other x l p :
  p <> x -> p ∈ l -> p ∈ list_remove_first x l.
Proof.
  intros Hne. induction l as [|y l IH]; intros Hin; [inversion Hin |].
  cbn [list_remove_first]. destruct (decide (x = y)) as [<-|Hxy].
  - apply elem_of_cons in Hin as [? | Hin]; [contradiction | exact Hin].
  - apply elem_of_cons in Hin as [-> | Hin];
      [apply list_elem_of_here | apply list_elem_of_further, IH, Hin].
Qed.

Lemma remove_file_keeps_listed (abspath : string -> string) now path idx p :
  p <> abspath path -> listed idx p -> listed (remove_file abspath now path idx) p.
Proof.
  intros Hne (d & e & Hd & Hin). unfold listed, remove_file.
  cbn [directories _save_index].
  destruct (directories idx !! Path.dirname (abspath path)) as [e0|] eqn:Hd0;
    [| eauto].
  destruct (decide (abspath path ∈ dir_files e0)) as [Hin0|]; [| eauto].
  destruct (decide (d = Path.dirname (abspath path))) as [->|Hd'].
  - eexists _, _. rewrite lookup_insert_eq. split; [reflexivity |].
    cbn [dir_files]. apply list_remove_first_other; [exact Hne |]. congruence.
  - exists d, e. rewrite lookup_insert_ne by congruence. auto.
Qed.

Lemma reachable_files_listed (md5 abspath : string -> string) idx :
  reachable md5 abspath idx -> files_listed idx.
Proof.
  induction 1 as [now | fs now path info idx idx' Hr IH Hadd
                 | now path idx Hr IH | now idx Hr IH].
  - intros p [r Hp]. cbn in Hp. rewrite lookup_empty in Hp. discriminate.
  - intros p Hp.
    destruct (add_file_completed md5 abspath fs now path info idx idx' Hadd)
      as (f & record & _ & _ & Hfiles & Hdirs).
    destruct (decide (p = abspath path)) as [->|Hne].
    + destruct (add_to_directory_lists (Path.dirname (abspath path))
                  (abspath path) (directories idx)) as (e & He & Hin).
      exists (Path.dirname (abspath path)), e. rewrite Hdirs. auto.
    + rewrite Hfiles, lookup_insert_ne in Hp by congruence.
      eapply BuilderFacts.add_file_keeps_records; [exact Hadd | apply IH, Hp].
  - intros p Hp. rewrite remove_file_files in Hp.
    destruct (decide (p = abspath path)) as [->|Hne].
    + rewrite lookup_delete_eq in Hp. destruct Hp; discriminate.
    + rewrite lookup_delete_ne in Hp by congruence.
      apply remove_file_keeps_listed; [exact Hne | apply IH, Hp].
  - intros p [r Hp]. cbn in Hp. rewrite lookup_empty in Hp. discriminate.
Qed.

(** X13.  In every index reached through [add_file], [remove_file] and
    [clear_index], the records and the directory listings agree: a path has
    a record exactly when it is listed, it is listed under its own
    directory, and [get_files_in_directory] returns exactly the records of
    the paths lying directly in that directory. *)
Theorem records_and_listings_agree (md5 abspath : string -> string)
    (idx : index_t) :
  reachable md5 abspath idx ->
  (forall p, is_Some (files idx !! p) <-> listed idx p)
  /\ (forall p, is_Some (files idx !! p) ->
        exists e, directories idx !! Path.dirname p = Some e /\ p ∈ dir_files e)
  /\ (forall directory r,
        r ∈ get_files_in_directory abspath directory idx
        <-> exists p, files idx !! p = Some r
                      /\ Path.dirname p = abspath directory).
Proof.
  intros Hr.
  destruct (reachable_wf md5 abspath idx Hr) as [Hb Hp].
  pose proof (reachable_files_listed md5 abspath idx Hr) as Hl.
  assert (Hown : forall p, is_Some (files idx !! p) ->
            exists e, directories idx !! Path.dirname p = Some e /\ p ∈ dir_files e).
  { intros p Hrec. destruct (Hl p Hrec) as (d & e & Hd & Hin).
    destruct (Hp d e Hd) as [_ Hdir]. rewrite (Hdir p Hin). eauto. }
  split; [| split; [exact Hown |]].
  - intros p. split; [apply Hl |]. intros (d & e & Hd & Hin). eapply Hb; eauto.
  - intros directory r. unfold get_files_in_directory. split.
    + destruct (directories idx !! abspath directory) as [e|] eqn:Hd;
        [| intros Hin; inversion Hin].
      intros Hin. apply list_elem_of_omap in Hin as (p & Hin & Hrec).
      exists p. split; [exact Hrec |]. destruct (Hp _ e Hd) as [_ Hdir].
      apply Hdir, Hin.
    + intros (p & Hrec & Hdir).
      destruct (Hown p) as (e & Hd & Hin); [eauto |].
      rewrite Hdir in Hd. rewrite Hd.
      apply list_elem_of_omap. eauto.
Qed.

Lemma records_and_listings_agree_witness :
  is_Some (files FileIndexExamples.idx_a !! "/docs/a.txt"%string)
  <-> listed FileIndexExamples.idx_a "/docs/a.txt".
Proof.
  apply (records_and_listings_agree FileIndexExamples.digest_id
           FileIndexExamples.abspath_id).
  exact FileIndexClaims.idx_a_reachable.
Defined.

Lemma list_remove_first_last x l :
  x ∉ l -> list_remove_first x (l ++ [x]) = l.
Proof.
  induction l as [|y l IH]; intros Hx; cbn [list_remove_first app].
  - rewrite decide_True by reflexivity. reflexivity.
  - apply not_elem_of_cons in Hx as [Hxy Hx].
    rewrite decide_False by exact Hxy. rewrite IH by exact Hx. reflexivity.
Qed.

(** X14.  Adding a file that has no record and removing it again gives
    back the same records and the same listing of every directory that had
    an entry; but [remove_file] never removes a directory entry: the
    directory of the file keeps an entry, empty if [add_file] had created
    it. *)
Theorem add_then_remove_file (md5 abspath : string -> string) (fs : FS.t)
    (now now' : Z) (path : string) (info : file_info) (idx idx' : index_t) :
  reachable md5 abspath idx ->
  files idx !! abspath path = None ->
  add_file md5 abspath fs now path info idx = (idx', None) ->
  let idx'' := remove_file abspath now' path idx' in
  files idx'' = files idx
  /\ (forall d, d <> Path.dirname (abspath path) ->
        directories idx'' !! d = directories idx !! d)
  /\ listing idx'' (Path.dirname (abspath path))
     = Some (default [] (listing idx (Path.dirname (abspath path)))).
Proof.
  intros Hr Hnone Hadd. cbn zeta.
  destruct (reachable_wf md5 abspath idx Hr) as [Hb _].
  destruct (add_file_completed md5 abspath fs now path info idx idx' Hadd)
    as (f & record & _ & _ & Hfiles & Hdirs).
  set (ap := abspath path) in *. set (dir := Path.dirname ap) in *.
  assert (Hfresh : forall e, directories idx !! dir = Some e -> ap ∉ dir_files e).
  { intros e He Hin. destruct (Hb dir e ap He Hin) as [r Hrec]. congruence. }
  split; [| split].
  - rewrite remove_file_files. fold ap. rewrite Hfiles.
    apply delete_insert_id, Hnone.
  - intros d Hd. unfold remove_file. cbn [directories _save_index]. fold ap dir.
    rewrite Hdirs.
    assert (Hsame : add_to_directory dir ap (directories idx) !! d
                    = directories idx !! d).
    { unfold add_to_directory. destruct (directories idx !! dir) as [e0|] eqn:Hd0.
      - rewrite Hd0. destruct (decide (ap ∈ dir_files e0)); [reflexivity |].
        apply lookup_insert_ne. congruence.
      - rewrite lookup_insert_eq. cbn [dir_files].
        rewrite decide_False by apply not_elem_of_nil.
        rewrite !lookup_insert_ne by congruence. reflexivity. }
    destruct (add_to_directory dir ap (directories idx) !! dir) as [e1|];
      [| exact Hsame].
    destruct (decide (ap ∈ dir_files e1)); [| exact Hsame].
    rewrite lookup_insert_ne by congruence. exact Hsame.
  - unfold listing, remove_file. cbn [directories _save_index]. fold ap dir.
    rewrite Hdirs. unfold add_to_directory.
    destruct (directories idx !! dir) as [e0|] eqn:Hd0.
    + rewrite Hd0. rewrite decide_False by (apply Hfresh; reflexivity).
      rewrite lookup_insert_eq. cbn [dir_files].
      rewrite decide_True by (apply elem_of_app; right; apply list_elem_of_here).
      rewrite lookup_insert_eq. cbn [fmap option_fmap option_map dir_files].
      rewrite list_remove_first_last by (apply Hfresh; reflexivity).
      reflexivity.
    + rewrite lookup_insert_eq. cbn [dir_files].
      rewrite decide_False by apply not_elem_of_nil.
      rewrite lookup_insert_eq. cbn [dir_files app].
      rewrite decide_True by apply list_elem_of_here.
      rewrite lookup_insert_eq. cbn [fmap option_fmap option_map dir_files].
      cbn [list_remove_first]. rewrite decide_True by reflexivity. reflexivity.
Qed.

Lemma add_then_remove_file_witness :
  files (remove_file FileIndexExamples.abspath_id 2 "/docs/a.txt"
           FileIndexExamples.idx_a)
  = files (_create_empty_index 0)
  /\ listing (remove_file FileIndexExamples.abspath_id 2 "/docs/a.txt"
                FileIndexExamples.idx_a)
       (Path.dirname (FileIndexExamples.abspath_id "/docs/a.txt"))
     = Some [].
Proof.
  destruct (add_then_remove_file FileIndexExamples.digest_id
              FileIndexExamples.abspath_id FileIndexExamples.fs_a 1 2
              "/docs/a.txt" FileIndexExamples.info_a (_create_empty_index 0)
              FileIndexExamples.idx_a) as (Hfiles & _ & Hlist).
  - apply reach_empty.
  - reflexivity.
  - exact FileIndexClaims.add_a.
  - split; [exact Hfiles | exact Hlist].
Defined.

End FileIndexMore.

(** ** The batch processor: jobs, results and progress *)

Module BatchMoreFacts.
Import FileIndex Batch BatchMore BatchFacts.

Lemma settled_refl j : settled j j.
Proof. unfold settled. auto. Qed.

Lemma Forall2_settled_refl jobs : Forall2 settled jobs jobs.
Proof. induction jobs; constructor; auto using settled_refl. Qed.

Lemma Forall2_settled_insert processed jobs i j :
  Forall2 settled processed jobs ->
  jobs !! i = Some j ->
  Forall2 settled processed (<[i := fail j "callback error"]> jobs).
Proof.
  intros Hall. revert i. induction Hall as [|j0 j1 p js Hs Hall IH]; intros i Hi;
    [discriminate |].
  destruct i as [|i]; cbn in Hi |- *.
  - injection Hi as ->. constructor; [| exact Hall].
    destruct Hs as (Hn & Ht & _). unfold settled. cbn. auto.
  - constructor; [exact Hs | apply IH, Hi].
Qed.

Section AnyCallback.
Context {S : Type}.

Lemma handle_completed_settled (callback : option (callback_t S)) processed st i st' r :
  handle_completed callback st i = (st', r) ->
  Forall2 settled processed (ls_jobs st) ->
  Forall2 settled processed (ls_jobs st').
Proof.
  unfold handle_completed. intros H Hall.
  destruct (ls_jobs st !! i) as [j|] eqn:Hj; [| injection H as <- _; exact Hall].
  destruct callback as [cb|]; [| injection H as <- _; exact Hall].
  destruct (cb (to_dict j) (ls_client st)) as [s1 [e1|]];
    [| injection H as <- _; exact Hall].
  destruct (cb (to_dict (fail j "callback error")) s1) as [s2 r2].
  injection H as <- _. cbn [ls_jobs].
  apply Forall2_settled_insert; assumption.
Qed.

Lemma collect_settled (callback : option (callback_t S)) processed order :
  forall st st' r,
    collect callback order st = (st', r) ->
    Forall2 settled processed (ls_jobs st) ->
    Forall2 settled processed (ls_jobs st').
Proof.
  induction order as [|i rest IH]; intros st st' r H Hall.
  - injection H as <- _. exact Hall.
  - cbn [collect] in H.
    destruct (handle_completed callback st i) as [st1 [e|]] eqn:Hh.
    + injection H as <- _. eapply handle_completed_settled; eauto.
    + eapply IH; [exact H |]. eapply handle_completed_settled; eauto.
Qed.

Lemma process_directory_settled ex listing (callback : option (callback_t S))
    order s :
  Forall2 settled (_process_file ex <$> initial_jobs listing)
    (ls_jobs (fst (process_directory ex listing callback order s))).
Proof.
  unfold process_directory.
  destruct (collect callback order _) as [st' r] eqn:Hc.
  eapply collect_settled; [exact Hc |]. apply Forall2_settled_refl.
Qed.

End AnyCallback.

Lemma settled_terminal ex j0 j : settled (_process_file ex j0) j -> terminal j.
Proof.
  intros (_ & _ & [-> | Hf]); [apply process_file_terminal | right; exact Hf].
Qed.

Lemma process_file_file_type ex j :
  job_file_type (_process_file ex j) = job_file_type j.
Proof.
  unfold _process_file.
  destruct (extract ex _ _) as [[r|]|e]; try reflexivity.
  destruct (_ || _); [| reflexivity].
  destruct (get_document_metadata ex _); reflexivity.
Qed.

Lemma settled_jobs_shape ex listing jobs :
  Forall2 settled (_process_file ex <$> initial_jobs listing) jobs ->
  job_filename <$> jobs = listing
  /\ job_file_type <$> jobs = get_file_type <$> listing
  /\ Forall terminal jobs.
Proof.
  revert jobs. induction listing as [|name listing IH]; intros jobs Hall.
  - inversion Hall; subst. repeat split; constructor.
  - unfold initial_jobs in Hall. rewrite !fmap_cons in Hall.
    inversion Hall as [|j0 j p js Hs Hrest]; subst.
    destruct (IH js Hrest) as (Hn & Ht & Hterm).
    pose proof (settled_terminal _ _ _ Hs) as Hj.
    destruct Hs as (Hname & Htype & _).
    rewrite process_file_filename in Hname.
    rewrite process_file_file_type in Htype. cbn in Hname, Htype.
    rewrite !fmap_cons, Hn, Ht, Hname, Htype.
    repeat split; [constructor; assumption].
Qed.

(** X15.  Whatever the callback does and in whatever order the jobs are
    handled, [process_directory] leaves one job per listed file, in listing
    order, with the file's name and type, and every job is completed or
    failed. *)
Theorem process_directory_jobs {S : Type} (ex : extractor)
    (listing : list string) (callback : option (callback_t S))
    (order : list nat) (s : S) :
  let jobs := ls_jobs (fst (process_directory ex listing callback order s)) in
  job_filename <$> jobs = listing
  /\ job_file_type <$> jobs = get_file_type <$> listing
  /\ Forall terminal jobs.
Proof.
  cbn zeta. eapply settled_jobs_shape, process_directory_settled.
Qed.


Lemma omap_ext_elem {A B} (f g : A -> option B) (l : list A) :
  (forall x, x ∈ l -> f x = g x) -> omap f l = omap g l.
Proof.
  induction l as [|x l IH]; intros H; [reflexivity |].
  cbn [omap list_omap]. rewrite (H x) by apply list_elem_of_here.
  rewrite IH; [reflexivity |]. intros y Hy. apply H, list_elem_of_further, Hy.
Qed.

Lemma omap_bind_lookup {A B} (f : A -> option B) (l : list A) (order : list nat) :
  omap (fun i => l !! i ≫= f) order = omap f (omap (fun i => l !! i) order).
Proof.
  induction order as [|i order IH]; [reflexivity |].
  cbn [omap list_omap]. destruct (l !! i) as [x|]; cbn [mbind option_bind];
    [| exact IH].
  cbn [omap list_omap]. destruct (f x); rewrite IH; reflexivity.
Qed.

Lemma omap_completed_length ex listing :
  List.length (omap completed_result (_process_file ex <$> initial_jobs listing))
  = count_status Completed (_process_file ex <$> initial_jobs listing).
Proof.
  induction listing as [|name listing IH]; [reflexivity |].
  unfold initial_jobs in *. rewrite !fmap_cons, count_status_cons.
  cbn [omap list_omap]. unfold completed_result at 1.
  set (j := _process_file ex (new_job name (get_file_type name))).
  destruct (decide (job_status j = Completed)) as [Hc | Hc].
  - destruct (BuilderFacts.process_file_result ex _ Hc) as [r Hr].
    fold j in Hr. rewrite Hc, Hr. cbn [List.length]. rewrite IH. reflexivity.
  - destruct (job_status j); try contradiction; exact IH.
Qed.

Lemma settled_completed_le processed jobs :
  Forall2 settled processed jobs ->
  (count_status Completed jobs <= count_status Completed processed)%nat.
Proof.
  induction 1 as [|j0 j p js Hs Hall IH]; [reflexivity |].
  rewrite !count_status_cons. destruct Hs as (_ & _ & [-> | Hf]).
  - lia.
  - rewrite Hf. rewrite (decide_False (P := Failed = Completed)) by discriminate.
    destruct (decide (job_status j0 = Completed)); lia.
Qed.

Section Results.
Context {S : Type}.

Lemma handle_completed_results (callback : option (callback_t S)) st i st' r :
  handle_completed callback st i = (st', r) ->
  ls_results st'
  = ls_results st ++ option_list (ls_jobs st !! i ≫= completed_result)
  /\ forall k, k <> i -> ls_jobs st' !! k = ls_jobs st !! k.
Proof.
  unfold handle_completed. intros H.
  destruct (ls_jobs st !! i) as [j|] eqn:Hj.
  - cbn [mbind option_bind]. unfold completed_result.
    assert (Hres : match job_status j, job_result j with
                   | Completed, Some r0 => ls_results st ++ [r0]
                   | _, _ => ls_results st
                   end
                   = ls_results st
                     ++ option_list match job_status j, job_result j with
                                    | Completed, Some r0 => Some r0
                                    | _, _ => None
                                    end).
    { destruct (job_status j), (job_result j); cbn [option_list];
        rewrite ?app_nil_r; reflexivity. }
    rewrite Hres in H. clear Hres.
    destruct callback as [cb|].
    + destruct (cb (to_dict j) (ls_client st)) as [s1 [e1|]].
      * destruct (cb (to_dict (fail j "callback error")) s1) as [s2 r2].
        injection H as <- _. cbn [ls_results ls_jobs]. split; [reflexivity |].
        intros k Hk. apply list_lookup_insert_ne. congruence.
      * injection H as <- _. cbn [ls_results ls_jobs]. auto.
    + injection H as <- _. cbn [ls_results ls_jobs]. auto.
  - injection H as <- _. cbn [mbind option_bind option_list].
    rewrite app_nil_r. auto.
Qed.

Lemma collect_results (callback : option (callback_t S)) order :
  forall st st',
    NoDup order ->
    collect callback order st = (st', None) ->
    ls_results st'
    = ls_results st ++ omap (fun i => ls_jobs st !! i ≫= completed_result) order.
Proof.
  induction order as [|i rest IH]; intros st st' Hnd H.
  - injection H as <-. cbn. rewrite app_nil_r. reflexivity.
  - cbn [collect] in H. apply NoDup_cons in Hnd as [Hi Hnd].
    destruct (handle_completed callback st i) as [st1 [e|]] eqn:Hh; [discriminate |].
    destruct (handle_completed_results _ _ _ _ _ Hh) as [Hres Hjobs].
    rewrite (IH _ _ Hnd H), Hres, <- app_assoc. f_equal.
    cbn [omap list_omap].
    rewrite (omap_ext_elem (fun k => ls_jobs st1 !! k ≫= completed_result)
               (fun k => ls_jobs st !! k ≫= completed_result)).
    + destruct (ls_jobs st !! i ≫= completed_result); reflexivity.
    + intros k Hk. rewrite Hjobs; [reflexivity |]. intros ->. contradiction.
Qed.

End Results.

(** X16.  When the batch ends without an exception, the list it returns
    holds the results of the files the workers completed, in the order in
    which the jobs were handled.  A job that the loop marks failed after a
    callback error keeps its result in that list, so the list can be longer
    than the number of jobs that are completed at the end. *)
Theorem process_directory_results {S : Type} (ex : extractor)
    (listing : list string) (callback : option (callback_t S))
    (order : list nat) (s : S) :
  order ≡ₚ seq 0 (List.length listing) ->
  snd (process_directory ex listing callback order s) = None ->
  let out := process_directory ex listing callback order s in
  let processed := _process_file ex <$> initial_jobs listing in
  ls_results (fst out)
  = omap (fun i => processed !! i ≫= completed_result) order
  /\ List.length (ls_results (fst out)) = count_status Completed processed
  /\ (count_status Completed (ls_jobs (fst out))
      <= List.length (ls_results (fst out)))%nat.
Proof.
  intros Hperm Hnone. cbn zeta.
  pose proof (process_directory_settled ex listing callback order s) as Hset.
  unfold process_directory in *.
  destruct (collect callback order _) as [st' r] eqn:Hc.
  cbn [fst snd] in *. subst r.
  assert (Hnd : NoDup order) by (rewrite Hperm; apply NoDup_seq).
  pose proof (collect_results callback order _ _ Hnd Hc) as Hres.
  cbn [ls_results ls_jobs app] in Hres.
  assert (Hlen : List.length (ls_results st')
                 = count_status Completed (_process_file ex <$> initial_jobs listing)).
  { rewrite Hres, omap_bind_lookup, <- omap_completed_length.
    apply Permutation_length.
    apply (omap_Permutation completed_result).
    apply omap_lookup_perm.
    rewrite Hperm. unfold initial_jobs. rewrite !length_fmap. reflexivity. }
  split; [exact Hres |]. split; [exact Hlen |].
  rewrite Hlen. apply settled_completed_le, Hset.
Qed.

Lemma process_directory_results_witness :
  let out := process_directory BatchExamples.ex_plain BatchExamples.two_files
               (Some BatchExamples.cb_raise_on_completed) [0; 1]%nat tt in
  List.length (ls_results (fst out)) = 1%nat
  /\ count_status Completed (ls_jobs (fst out)) = 0%nat.
Proof.
  destruct (process_directory_results BatchExamples.ex_plain
              BatchExamples.two_files
              (Some BatchExamples.cb_raise_on_completed) [0; 1]%nat tt)
    as (_ & Hlen & _).
  - reflexivity.
  - reflexivity.
  - cbn zeta. split; [rewrite Hlen |]; reflexivity.
Defined.

Lemma count_status_partition jobs :
  (count_status Completed jobs + count_status Failed jobs
   + count_status Processing jobs + count_status Pending jobs)%nat
  = List.length jobs.
Proof.
  induction jobs as [|j jobs IH]; [reflexivity |].
  rewrite !count_status_cons. cbn [List.length].
  destruct (job_status j);
    repeat (destruct (decide _) as [?|?]; try discriminate; try contradiction);
    lia.
Qed.

(** X17.  In the report of [get_progress] the four counts add up to the
    total, and the progress fraction lies between 0 and 1. *)
Theorem progress_counts (jobs : list job) :
  let p := get_progress jobs in
  completed p + failed p + processing p + pending p = total p
  /\ (0 <= progress p <= 1)%Q.
Proof.
  cbn zeta. pose proof (count_status_partition jobs) as Hpart.
  unfold get_progress.
  cbn [total completed failed processing pending progress].
  split; [lia |].
  remember (Z.of_nat (count_status Completed jobs)
            + Z.of_nat (count_status Failed jobs)) as done eqn:Hdone.
  remember (Z.of_nat (List.length jobs)) as t eqn:Ht.
  assert (Hrange : 0 <= done <= t) by lia.
  destruct (t >? 0) eqn:Hpos.
  - destruct t as [|t|t]; try discriminate.
    unfold Qle, Qdiv, Qmult, Qinv, inject_Z. cbn. split; lia.
  - split; unfold Qle; cbn; lia.
Qed.

Lemma settled_jobs_typed ex listing jobs :
  Forall2 settled (_process_file ex <$> initial_jobs listing) jobs ->
  Forall (fun j => job_file_type j = get_file_type (job_filename j)) jobs.
Proof.
  revert jobs. induction listing as [|name listing IH]; intros jobs Hall.
  - inversion Hall; subst. constructor.
  - unfold initial_jobs in Hall. rewrite !fmap_cons in Hall.
    inversion Hall as [|j0 j p js Hs Hrest]; subst.
    constructor; [| apply IH, Hrest].
    destruct Hs as (Hname & Htype & _).
    rewrite process_file_filename in Hname.
    rewrite process_file_file_type in Htype. cbn in Hname, Htype.
    congruence.
Qed.

Lemma find_filename_Some name jobs j :
  List.find (fun j => String.eqb (job_filename j) name) jobs = Some j ->
  j ∈ jobs /\ job_filename j = name.
Proof.
  intros H. apply find_some in H as [Hin Heq].
  split; [apply list_elem_of_In, Hin | apply String.eqb_eq, Heq].
Qed.

Lemma find_filename_None name jobs :
  List.find (fun j => String.eqb (job_filename j) name) jobs = None ->
  name ∉ job_filename <$> jobs.
Proof.
  intros H Hin. apply list_elem_of_fmap in Hin as (j & -> & Hj).
  apply list_elem_of_In in Hj.
  pose proof (find_none _ _ H j Hj) as Hne. cbn in Hne.
  rewrite String.eqb_refl in Hne. discriminate.
Qed.

(** X18.  After a batch, [get_job_status] answers for exactly the listed
    files: for a listed name it returns a job with that name, the type of
    the name and a terminal status; for any other name it returns
    nothing. *)
Theorem get_job_status_after_batch {S : Type} (ex : extractor)
    (listing : list string) (callback : option (callback_t S))
    (order : list nat) (s : S) (name : string) :
  let jobs := ls_jobs (fst (process_directory ex listing callback order s)) in
  (name ∈ listing ->
   exists j, get_job_status name jobs = Some j
             /\ job_filename j = name
             /\ job_file_type j = get_file_type name
             /\ terminal j)
  /\ (name ∉ listing -> get_job_status name jobs = None).
Proof.
  cbn zeta.
  pose proof (process_directory_settled ex listing callback order s) as Hset.
  destruct (settled_jobs_shape _ _ _ Hset) as (Hnames & _ & Hterm).
  pose proof (settled_jobs_typed _ _ _ Hset) as Htyped.
  set (jobs := ls_jobs (fst (process_directory ex listing callback order s))) in *.
  unfold get_job_status, to_dict.
  destruct (List.find _ jobs) as [j|] eqn:Hfind.
  - apply find_filename_Some in Hfind as [Hin Hname]. split.
    + intros _. exists j. rewrite Forall_forall in Hterm, Htyped.
      split; [destruct j; reflexivity |]. split; [exact Hname |].
      split; [rewrite <- Hname; apply Htyped, Hin | apply Hterm, Hin].
    + intros Hout. exfalso. apply Hout. rewrite <- Hnames, <- Hname.
      apply (list_elem_of_fmap_2 job_filename), Hin.
  - apply find_filename_None in Hfind. rewrite Hnames in Hfind. split.
    + intros Hin. contradiction.
    + intros _. reflexivity.
Qed.

Lemma process_file_agrees_any (ex : extractor) (filename ft : string) :
  let j := _process_file ex (new_job filename ft) in
  let direct :=
    (if String.eqb ft "text" then
       content ← read_text ex filename; Ok (mk_result filename content "text")
     else if String.eqb ft "json" then
       content ← read_json ex filename; Ok (mk_result filename content "json")
     else if String.eqb ft "csv" then
       content ← read_csv ex filename; Ok (mk_result filename content "csv")
     else if String.eqb ft "pdf" && pdf_available ex then
       Ok (mk_result filename (extract_text_from_pdf ex filename) "pdf")
     else if String.eqb ft "docx" && docx_available ex then
       Ok (mk_result filename (extract_text_from_docx ex filename) "docx")
     else
       Ok (mk_result filename ("Unsupported file type: " ++ ft) "unknown")) in
  (forall e, direct = Raise e -> job_status j = Failed)
  /\ (forall r, direct = Ok r -> fi_type r = Some "unknown"%string ->
        job_status j = Failed /\ job_error j = Some (fi_content r))
  /\ (forall r, direct = Ok r ->
        ((fi_type r = Some "pdf"%string \/ fi_type r = Some "docx"%string) ->
         match get_document_metadata ex filename with
         | Ok metadata =>
             job_status j = Completed
             /\ job_result j = Some (with_metadata r metadata)
         | Raise _ => job_status j = Failed
         end)
        /\ ((fi_type r = Some "text"%string \/ fi_type r = Some "json"%string
             \/ fi_type r = Some "csv"%string) ->
            job_status j = Completed /\ job_result j = Some r)).
Proof.
  cbn zeta. unfold _process_file, extract.
  cbn [start new_job job_filename job_file_type].
  destruct (String.eqb ft "text") eqn:H1.
  { apply String.eqb_eq in H1. subst ft. cbn [String.eqb Ascii.eqb Bool.eqb orb].
    destruct (read_text ex filename) as [c|e0]; rewrite ?bind_Ok, ?bind_Raise;
      (split; [| split]); try discriminate; intros r; intros [= <-];
      try discriminate; cbn; split; [intros [|]; discriminate | auto]. }
  destruct (String.eqb ft "json") eqn:H2.
  { apply String.eqb_eq in H2. subst ft. cbn [String.eqb Ascii.eqb Bool.eqb orb].
    destruct (read_json ex filename) as [c|e0]; rewrite ?bind_Ok, ?bind_Raise;
      (split; [| split]); try discriminate; intros r; intros [= <-];
      try discriminate; cbn; split; [intros [|]; discriminate | auto]. }
  destruct (String.eqb ft "csv") eqn:H3.
  { apply String.eqb_eq in H3. subst ft. cbn [String.eqb Ascii.eqb Bool.eqb orb].
    destruct (read_csv ex filename) as [c|e0]; rewrite ?bind_Ok, ?bind_Raise;
      (split; [| split]); try discriminate; intros r; intros [= <-];
      try discriminate; cbn; split; [intros [|]; discriminate | auto]. }
  destruct (String.eqb ft "pdf" && pdf_available ex) eqn:H4.
  { apply andb_true_iff in H4 as [H4 _]. rewrite H4. cbn [orb].
    split; [| split]; try discriminate; intros r; intros [= <-];
      try discriminate.
    split; [| intros [|[|]]; discriminate]. intros _.
    destruct (get_document_metadata ex filename) as [m|e0]; cbn; auto. }
  destruct (String.eqb ft "docx" && docx_available ex) eqn:H5.
  { apply andb_true_iff in H5 as [H5 _]. rewrite H5, orb_true_r.
    split; [| split]; try discriminate; intros r; intros [= <-];
      try discriminate.
    split; [| intros [|[|]]; discriminate]. intros _.
    destruct (get_document_metadata ex filename) as [m|e0]; cbn; auto. }
  split; [| split]; try discriminate; intros r; intros [= <-].
  - intros _. cbn. auto.
  - split; [intros [|] | intros [|[|]]]; discriminate.
Qed.

(** X19.  [FileProcessor.process_file] and the worker
    [BatchProcessor._process_file] dispatch alike on a file.  When the
    first raises, the job fails.  When the first reports an unsupported
    type, the job fails with that very message.  When the first returns a
    PDF or DOCX result, the job depends on [get_document_metadata]: if it
    raises, the job fails; if it returns, the job is completed with that
    result extended by the metadata.  When the first returns a text, JSON
    or CSV result, the job is completed with exactly that result. *)
Theorem process_file_agrees (ex : extractor) (filename : string) :
  let j := _process_file ex (new_job filename (get_file_type filename)) in
  (forall e, process_file ex filename = Raise e -> job_status j = Failed)
  /\ (forall r, process_file ex filename = Ok r -> fi_type r = Some "unknown"%string ->
        job_status j = Failed /\ job_error j = Some (fi_content r))
  /\ (forall r, process_file ex filename = Ok r ->
        ((fi_type r = Some "pdf"%string \/ fi_type r = Some "docx"%string) ->
         match get_document_metadata ex filename with
         | Ok metadata =>
             job_status j = Completed
             /\ job_result j = Some (with_metadata r metadata)
         | Raise _ => job_status j = Failed
         end)
        /\ ((fi_type r = Some "text"%string \/ fi_type r = Some "json"%string
             \/ fi_type r = Some "csv"%string) ->
            job_status j = Completed /\ job_result j = Some r)).
Proof.
  exact (process_file_agrees_any ex filename (get_file_type filename)).
Qed.

(** X20.  [is_supported_document] holds of a file name exactly when
    [process_file] treats the file as a PDF or DOCX document. *)
Theorem is_supported_document_iff (ex : extractor) (filename : string) :
  is_supported_document ex filename = true
  <-> exists r, process_file ex filename = Ok r
                /\ (fi_type r = Some "pdf"%string \/ fi_type r = Some "docx"%string).
Proof.
  unfold is_supported_document, process_file, get_file_type.
  destruct (String.eqb (suffix filename) ".txt") eqn:H1.
  { apply String.eqb_eq in H1. rewrite H1. cbn [String.eqb Ascii.eqb Bool.eqb].
    split; [discriminate |]. intros (r & Hr & Ht).
    destruct (read_text ex filename); rewrite ?bind_Ok, ?bind_Raise in Hr;
      [injection Hr as <-; destruct Ht; discriminate | discriminate]. }
  destruct (String.eqb (suffix filename) ".json") eqn:H2.
  { apply String.eqb_eq in H2. rewrite H2. cbn [String.eqb Ascii.eqb Bool.eqb].
    split; [discriminate |]. intros (r & Hr & Ht).
    destruct (read_json ex filename); rewrite ?bind_Ok, ?bind_Raise in Hr;
      [injection Hr as <-; destruct Ht; discriminate | discriminate]. }
  destruct (String.eqb (suffix filename) ".csv") eqn:H3.
  { apply String.eqb_eq in H3. rewrite H3. cbn [String.eqb Ascii.eqb Bool.eqb].
    split; [discriminate |]. intros (r & Hr & Ht).
    destruct (read_csv ex filename); rewrite ?bind_Ok, ?bind_Raise in Hr;
      [injection Hr as <-; destruct Ht; discriminate | discriminate]. }
  destruct (String.eqb (suffix filename) ".pdf") eqn:H4.
  { cbn [String.eqb Ascii.eqb Bool.eqb andb].
    destruct (pdf_available ex).
    - split; [eauto | reflexivity].
    - split; [discriminate |]. intros (r & [= <-] & [Ht | Ht]); discriminate. }
  destruct (String.eqb (suffix filename) ".docx") eqn:H5.
  { cbn [String.eqb Ascii.eqb Bool.eqb andb].
    destruct (docx_available ex).
    - split; [eauto | reflexivity].
    - split; [discriminate |]. intros (r & [= <-] & [Ht | Ht]); discriminate. }
  cbn [String.eqb Ascii.eqb Bool.eqb andb].
  split; [discriminate |]. intros (r & [= <-] & [Ht | Ht]); discriminate.
Qed.

End BatchMoreFacts.

(** ** The index builder: exceptions, counts and shadowed files *)

Module BuilderMore.
Import FileIndex Batch Builder FileIndexFacts BatchFacts BuilderFacts.
Import BatchMore BatchMoreFacts FileIndexMore.

Section WithEnvironment.
Variable md5 : string -> string.
Variable abspath : string -> string.

Lemma file_needs_update_raises (fs : FS.t) p idx e :
  file_needs_update md5 abspath fs p idx = Raise e
  <-> is_Some (files idx !! abspath p) /\ fs !! abspath p = None
      /\ e = FileNotFoundError.
Proof.
  unfold file_needs_update.
  destruct (files idx !! abspath p) as [record|] eqn:Hrec.
  - destruct (fs !! abspath p) as [f|] eqn:Hf.
    + rewrite (get_file_hash_present md5 fs _ f Hf), bind_Ok.
      split; [discriminate | intros (_ & ? & _); discriminate].
    + rewrite (get_file_hash_absent md5 fs _ Hf), bind_Raise.
      split; [intros [= <-]; eauto | intros (_ & _ & ->); reflexivity].
  - split; [discriminate | intros ([? ?] & _); discriminate].
Qed.

Lemma select_files_raises (fs : FS.t) force idx paths e :
  select_files md5 abspath fs force idx paths = Raise e
  <-> force = false /\ e = FileNotFoundError
      /\ exists p, p ∈ paths /\ is_Some (files idx !! abspath p)
                   /\ fs !! abspath p = None.
Proof.
  revert e. induction paths as [|p paths IH]; intros e; cbn [select_files].
  - split; [discriminate |]. intros (_ & _ & q & Hq & _). inversion Hq.
  - destruct force.
    + destruct (select_files md5 abspath fs true idx paths) as [sel|e'] eqn:Hrest.
      * split; [discriminate | intros (? & _); discriminate].
      * destruct (proj1 (IH e') eq_refl) as (? & _). discriminate.
    + destruct (file_needs_update md5 abspath fs p idx) as [b|e'] eqn:Hp.
      * destruct (select_files md5 abspath fs false idx paths) as [sel|e''] eqn:Hrest.
        -- split; [discriminate |]. intros (_ & -> & q & Hq & Hrec & Hf).
           apply elem_of_cons in Hq as [-> | Hq].
           ++ assert (Hr : file_needs_update md5 abspath fs p idx
                           = Raise FileNotFoundError)
                by (apply file_needs_update_raises; auto).
              congruence.
           ++ assert (Hr : Ok sel = Raise FileNotFoundError)
                by (apply IH; eauto 10).
              discriminate.
        -- destruct (proj1 (IH e'') eq_refl) as (_ & -> & q & Hq & Hrec & Hf). split.
           ++ intros [= <-]. repeat split; try reflexivity.
              exists q. split; [apply list_elem_of_further, Hq | auto].
           ++ intros (_ & -> & _). reflexivity.
      * apply file_needs_update_raises in Hp as (Hrec & Hf & ->). split.
        -- intros [= <-]. repeat split; try reflexivity.
           exists p. split; [apply list_elem_of_here | auto].
        -- intros (_ & -> & _). reflexivity.
Qed.

Lemma handle_completed_update_index_quiet E F st i st' r :
  handle_completed (Some (update_index md5 abspath E F)) st i = (st', r) ->
  r = None.
Proof.
  unfold handle_completed.
  destruct (ls_jobs st !! i) as [j|]; [| intros [= _ <-]; reflexivity].
  destruct (update_index md5 abspath E F (to_dict j) (ls_client st))
    as [s1 [e1|]]; [| intros [= _ <-]; reflexivity].
  unfold update_index at 1. cbn [to_dict fail job_status].
  intros [= _ <-]. reflexivity.
Qed.

Lemma collect_update_index_quiet E F order :
  forall st st' r,
    collect (Some (update_index md5 abspath E F)) order st = (st', r) ->
    r = None.
Proof.
  induction order as [|i rest IH]; intros st st' r H.
  - injection H as _ <-. reflexivity.
  - cbn [collect] in H.
    destruct (handle_completed _ st i) as [st1 r1] eqn:Hh.
    apply handle_completed_update_index_quiet in Hh. subst r1.
    eapply IH, H.
Qed.

Lemma index_directory_raises E directory force st st' e :
  index_directory md5 abspath E directory force st = (st', Raise e)
  <-> st' = st
      /\ ((force = false /\ e = FileNotFoundError
           /\ exists p, p ∈ walk E directory
                        /\ is_Some (files (fst st) !! abspath p)
                        /\ disk E !! abspath p = None)
          \/ (staging_error E = Some e
              /\ exists F,
                  select_files md5 abspath (disk E) force (fst st)
                    (walk E directory) = Ok F
                  /\ F <> [])).
Proof.
  destruct st as [idx jobs]. unfold index_directory. cbn [fst].
  destruct (select_files md5 abspath (disk E) force idx (walk E directory))
    as [F|e0] eqn:Hsel.
  - assert (Hno : ~ (force = false
                     /\ exists p, p ∈ walk E directory
                                  /\ is_Some (files idx !! abspath p)
                                  /\ disk E !! abspath p = None)).
    { intros (Hf & Hp).
      assert (Hr : select_files md5 abspath (disk E) force idx (walk E directory)
                   = Raise FileNotFoundError)
        by (apply select_files_raises; auto).
      congruence. }
    destruct F as [|f0 F0].
    { split; [discriminate |].
      intros (_ & [(Hf & _ & Hp) | (_ & F & [= <-] & HF)]);
        [exfalso; apply Hno; auto | congruence]. }
    destruct (staging_error E) as [e0|] eqn:Hstage.
    { split.
      - intros [= <- <-]. split; [reflexivity |]. right.
        split; [reflexivity |]. eexists. split; [reflexivity | discriminate].
      - intros (-> & [(Hf & _ & Hp) | ([= ->] & _)]);
          [exfalso; apply Hno; auto | reflexivity]. }
    split.
    + destruct (process_directory _ _ _ _ _) as [ls [e1|]] eqn:Hpd;
        [| discriminate].
      unfold process_directory in Hpd.
      apply collect_update_index_quiet in Hpd. discriminate.
    + intros (_ & [(Hf & _ & Hp) | (Hs & _)]);
        [exfalso; apply Hno; auto | discriminate].
  - apply select_files_raises in Hsel as (-> & -> & Hp). split.
    + intros [= <- <-]. split; [reflexivity |]. left. auto.
    + intros (-> & [(_ & -> & _) | (_ & F & HF & _)]);
        [reflexivity | discriminate].
Qed.

End WithEnvironment.

(** X21.  [index_directory] raises in exactly two cases, both before any
    job has been created, so that the index and the processor's jobs are
    as before.  Either [force_update] is false and some walked path has a
    record but is not on the disk: [file_needs_update] raises
    [FileNotFoundError].  Or some file is to be indexed and creating,
    clearing or listing the staging directory raises.  Whatever happens
    afterwards is absorbed: the collecting loop catches every exception of
    the [update_index] callback. *)
Theorem index_directory_raises_iff (md5 abspath : string -> string) (E : env)
    (directory : string) (force : bool) (st st' : index_t * list job)
    (e : exn) :
  index_directory md5 abspath E directory force st = (st', Raise e)
  <-> st' = st
      /\ ((force = false /\ e = FileNotFoundError
           /\ exists p, p ∈ walk E directory
                        /\ is_Some (files (fst st) !! abspath p)
                        /\ disk E !! abspath p = None)
          \/ (staging_error E = Some e
              /\ exists F,
                  select_files md5 abspath (disk E) force (fst st)
                    (walk E directory) = Ok F
                  /\ F <> [])).
Proof. apply index_directory_raises. Qed.

Example index_directory_dangling :
  index_directory FileIndexExamples.digest_id FileIndexExamples.abspath_id
    BuilderMoreExamples.E_dangling "/docs" false (FileIndexExamples.idx_a, [])
  = ((FileIndexExamples.idx_a, []), Raise FileNotFoundError).
Proof. vm_compute. reflexivity. Qed.

Lemma filter_split_length {A} (f : A -> bool) (l : list A) :
  (List.length (List.filter f l)
   + List.length (List.filter (fun x => negb (f x)) l))%nat = List.length l.
Proof.
  induction l as [|x l IH]; [reflexivity |].
  cbn [List.filter]. destruct (f x); cbn [negb List.length]; lia.
Qed.

Lemma staged_listing_bound E F :
  lists_all E ->
  Z.of_nat (List.length (staged_listing E F)) + stage_errors E F
  <= Z.of_nat (List.length F).
Proof.
  intros Hall. unfold staged_listing, stage_errors.
  set (B := Path.basename <$> List.filter (stage_ok E) F).
  pose proof (List.filter_length_le (isfile E) (listdir E (remove_dups B))) as H1.
  pose proof (Permutation_length (Hall (remove_dups B))) as H2.
  pose proof (remove_dups_length B) as H3.
  assert (H5 : List.length B = List.length (List.filter (stage_ok E) F))
    by (unfold B; apply length_fmap).
  pose proof (filter_split_length (stage_ok E) F) as H6.
  lia.
Qed.

Lemma index_directory_summary (md5 abspath : string -> string) (E : env)
    (directory : string) (force : bool) (st st' : index_t * list job)
    (sm : summary) :
  lists_all E ->
  index_directory md5 abspath E directory force st = (st', Ok sm) ->
  total_files sm = Z.of_nat (List.length (walk E directory))
  /\ 0 <= indexed sm /\ 0 <= errors sm /\ 0 <= skipped sm
  /\ indexed sm + errors sm + skipped sm <= total_files sm
  /\ (force = true -> skipped sm = 0).
Proof.
  intros Hall. destruct st as [idx jobs]. unfold index_directory.
  destruct (select_files md5 abspath (disk E) force idx (walk E directory))
    as [F|e0] eqn:Hsel; [| discriminate].
  pose proof (select_files_spec md5 abspath _ _ _ _ _ Hsel) as HF.
  assert (Hle : (List.length F <= List.length (walk E directory))%nat)
    by (rewrite HF; apply List.filter_length_le).
  assert (Hforce : force = true -> List.length F = List.length (walk E directory)).
  { intros ->. rewrite HF. cbn [orb]. clear.
    induction (walk E directory); cbn; congruence. }
  destruct F as [|f0 F0] eqn:HFeq.
  { intros [= <- <-]. cbn [total_files indexed errors skipped List.length] in *.
    repeat split; try lia. intros Hf. specialize (Hforce Hf). lia. }
  rewrite <- HFeq in *. clear HFeq.
  destruct (staging_error E) as [e0|]; [discriminate |].
  destruct (process_directory _ _ _ _ _) as [ls [e1|]] eqn:Hpd; [discriminate |].
  intros [= <- <-]. cbn [total_files indexed errors skipped].
  pose proof (process_directory_settled (handlers E) (staged_listing E F)
                (Some (update_index md5 abspath E F))
                (completion_order E (staged_listing E F)) idx) as Hset.
  rewrite Hpd in Hset. cbn [fst] in Hset.
  destruct (settled_jobs_shape _ _ _ Hset) as (Hnames & _ & Hterm).
  pose proof (count_terminal _ Hterm) as Hcount.
  assert (Hjobs : List.length (ls_jobs ls) = List.length (staged_listing E F))
    by (rewrite <- Hnames; symmetry; apply length_fmap).
  pose proof (staged_listing_bound E F Hall) as Hbound.
  assert (0 <= stage_errors E F) by (unfold stage_errors; lia).
  repeat split; try lia. intros Hf. specialize (Hforce Hf). lia.
Qed.

(** X22.  The counts of a summary are consistent: none is negative, and
    indexed, failed and skipped files together never exceed the files
    found; [total_files] is the number of walked files, and a forced run
    skips none. *)
Theorem index_directory_counts (md5 abspath : string -> string) (E : env)
    (directory : string) (force : bool) (st st' : index_t * list job)
    (sm : summary) :
  lists_all E ->
  index_directory md5 abspath E directory force st = (st', Ok sm) ->
  total_files sm = Z.of_nat (List.length (walk E directory))
  /\ 0 <= indexed sm /\ 0 <= errors sm /\ 0 <= skipped sm
  /\ indexed sm + errors sm + skipped sm <= total_files sm
  /\ (force = true -> skipped sm = 0).
Proof. apply index_directory_summary. Qed.

Lemma index_directory_counts_witness :
  exists st' sm,
    index_directory FileIndexExamples.digest_id FileIndexExamples.abspath_id
      BuilderMoreExamples.E_twins "/docs" false BuilderExamples.empty_state
    = (st', Ok sm)
    /\ indexed sm + errors sm + skipped sm <= total_files sm.
Proof.
  eexists _, _. split; [vm_compute; reflexivity |].
  eapply (index_directory_counts FileIndexExamples.digest_id
            FileIndexExamples.abspath_id BuilderMoreExamples.E_twins "/docs" false
            BuilderExamples.empty_state).
  - intros names. reflexivity.
  - vm_compute. reflexivity.
Defined.

Lemma first_match_basename F name q :
  first_match F name = Some q -> first_match F (Path.basename q) = Some q.
Proof.
  intros H. pose proof H as H'. apply find_some in H' as [_ Heq].
  apply String.eqb_eq in Heq. rewrite Heq. exact H.
Qed.

(** X23.  A run of [index_directory] creates records only for files it
    selected, and among the selected files with one base name only for the
    first: a file that shares its base name with an earlier file to index
    gets no record in that run. *)
Theorem index_directory_records_first_match (md5 abspath : string -> string)
    (E : env) (directory : string) (force : bool)
    (st st' : index_t * list job) (r : result summary) (abs_path : string) :
  index_directory md5 abspath E directory force st = (st', r) ->
  files (fst st) !! abs_path = None ->
  is_Some (files (fst st') !! abs_path) ->
  exists F q,
    select_files md5 abspath (disk E) force (fst st) (walk E directory) = Ok F
    /\ first_match F (Path.basename q) = Some q
    /\ abspath q = abs_path.
Proof.
  destruct st as [idx jobs]. unfold index_directory. cbn [fst].
  destruct (select_files md5 abspath (disk E) force idx (walk E directory))
    as [F|e0] eqn:Hsel.
  2: { intros [= <- _] Hnone [x Hx]. cbn in Hx. congruence. }
  destruct F as [|f0 F0] eqn:HFeq.
  { intros [= <- _] Hnone [x Hx]. cbn in Hx. congruence. }
  rewrite <- HFeq in *. clear HFeq.
  intros Hrun Hnone Hsome. exists F.
  set (M := fun idx' : index_t =>
              is_Some (files idx' !! abs_path) ->
              exists q, first_match F (Path.basename q) = Some q
                        /\ abspath q = abs_path).
  assert (HM : M (fst st')).
  { destruct (staging_error E) as [e0|].
    { injection Hrun as <- _. intros [x Hx]. cbn in Hx. congruence. }
    destruct (process_directory _ _ _ _ _) as [ls r1] eqn:Hpd.
    assert (Hst : fst st' = ls_client ls) by (destruct r1; injection Hrun as <- _; reflexivity).
    rewrite Hst. unfold process_directory in Hpd.
    eapply (collect_preserves M); [| exact Hpd |].
    - intros d i1 i2 r2 Hcb Hi1.
      apply update_index_cases in Hcb
        as [(-> & _) | (q & info & _ & _ & Hfm & Hadd)]; [exact Hi1 |].
      destruct r2 as [e2|].
      + apply add_file_raise in Hadd. subst. exact Hi1.
      + destruct (add_file_completed md5 abspath _ _ _ _ _ _ Hadd)
          as (f & record & _ & _ & Hfiles & _).
        intros Hs. rewrite Hfiles in Hs.
        destruct (decide (abspath q = abs_path)) as [Heq | Hne].
        * exists q. split; [eapply first_match_basename, Hfm | exact Heq].
        * rewrite lookup_insert_ne in Hs by exact Hne. apply Hi1, Hs.
    - cbn [ls_client]. intros [x Hx]. congruence. }
  destruct (HM Hsome) as (q & Hq & Heq). exists q. auto.
Qed.

Lemma index_directory_records_first_match_witness :
  exists F q,
    select_files FileIndexExamples.digest_id FileIndexExamples.abspath_id
      (disk BuilderMoreExamples.E_twins) false (fst BuilderExamples.empty_state)
      (walk BuilderMoreExamples.E_twins "/docs") = Ok F
    /\ first_match F (Path.basename q) = Some q
    /\ FileIndexExamples.abspath_id q = "/docs/a/x.txt"%string.
Proof.
  eapply (index_directory_records_first_match FileIndexExamples.digest_id
            FileIndexExamples.abspath_id BuilderMoreExamples.E_twins "/docs" false
            BuilderExamples.empty_state).
  - vm_compute. reflexivity.
  - reflexivity.
  - eexists. vm_compute. reflexivity.
Defined.

Example index_directory_twins :
  exists st' sm,
    index_directory FileIndexExamples.digest_id FileIndexExamples.abspath_id
      BuilderMoreExamples.E_twins "/docs" false BuilderExamples.empty_state
    = (st', Ok sm)
    /\ (total_files sm, indexed sm, errors sm, skipped sm) = (2, 1, 0, 0)
    /\ is_Some (files (fst st') !! "/docs/a/x.txt"%string)
    /\ files (fst st') !! "/docs/b/x.txt"%string = None.
Proof.
  eexists _, _. split; [vm_compute; reflexivity |].
  split; [reflexivity |]. split; [eexists; vm_compute; reflexivity |].
  vm_compute. reflexivity.
Qed.

End BuilderMore.

(** ** Snippets: size and emptiness *)

Module SnippetMore.
Import Snippet SnippetSpec SnippetFacts ChunkerMore.

Lemma str_map_length f s : String.length (str_map f s) = String.length s.
Proof. induction s as [|c s IH]; cbn; congruence. Qed.

Lemma lstrip_length s : (String.length (lstrip s) <= String.length s)%nat.
Proof.
  induction s as [|c s IH]; cbn [lstrip]; [lia |].
  destruct (is_space c); cbn [String.length]; lia.
Qed.

Lemma rstrip_length s : (String.length (rstrip s) <= String.length s)%nat.
Proof.
  induction s as [|c s IH]; cbn [rstrip]; [lia |].
  destruct (rstrip s) as [|c' r]; [destruct (is_space c) |];
    cbn [String.length] in *; lia.
Qed.

Lemma strip_length s : (String.length (strip s) <= String.length s)%nat.
Proof.
  unfold strip. pose proof (rstrip_length (lstrip s)). pose proof (lstrip_length s).
  lia.
Qed.

Lemma lstrip_chars s c : c ∈ chars (lstrip s) -> c ∈ chars s.
Proof.
  unfold chars. induction s as [|x s IH]; cbn [lstrip]; [auto |].
  destruct (is_space x); [| auto].
  intros H. cbn [list_ascii_of_string]. apply list_elem_of_further, IH, H.
Qed.

Lemma rstrip_chars s c : c ∈ chars (rstrip s) -> c ∈ chars s.
Proof.
  unfold chars. induction s as [|x s IH]; cbn [rstrip]; [auto |].
  destruct (rstrip s) as [|c' r].
  - destruct (is_space x); cbn [list_ascii_of_string]; intros H.
    + inversion H.
    + apply list_elem_of_singleton in H. subst. apply list_elem_of_here.
  - cbn [list_ascii_of_string] in *. intros H.
    apply elem_of_cons in H as [-> | H];
      [apply list_elem_of_here | apply list_elem_of_further, IH, H].
Qed.

Lemma strip_chars s c : c ∈ chars (strip s) -> c ∈ chars s.
Proof. intros H. apply lstrip_chars, rstrip_chars, H. Qed.

Lemma flatten_no_newline s : Py.newline ∉ chars (flatten_newlines s).
Proof.
  unfold chars, flatten_newlines.
  induction s as [|c s IH]; cbn [str_map list_ascii_of_string];
    [apply not_elem_of_nil |].
  apply not_elem_of_cons. split; [| exact IH].
  destruct (Ascii.eqb c Py.newline) eqn:Hc; [discriminate |].
  intros Heq. rewrite <- Heq, Ascii.eqb_refl in Hc. discriminate.
Qed.

Lemma chars_app s t : chars (s ++ t) = chars s ++ chars t.
Proof.
  unfold chars. induction s as [|c s IH]; [reflexivity |].
  change (String c s ++ t)%string with (String c (s ++ t)).
  cbn [list_ascii_of_string]. rewrite IH. reflexivity.
Qed.

Lemma append_length s t :
  String.length (s ++ t) = (String.length s + String.length t)%nat.
Proof.
  induction s as [|c s IH]; [reflexivity |].
  change (String c s ++ t)%string with (String c (s ++ t)).
  cbn [String.length]. rewrite IH. reflexivity.
Qed.

Lemma slice_length s a b :
  0 <= a -> 0 <= b -> Py.len (Py.slice s a b) <= Z.max 0 (b - a).
Proof.
  intros Ha Hb. unfold Py.slice, Py.clamp, Py.len.
  replace (a <? 0) with false by (symmetry; apply Z.ltb_ge; lia).
  replace (b <? 0) with false by (symmetry; apply Z.ltb_ge; lia).
  pose proof (substring_length_le s
                (Z.to_nat (Z.min a (Z.of_nat (String.length s))))
                (Z.to_nat (Z.min b (Z.of_nat (String.length s))
                           - Z.min a (Z.of_nat (String.length s))))).
  lia.
Qed.

Lemma terms_in_window_pos term_positions i start end_ :
  1 <= terms_in_window term_positions i start end_.
Proof.
  unfold terms_in_window.
  generalize (enumerate_from 0 term_positions). intros l.
  assert (H : forall n, 1 <= n ->
            1 <= fold_left
                   (fun n '(j, (other_pos, _)) =>
                      if negb (Nat.eqb i j) && (start <=? other_pos)
                         && (other_pos <? end_)
                      then n + 1 else n) l n).
  { induction l as [|[j [p q]] l IH]; intros n Hn; cbn [fold_left]; [exact Hn |].
    apply IH. destruct (_ && _); lia. }
  apply H. lia.
Qed.

Lemma enumerate_from_elem {A} (l : list A) :
  forall i j x, (j, x) ∈ enumerate_from i l -> x ∈ l.
Proof.
  induction l as [|y l IH]; intros i j x H; [inversion H |].
  cbn [enumerate_from] in H. apply elem_of_cons in H as [[= _ ->] | H];
    [apply list_elem_of_here | apply list_elem_of_further; eapply IH, H].
Qed.

(** The window start chosen by the scoring loop is the initial one, or the
    start of the window of some hit. *)
Lemma best_window_fold content term_positions context_size l :
  forall st,
    let res :=
      fold_left
        (fun '(best_score, best_start) '(i, (pos, length)) =>
           let start := Z.max 0 (pos - context_size) in
           let end_ := Z.min (Py.len content) (pos + length + context_size) in
           let terms_in_snippet := terms_in_window term_positions i start end_ in
           if terms_in_snippet >? best_score
           then (terms_in_snippet, start)
           else (best_score, best_start)) l st in
    fst st <= fst res
    /\ (res = st
        \/ exists i pos length,
            (i, (pos, length)) ∈ l /\ snd res = Z.max 0 (pos - context_size)).
Proof.
  induction l as [|[i [pos length]] l IH]; intros [score start]; cbn zeta;
    cbn [fold_left].
  - split; [lia | left; reflexivity].
  - set (t := terms_in_window term_positions i (Z.max 0 (pos - context_size))
                (Z.min (Py.len content) (pos + length + context_size))).
    destruct (t >? score) eqn:Ht.
    + destruct (IH (t, Z.max 0 (pos - context_size))) as [Hle Hor].
      cbn zeta in Hle, Hor. cbn [fst] in *. split; [lia |]. right.
      destruct Hor as [-> | (i' & pos' & length' & Hin & Heq)].
      * exists i, pos, length. split; [apply list_elem_of_here | reflexivity].
      * exists i', pos', length'. split; [apply list_elem_of_further, Hin | exact Heq].
    + destruct (IH (score, start)) as [Hle Hor]. cbn zeta in Hle, Hor.
      split; [exact Hle |].
      destruct Hor as [-> | (i' & pos' & length' & Hin & Heq)];
        [left; reflexivity | right].
      exists i', pos', length'. split; [apply list_elem_of_further, Hin | exact Heq].
Qed.

Lemma best_window_start content term_positions context_size :
  snd (best_window content term_positions context_size) = 0
  \/ exists pos length,
      (pos, length) ∈ term_positions
      /\ snd (best_window content term_positions context_size)
         = Z.max 0 (pos - context_size).
Proof.
  unfold best_window.
  destruct (best_window_fold content term_positions context_size
              (enumerate_from 0 term_positions) (0, 0)) as [_ Hor].
  cbn zeta in Hor. destruct Hor as [-> | (i & pos & length & Hin & Heq)];
    [left; reflexivity | right].
  exists pos, length. split; [eapply enumerate_from_elem, Hin | exact Heq].
Qed.

Lemma best_window_start_nonneg content term_positions context_size :
  0 <= snd (best_window content term_positions context_size).
Proof.
  destruct (best_window_start content term_positions context_size)
    as [-> | (pos & length & _ & ->)]; lia.
Qed.

Lemma find_relevant_snippet_shape content query_terms context_size :
  _find_relevant_snippet content query_terms context_size = ""%string
  \/ exists best_start,
      0 <= best_start
      /\ _find_relevant_snippet content query_terms context_size
         = strip (flatten_newlines
                    (Py.slice content best_start
                       (Z.min (Py.len content) (best_start + context_size * 2)))).
Proof.
  unfold _find_relevant_snippet.
  destruct (String.eqb content "" || _); [left; reflexivity |].
  destruct (collect_positions _ _) as [|p ps]; [left; reflexivity |].
  right. eexists. split; [| reflexivity]. apply best_window_start_nonneg.
Qed.

(** X24.  For a non-negative [context_size] the snippet returned by
    [_find_relevant_snippet] is at most [2 * context_size] characters long
    and holds no newline; what [search_files] prints after [Snippet:] is
    therefore at most 103 characters long, and holds no newline either. *)
Theorem snippet_bounded (content : string) (query_terms : list string)
    (context_size : Z) (query : string) :
  0 <= context_size ->
  let snippet := _find_relevant_snippet content query_terms context_size in
  Py.len snippet <= 2 * context_size
  /\ (Py.newline ∉ chars snippet)
  /\ Py.len (search_files_snippet content query) <= 103
  /\ (Py.newline ∉ chars (search_files_snippet content query)).
Proof.
  intros Hcs. cbn zeta.
  assert (Hgen : forall terms cs, 0 <= cs ->
            Py.len (_find_relevant_snippet content terms cs) <= 2 * cs
            /\ (Py.newline ∉ chars (_find_relevant_snippet content terms cs))).
  { intros terms cs Hc.
    destruct (find_relevant_snippet_shape content terms cs)
      as [-> | (bs & Hbs & ->)].
    - split; [unfold Py.len; cbn [String.length]; lia | apply not_elem_of_nil].
    - split.
      + pose proof (strip_length (flatten_newlines
                      (Py.slice content bs (Z.min (Py.len content) (bs + cs * 2))))) as H1.
        unfold flatten_newlines in H1 at 2. rewrite str_map_length in H1.
        pose proof (slice_length content bs
                      (Z.min (Py.len content) (bs + cs * 2)) Hbs) as H2.
        unfold Py.len in *. lia.
      + intros Hin. apply strip_chars in Hin.
        exact (flatten_no_newline _ Hin). }
  destruct (Hgen query_terms context_size Hcs) as [H1 H2].
  split; [exact H1 |]. split; [exact H2 |].
  unfold search_files_snippet.
  destruct (Hgen (split (lower query)) default_context_size) as [H3 H4];
    [unfold default_context_size; lia |].
  assert (Hfb : Py.len (strip (flatten_newlines (Py.slice content 0 100))) <= 100
                /\ (Py.newline ∉ chars (strip (flatten_newlines (Py.slice content 0 100))))).
  { split.
    - pose proof (strip_length (flatten_newlines (Py.slice content 0 100))) as H5.
      unfold flatten_newlines in H5 at 2. rewrite str_map_length in H5.
      pose proof (slice_length content 0 100) as H6.
      unfold Py.len in *. lia.
    - intros Hin. apply strip_chars in Hin. exact (flatten_no_newline _ Hin). }
  destruct Hfb as [H5 H6].
  assert (Hdots : Py.newline ∉ chars "...")
    by (unfold chars; cbn; intros H; repeat (apply elem_of_cons in H as [H | H];
          [discriminate |]); inversion H).
  destruct (negb (String.eqb _ "")).
  - unfold Py.len in *. rewrite append_length, chars_app. cbn [String.length].
    change (2 * default_context_size) with 100 in H3.
    split; [lia |]. intros H. apply elem_of_app in H as [H | H]; auto.
  - cbn zeta. destruct (Py.len content >? 100).
    + unfold Py.len in *. rewrite append_length, chars_app. cbn [String.length].
      split; [lia |]. intros H. apply elem_of_app in H as [H | H]; auto.
    + split; [lia | exact H6].
Qed.

Lemma snippet_bounded_witness :
  Py.len (_find_relevant_snippet far_fox ["fox"; "jumps"]%string 50) <= 2 * 50.
Proof.
  apply (snippet_bounded far_fox ["fox"; "jumps"]%string 50 "fox jumps"). lia.
Defined.


(** *** When the snippet is empty *)

Lemma split_go_terms s :
  forall cur,
    Forall (fun c => is_space c = false) (chars cur) ->
    Forall (fun t => t <> ""%string
                     /\ Forall (fun c => is_space c = false) (chars t))
      (split_go cur s).
Proof.
  induction s as [|c s IH]; intros cur Hcur; cbn [split_go].
  - destruct (String.eqb cur "") eqn:He; [constructor |].
    constructor; [| constructor]. split; [| exact Hcur].
    intros ->. discriminate.
  - destruct (is_space c) eqn:Hc.
    + apply Forall_app. split; [| apply IH; constructor].
      destruct (String.eqb cur "") eqn:He; [constructor |].
      constructor; [| constructor]. split; [| exact Hcur].
      intros ->. discriminate.
    + apply IH. rewrite chars_app. apply Forall_app. split; [exact Hcur |].
      unfold chars. cbn. constructor; [exact Hc | constructor].
Qed.

Lemma split_terms s t :
  t ∈ split s -> exists c t', t = String c t' /\ is_space c = false.
Proof.
  intros Hin. pose proof (split_go_terms s "" (Forall_nil_2 _)) as Hall.
  rewrite Forall_forall in Hall. destruct (Hall t Hin) as [Hne Hchars].
  destruct t as [|c t']; [contradiction |].
  exists c, t'. split; [reflexivity |].
  unfold chars in Hchars. cbn in Hchars. apply Forall_cons in Hchars as [Hc _].
  exact Hc.
Qed.

(** [pos] is the place of an occurrence of [term] in [s]. *)
Lemma find_hit s term start :
  find s term start = -1
  \/ (0 <= find s term start
      /\ exists k, String.index k term s = Some (Z.to_nat (find s term start))).
Proof.
  unfold find. destruct (String.index (Z.to_nat start) term s) as [m|] eqn:Hm;
    [right | left; reflexivity].
  split; [lia |]. exists (Z.to_nat start). rewrite Nat2Z.id. exact Hm.
Qed.

Lemma find_all_spec s term fuel :
  forall pos acc,
    pos = -1 \/ (0 <= pos /\ exists k, String.index k term s = Some (Z.to_nat pos)) ->
    exists ext,
      find_all fuel s term pos acc = acc ++ ext
      /\ Forall (fun x => 0 <= fst x
                          /\ exists k, String.index k term s = Some (Z.to_nat (fst x)))
           ext
      /\ ((0 < fuel)%nat -> pos <> -1 -> ext <> []).
Proof.
  induction fuel as [|f IH]; intros pos acc Hpos; cbn [find_all].
  - exists []. rewrite app_nil_r. split; [reflexivity |].
    split; [constructor | lia].
  - destruct (pos =? -1) eqn:Hp.
    + apply Z.eqb_eq in Hp. exists []. rewrite app_nil_r.
      split; [reflexivity |]. split; [constructor | congruence].
    + apply Z.eqb_neq in Hp. destruct Hpos as [? | Hhit]; [contradiction |].
      destruct (IH (find s term (pos + 1)) (acc ++ [(pos, Py.len term)])
                  (find_hit s term (pos + 1))) as (ext & Heq & Hall & _).
      exists ((pos, Py.len term) :: ext). rewrite Heq, <- app_assoc.
      split; [reflexivity |]. split; [constructor; assumption | discriminate].
Qed.

Lemma collect_positions_spec s terms :
  Forall (fun x => 0 <= fst x
                   /\ exists term k, term ∈ terms
                        /\ String.index k term s = Some (Z.to_nat (fst x)))
    (collect_positions s terms)
  /\ ((exists term, term ∈ terms /\ contains s term = true) ->
      collect_positions s terms <> []).
Proof.
  unfold collect_positions.
  assert (H : forall acc,
            Forall (fun x => 0 <= fst x
                             /\ exists term k, term ∈ terms
                                  /\ String.index k term s = Some (Z.to_nat (fst x)))
              acc ->
            forall ts, (forall t, t ∈ ts -> t ∈ terms) ->
            let res := fold_left
                         (fun acc term =>
                            find_all (String.length s + 2) s term (find s term 0) acc)
                         ts acc in
            Forall (fun x => 0 <= fst x
                             /\ exists term k, term ∈ terms
                                  /\ String.index k term s = Some (Z.to_nat (fst x)))
              res
            /\ (acc <> [] \/ (exists term, term ∈ ts /\ contains s term = true) ->
                res <> [])).
  { intros acc Hacc ts. revert acc Hacc.
    induction ts as [|t ts IH]; intros acc Hacc Hts; cbn zeta; cbn [fold_left].
    - split; [exact Hacc |]. intros [Hne | (term & Hin & _)];
        [exact Hne | inversion Hin].
    - destruct (find_all_spec s t (String.length s + 2) (find s t 0) acc
                  (find_hit s t 0)) as (ext & Heq & Hall & Hne).
      rewrite Heq.
      destruct (IH (acc ++ ext)) as [H1 H2].
      + apply Forall_app. split; [exact Hacc |].
        eapply Forall_impl; [exact Hall |].
        intros x (Hx & k & Hk). split; [exact Hx |].
        exists t, k. split; [apply Hts, list_elem_of_here | exact Hk].
      + intros u Hu. apply Hts, list_elem_of_further, Hu.
      + split; [exact H1 |]. intros Hor. apply H2.
        destruct Hor as [Hacc' | (term & Hin & Hc)].
        * left. destruct acc; [contradiction | discriminate].
        * apply elem_of_cons in Hin as [-> | Hin]; [| right; eauto].
          left. assert (Hext : ext <> []).
          { apply Hne; [lia |]. unfold contains in Hc. unfold find.
            change (Z.to_nat 0) with 0%nat.
            destruct (String.index 0 t s); [lia | discriminate]. }
          destruct acc; [exact Hext | discriminate]. }
  destruct (H [] (Forall_nil_2 _) terms (fun t Ht => Ht)) as [H1 H2].
  split; [exact H1 |]. intros Hex. apply H2. right. exact Hex.
Qed.

Lemma collect_positions_nil s terms :
  (forall term, term ∈ terms -> contains s term = false) ->
  collect_positions s terms = [].
Proof.
  unfold collect_positions. intros Hnone.
  induction terms as [|t ts IH]; [reflexivity |].
  cbn [fold_left].
  assert (Hf : find s t 0 = -1).
  { specialize (Hnone t (list_elem_of_here _ _)). unfold contains in Hnone.
    unfold find. change (Z.to_nat 0) with 0%nat.
    destruct (String.index 0 t s); [discriminate | reflexivity]. }
  rewrite Hf.
  assert (Hstop : forall fuel acc, find_all fuel s t (-1) acc = acc)
    by (intros [|fuel] acc; reflexivity).
  rewrite Hstop. apply IH. intros term Hin. apply Hnone, list_elem_of_further, Hin.
Qed.

Lemma get_str_map f s k : get k (str_map f s) = option_map f (get k s).
Proof.
  revert k. induction s as [|c s IH]; intros k; [reflexivity |].
  destruct k as [|k]; cbn; [reflexivity | apply IH].
Qed.

Lemma hit_char s term c t' k m :
  term = String c t' -> String.index k term s = Some m -> get m s = Some c.
Proof.
  intros -> Hidx. apply index_correct1 in Hidx.
  pose proof (substring_correct1 s m (String.length (String c t')) 0) as Hget.
  rewrite Hidx in Hget. cbn in Hget. symmetry. apply Hget. lia.
Qed.

Lemma space_survives (c : ascii) :
  is_space c = true ->
  is_space (lower_char (if Ascii.eqb c Py.newline then " "%char else c)) = true.
Proof.
  destruct c as [[] [] [] [] [] [] [] []]; vm_compute; intros H;
    first [reflexivity | discriminate H].
Qed.

Lemma searched_char content k c :
  get k (searched content) = Some c -> is_space c = false ->
  exists c0, get k content = Some c0 /\ is_space c0 = false.
Proof.
  unfold searched, lower, flatten_newlines. rewrite !get_str_map.
  destruct (get k content) as [c0|]; [| discriminate].
  cbn [option_map]. intros [= <-] Hc. exists c0. split; [reflexivity |].
  destruct (is_space c0) eqn:Hs; [| reflexivity].
  apply space_survives in Hs. congruence.
Qed.

Lemma get_Some_lt s k c : get k s = Some c -> (k < String.length s)%nat.
Proof.
  revert k. induction s as [|x s IH]; intros k; [discriminate |].
  destruct k as [|k]; cbn; [lia |]. intros H. apply IH in H. lia.
Qed.

Lemma lstrip_keeps s :
  (exists k c, get k s = Some c /\ is_space c = false) ->
  exists k c, get k (lstrip s) = Some c /\ is_space c = false.
Proof.
  induction s as [|x s IH]; intros (k & c & Hget & Hc); [discriminate |].
  cbn [lstrip]. destruct (is_space x) eqn:Hx; [| eauto].
  destruct k as [|k]; cbn in Hget; [congruence |]. apply IH. eauto.
Qed.

Lemma rstrip_nonempty s :
  (exists k c, get k s = Some c /\ is_space c = false) -> rstrip s <> ""%string.
Proof.
  induction s as [|x s IH]; intros (k & c & Hget & Hc); [discriminate |].
  cbn [rstrip]. destruct k as [|k]; cbn in Hget.
  - injection Hget as ->. destruct (rstrip s); [rewrite Hc |]; discriminate.
  - destruct (rstrip s) eqn:Hr; [| discriminate].
    exfalso. apply IH; [eauto | reflexivity].
Qed.

Lemma strip_nonempty s :
  (exists k c, get k s = Some c /\ is_space c = false) -> strip s <> ""%string.
Proof. intros H. apply rstrip_nonempty, lstrip_keeps, H. Qed.

Lemma is_space_newline c : is_space c = false -> Ascii.eqb c Py.newline = false.
Proof.
  intros Hc. destruct (Ascii.eqb c Py.newline) eqn:He; [| reflexivity].
  apply Ascii.eqb_eq in He. subst. discriminate.
Qed.

Lemma window_holds_char content k c0 best_start end_ :
  get k content = Some c0 -> is_space c0 = false ->
  0 <= best_start <= Z.of_nat k -> Z.of_nat k < end_ <= Py.len content ->
  strip (flatten_newlines (Py.slice content best_start end_)) <> ""%string.
Proof.
  intros Hget Hc Hbs He. apply strip_nonempty.
  exists (k - Z.to_nat best_start)%nat, c0. split; [| exact Hc].
  unfold flatten_newlines. rewrite get_str_map, slice_inside by lia.
  rewrite substring_correct1 by lia.
  replace (k - Z.to_nat best_start + Z.to_nat best_start)%nat with k by lia.
  rewrite Hget. cbn [option_map]. rewrite (is_space_newline _ Hc). reflexivity.
Qed.

Lemma insert_sorted_elem x y l : x ∈ insert_sorted y l -> x = y \/ x ∈ l.
Proof.
  induction l as [|z l IH]; cbn [insert_sorted]; intros H.
  - apply list_elem_of_singleton in H. auto.
  - destruct (pair_leb y z).
    + apply elem_of_cons in H as [-> | H]; auto.
    + apply elem_of_cons in H as [-> | H]; [right; apply list_elem_of_here |].
      destruct (IH H) as [-> | Hin]; [auto | right; apply list_elem_of_further, Hin].
Qed.

Lemma sort_positions_elem x l : x ∈ sort_positions l -> x ∈ l.
Proof.
  unfold sort_positions. induction l as [|y l IH]; cbn [fold_right]; [auto |].
  intros H. apply insert_sorted_elem in H as [-> | H];
    [apply list_elem_of_here | apply list_elem_of_further, IH, H].
Qed.

Lemma sort_positions_nonempty l : l <> [] -> sort_positions l <> [].
Proof.
  unfold sort_positions. destruct l as [|y l]; [contradiction |]. intros _.
  cbn [fold_right]. destruct (fold_right insert_sorted [] l) as [|z l'];
    cbn [insert_sorted]; [discriminate |].
  destruct (pair_leb y z); discriminate.
Qed.

Lemma best_window_fold_score content term_positions context_size l :
  forall st,
    l <> [] -> fst st <= 0 ->
    1 <= fst (fold_left
                (fun '(best_score, best_start) '(i, (pos, length)) =>
                   let start := Z.max 0 (pos - context_size) in
                   let end_ := Z.min (Py.len content) (pos + length + context_size) in
                   let terms_in_snippet :=
                     terms_in_window term_positions i start end_ in
                   if terms_in_snippet >? best_score
                   then (terms_in_snippet, start)
                   else (best_score, best_start)) l st).
Proof.
  intros [score start] Hne Hst. destruct l as [|[i [pos length]] l]; [contradiction |].
  cbn [fold_left fst] in *.
  pose proof (terms_in_window_pos term_positions i
                (Z.max 0 (pos - context_size))
                (Z.min (Py.len content) (pos + length + context_size))) as Hpos.
  replace (_ >? score) with true by (symmetry; apply Z.gtb_lt; lia).
  match goal with
  | |- 1 <= fst (fold_left _ _ ?st1) =>
      destruct (best_window_fold content term_positions context_size l st1)
        as [Hle _]
  end.
  cbn zeta in Hle. cbn [fst] in Hle. lia.
Qed.

Lemma enumerate_from_nonempty {A} i (l : list A) :
  l <> [] -> enumerate_from i l <> [].
Proof. destruct l; [contradiction | discriminate]. Qed.

Lemma best_window_hit content term_positions context_size :
  term_positions <> [] ->
  exists pos length,
    (pos, length) ∈ term_positions
    /\ snd (best_window content term_positions context_size)
       = Z.max 0 (pos - context_size).
Proof.
  intros Hne.
  pose proof (best_window_fold_score content term_positions context_size
                (enumerate_from 0 term_positions) (0, 0)
                (enumerate_from_nonempty 0 _ Hne)) as Hscore.
  destruct (best_window_fold content term_positions context_size
              (enumerate_from 0 term_positions) (0, 0)) as [_ Hor].
  cbn zeta in Hor, Hscore. unfold best_window.
  destruct Hor as [Heq | (i & pos & length & Hin & Heq)].
  - exfalso. rewrite Heq in Hscore. cbn [fst] in Hscore. lia.
  - exists pos, length. split; [eapply enumerate_from_elem, Hin | exact Heq].
Qed.

(** With terms that begin with a visible character and a positive context
    size, a hit makes the snippet non-empty. *)
Lemma snippet_nonempty content query_terms context_size :
  0 < context_size ->
  (forall t, t ∈ query_terms -> exists c t', t = String c t' /\ is_space c = false) ->
  (exists term, term ∈ query_terms /\ contains (searched content) term = true) ->
  _find_relevant_snippet content query_terms context_size <> ""%string.
Proof.
  intros Hcs Hterms Hex.
  destruct (collect_positions_spec (searched content) query_terms) as [Hall Hne].
  specialize (Hne Hex).
  assert (Hhit : forall pos length,
            (pos, length) ∈ sort_positions
                             (collect_positions (searched content) query_terms) ->
            0 <= pos
            /\ exists c0, get (Z.to_nat pos) content = Some c0 /\ is_space c0 = false).
  { intros pos length Hin. apply sort_positions_elem in Hin.
    rewrite Forall_forall in Hall.
    destruct (Hall _ Hin) as (Hpos & term & k & Hterm & Hidx).
    cbn [fst] in *. split; [exact Hpos |].
    destruct (Hterms term Hterm) as (c & t' & Heq & Hc).
    eapply searched_char; [| exact Hc]. eapply hit_char; eassumption. }
  unfold _find_relevant_snippet. fold (searched content).
  destruct (String.eqb content "") eqn:Hempty.
  { apply String.eqb_eq in Hempty. subst content. exfalso.
    destruct (best_window_hit ""
                (sort_positions (collect_positions (searched "") query_terms))
                context_size (sort_positions_nonempty _ Hne))
      as (pos & length & Hin & _).
    destruct (Hhit pos length Hin) as (_ & c0 & Hget & _). discriminate. }
  destruct query_terms as [|t0 ts] eqn:Hq.
  { destruct Hex as (term & Hin & _). inversion Hin. }
  rewrite <- Hq in *. cbn [orb].
  replace (match query_terms with [] => true | _ :: _ => false end) with false
    by (rewrite Hq; reflexivity).
  destruct (collect_positions (searched content) query_terms) as [|p ps] eqn:Hp;
    [contradiction |].
  rewrite <- Hp in *.
  destruct (best_window_hit content
              (sort_positions (collect_positions (searched content) query_terms))
              context_size (sort_positions_nonempty _ Hne))
    as (pos & length & Hin & Hstart).
  rewrite Hstart.
  destruct (Hhit pos length Hin) as (Hpos & c0 & Hget & Hc).
  pose proof (get_Some_lt _ _ _ Hget) as Hlt.
  eapply window_holds_char; [exact Hget | exact Hc | lia |].
  unfold Py.len. lia.
Qed.

(** X25.  [search_files] shows the window chosen by
    [_find_relevant_snippet] exactly when some word of the query occurs in
    the content, case-insensitively and with newlines read as spaces: the
    snippet is then non-empty and is printed followed by an ellipsis.  When
    no word occurs, the snippet is empty and the first 100 characters are
    shown instead. *)
Theorem snippet_nonempty_iff (content query : string) :
  let query_terms := split (lower query) in
  let snippet := _find_relevant_snippet content query_terms default_context_size in
  (snippet <> ""%string
   <-> exists term, term ∈ query_terms /\ contains (searched content) term = true)
  /\ (snippet <> ""%string ->
      search_files_snippet content query = (snippet ++ "...")%string)
  /\ (snippet = ""%string ->
      search_files_snippet content query
      = let first := strip (flatten_newlines (Py.slice content 0 100)) in
        if Py.len content >? 100 then (first ++ "...")%string else first).
Proof.
  cbn zeta. split; [| split].
  - split.
    + intros Hne.
      destruct (existsb (contains (searched content)) (split (lower query))) eqn:Hex.
      * apply existsb_exists in Hex as (term & Hin & Hc).
        exists term. split; [apply list_elem_of_In, Hin | exact Hc].
      * exfalso. apply Hne, no_hit_no_snippet. fold (searched content).
        apply collect_positions_nil. intros term Hin.
        destruct (contains (searched content) term) eqn:Hc; [| reflexivity].
        assert (Ht : existsb (contains (searched content)) (split (lower query)) = true)
          by (apply existsb_exists; exists term; split;
              [apply list_elem_of_In, Hin | exact Hc]).
        congruence.
    + apply snippet_nonempty; [unfold default_context_size; lia |].
      intros t Ht. eapply split_terms, Ht.
  - intros Hne. unfold search_files_snippet.
    destruct (String.eqb _ "") eqn:He; [| reflexivity].
    apply String.eqb_eq in He. contradiction.
  - intros He. apply search_files_fallback, He.
Qed.

End SnippetMore.

(** ** Chunking a large document *)

Module LargeDocumentFacts.
Import Retriever Chunker LargeDocument.

(** X26.  [handle_large_document] chunks with an overlap of 400 unless
    told otherwise.  With any positive overlap it never returns its report
    for a document whose text is not empty: the chunking loop runs on, or
    stops on an index error, and no chunk reaches the retriever. *)
Theorem handle_large_document_never_returns (fuel : nat)
    (read filename : string) (chunk_size overlap : Z) (r : retriever)
    (out : retriever * chunk_report) :
  0 < overlap ->
  document_text read <> ""%string ->
  handle_large_document fuel read filename chunk_size overlap r <> Some (Ok out).
Proof.
  intros Hov Hne. unfold handle_large_document, chunk_document.
  destruct (chunk_loop fuel (document_text read) chunk_size overlap 0 [])
    as [[chunks|e]|] eqn:Hloop; try discriminate.
  exfalso. revert Hloop. apply ChunkerMore.chunk_loop_overlap; [exact Hov |].
  apply ChunkerFacts.nonempty_len, Hne.
Qed.

Lemma handle_large_document_never_returns_witness :
  handle_large_document 50 sample_read "a.txt" default_chunk_size
    default_overlap empty
  <> Some (Ok (fst (add_document empty (chunk_doc "a.txt" 0 "alpha")),
               {| rep_filename := "a.txt"; rep_chunks := 1;
                  rep_chunk_size := default_chunk_size;
                  rep_overlap := default_overlap; rep_total_length := 5 |})).
Proof.
  apply handle_large_document_never_returns;
    [reflexivity | vm_compute; discriminate].
Defined.

Example handle_large_document_text :
  document_text sample_read = "alpha"%string.
Proof. vm_compute. reflexivity. Qed.

End LargeDocumentFacts.

(** ** Updating the index for several directories *)

Module BuilderAllFacts.
Import FileIndex Batch Builder BuilderAll BuilderFacts BuilderMore.

Lemma index_directories_forced (md5 abspath : string -> string) (E : env)
    (directories : list string) :
  staging_error E = None ->
  forall st, exists st' results,
    index_directories md5 abspath E directories true st = (st', Ok results)
    /\ List.length results = List.length directories
    /\ sum_of total_files results
       = fold_right Z.add 0
           ((fun d => Z.of_nat (List.length (walk E d))) <$> directories)
    /\ (lists_all E ->
        sum_of skipped results = 0
        /\ 0 <= sum_of indexed results
        /\ 0 <= sum_of errors results
        /\ sum_of indexed results + sum_of errors results
           <= sum_of total_files results).
Proof.
  intros Hstage.
  induction directories as [|d rest IH]; intros st; cbn [index_directories].
  - exists st, []. unfold sum_of. cbn. repeat split; lia.
  - destruct (index_directory md5 abspath E d true st) as [st1 [sm|e]] eqn:Hrun.
    2: { apply index_directory_raises in Hrun as (_ & [(? & _) | (He & _)]);
           [discriminate | congruence]. }
    destruct (IH st1) as (st2 & results & -> & Hlen & Htotal & Hrest).
    exists st2, (sm :: results). split; [reflexivity |].
    unfold sum_of in *. rewrite !fmap_cons. cbn [fold_right List.length].
    split; [congruence |].
    assert (Htf : total_files sm = Z.of_nat (List.length (walk E d)))
      by (eapply skipped_count, Hrun).
    split; [rewrite Htf, Htotal; reflexivity |].
    intros Hall. destruct (Hrest Hall) as (Hs & Hi & He & Hsum).
    destruct (index_directory_summary md5 abspath E d true st st1 sm Hall Hrun)
      as (_ & H1 & H2 & _ & H4 & H5).
    specialize (H5 eq_refl). repeat split; lia.
Qed.

(** X27.  A forced [update_index] over any list of directories, when
    creating, clearing and listing the staging directory do not raise,
    returns:
    there is one summary per directory, the total number of files is the
    number of files walked in all of them, none is skipped, and indexed and
    failed files together never exceed the total. *)
Theorem update_index_forced (md5 abspath : string -> string) (E : env)
    (directories : list string) (st : index_t * list job) :
  staging_error E = None ->
  exists st' all,
    BuilderAll.update_index md5 abspath E directories true st = (st', Ok all)
    /\ all_directories all = Z.of_nat (List.length directories)
    /\ List.length (details all) = List.length directories
    /\ all_total_files all
       = fold_right Z.add 0
           ((fun d => Z.of_nat (List.length (walk E d))) <$> directories)
    /\ (lists_all E ->
        all_skipped all = 0
        /\ 0 <= all_indexed all
        /\ 0 <= all_errors all
        /\ all_indexed all + all_errors all <= all_total_files all).
Proof.
  intros Hstage. unfold BuilderAll.update_index.
  destruct (index_directories_forced md5 abspath E directories Hstage st)
    as (st' & results & -> & Hlen & Htotal & Hrest).
  exists st'. eexists. split; [reflexivity |].
  cbn [all_directories details all_total_files all_skipped all_indexed all_errors].
  auto.
Qed.

Lemma update_index_forced_witness :
  exists st' all,
    BuilderAll.update_index FileIndexExamples.digest_id
      FileIndexExamples.abspath_id BuilderMoreExamples.E_twins
      ["/docs"%string] true BuilderExamples.empty_state = (st', Ok all)
    /\ all_directories all = 1
    /\ List.length (details all) = 1%nat
    /\ all_total_files all = 2.
Proof.
  destruct (update_index_forced FileIndexExamples.digest_id
              FileIndexExamples.abspath_id BuilderMoreExamples.E_twins
              ["/docs"%string] BuilderExamples.empty_state eq_refl)
    as (st' & all & Hrun & Hd & Hl & Ht & _).
  exists st', all. auto.
Defined.

(** When the staging directory cannot be created, cleared or listed, the
    first directory with a file to index ends the update. *)
Example update_index_staging_error :
  let E := {| walk := fun _ => ["/docs/a.txt"%string];
              disk := FileIndexExamples.fs_a;
              staging_error := Some PermissionError;
              stage_ok := fun _ => true;
              listdir := fun names => names;
              isfile := fun _ => true;
              handlers := BatchExamples.ex_plain;
              completion_order := fun listing => seq 0 (List.length listing);
              clock := 1 |} in
  BuilderAll.update_index FileIndexExamples.digest_id
    FileIndexExamples.abspath_id E ["/docs"%string] true
    BuilderExamples.empty_state
  = (BuilderExamples.empty_state, Raise PermissionError).
Proof. vm_compute. reflexivity. Qed.

End BuilderAllFacts.

(** ** The summary of the index *)

Module FileIndexSummaryFacts.
Import FileIndex FileIndexSummary FileIndexFacts.

Lemma count_types_snoc records r t :
  count_types (records ++ [r]) !! t
  = if decide (t = rec_type r)
    then Some (S (default 0%nat (count_types records !! t)))
    else count_types records !! t.
Proof.
  unfold count_types. rewrite fold_left_app. cbn [fold_left].
  set (m := fold_left _ records ∅).
  destruct (decide (t = rec_type r)) as [->|Hne].
  - rewrite lookup_insert_eq.
    destruct (m !! rec_type r) as [n|] eqn:Hm; [rewrite Hm; reflexivity |].
    rewrite lookup_insert_eq. reflexivity.
  - rewrite lookup_insert_ne by congruence.
    destruct (m !! rec_type r); [reflexivity |].
    apply lookup_insert_ne. congruence.
Qed.

Lemma count_types_spec records t :
  count_types records !! t
  = match List.length
            (List.filter (fun r => String.eqb (rec_type r) t) records) with
    | O => None
    | n => Some n
    end.
Proof.
  induction records as [|r records IH] using rev_ind; [reflexivity |].
  rewrite count_types_snoc, List.filter_app, length_app, IH.
  cbn [List.filter]. destruct (decide (t = rec_type r)) as [->|Hne].
  - rewrite String.eqb_refl. cbn [List.length].
    destruct (List.length _); cbn [from_option Datatypes.id];
      rewrite Nat.add_1_r; reflexivity.
  - replace (String.eqb (rec_type r) t) with false
      by (symmetry; apply String.eqb_neq; congruence).
    cbn [List.length]. rewrite Nat.add_0_r. reflexivity.
Qed.

(** X28.  The summary of the index agrees with the queries: the count
    given for a file type is the number of records [get_files_by_type]
    returns for it, and a type without records is not mentioned; in every
    index reached through [add_file], [remove_file] and [clear_index] the
    count given for a directory is the number of records
    [get_files_in_directory] returns for it. *)
Theorem index_summary_consistent (md5 abspath : string -> string)
    (idx : index_t) :
  let summary := get_index_summary idx in
  (forall file_type,
      is_file_types summary !! file_type
      = match List.length (get_files_by_type file_type idx) with
        | O => None
        | n => Some n
        end)
  /\ (reachable md5 abspath idx ->
      forall directory,
        is_Some (directories idx !! abspath directory) ->
        is_directories summary !! abspath directory
        = Some (List.length (get_files_in_directory abspath directory idx))).
Proof.
  cbn zeta. split.
  - intros file_type. apply count_types_spec.
  - intros Hr directory [e He]. unfold get_index_summary. cbn [is_directories].
    rewrite lookup_fmap, He. cbn [fmap option_fmap option_map]. f_equal.
    symmetry. eapply get_files_in_directory_all; eassumption.
Qed.

End FileIndexSummaryFacts.
